(** * A shallow embedding of [script.js], the core of a Tetris game

    The JavaScript program keeps its session in global variables ([board],
    [currentPiece], [dropTimer], [dropInterval], [score], [linesCleared],
    [isGameOver]) and mutates them from a handful of functions.  Here the
    globals become one record [Game], and every function of the script becomes
    a computation in a small state-and-error monad [M]:

    - reading a property of [undefined] raises a JavaScript [TypeError]; the
      monad records it as the result [TypeError];
    - the two unbounded loops ([clearLines] and [hardDrop]) take a loop budget
      and answer [OutOfFuel] when it is exhausted; the theorems below show
      that a budget depending only on the board height always suffices;
    - [Math.random] is an input: [randomPiece] receives the index that
      [Math.floor(Math.random() * PIECES.length)] evaluates to;
    - the canvas and the DOM are presentation only: [draw] is the list of
      its calls of [drawCell], and the calls of [draw] in the handlers, which
      neither raise nor change the session, are left out, as are the canvas
      calls of [drawCell], [updateScoreDisplay] and the overlay; the interval
      timers of the browser are kept, as a table of active timers.

    Numbers are mathematical integers: all coordinates and counters of the
    script stay far below 2^53, where JavaScript numbers are exact.  The
    colour functions are the exception: [parseInt] returns any number, and
    [lightenColor] and [darkenColor] compute with doubles. *)

From Stdlib Require Import ZArith Lia Bool Ascii Floats.
From stdpp Require Import base list strings.

Local Open Scope Z_scope.

(** ** Grid dimensions *)

Definition COLS : Z := 10.
Definition ROWS : Z := 20.

(** ** Data *)

(** A board cell is [null] ([None]) or a colour string. *)
Abbreviation cell := (option string) (only parsing).
Abbreviation Row := (list (option string)) (only parsing).
Abbreviation Board := (list (list (option string))) (only parsing).

(** One rotation state: a matrix of numbers, [0] for an empty cell. *)
Abbreviation Shape := (list (list Z)) (only parsing).

(** An entry of the catalog [PIECES]. *)
Module Def.
Record t : Type := mk
  { name : string;
    colour : string;
    rotations : list Shape }.
End Def.

(** The object built by [randomPiece] and stored in [currentPiece]. *)
Module Piece.
Record t : Type := mk
  { name : string;
    rotations : list Shape;
    colour : string;
    rotationIndex : nat;
    x : Z;
    y : Z }.

Definition set_x (v : Z) (p : t) : t :=
  mk (name p) (rotations p) (colour p) (rotationIndex p) v (y p).
Definition set_y (v : Z) (p : t) : t :=
  mk (name p) (rotations p) (colour p) (rotationIndex p) (x p) v.
Definition set_rotationIndex (v : nat) (p : t) : t :=
  mk (name p) (rotations p) (colour p) v (x p) (y p).
End Piece.

(** The value of [score]: a number, or [NaN] once [undefined] was added. *)
Inductive num : Type :=
| Int (z : Z)
| NaN.

Definition num_add (a b : num) : num :=
  match a, b with
  | Int u, Int v => Int (u + v)
  | _, _ => NaN
  end.

(** The globals of the script, together with the browser's table of running
    interval timers ([timers]: identifier and period) and the next free timer
    identifier. *)
Record Game : Type := mkGame
  { board : Board;
    currentPiece : Piece.t;
    dropTimer : option nat;
    dropInterval : Z;
    score : num;
    linesCleared : Z;
    isGameOver : bool;
    timers : list (nat * Z);
    nextTimer : nat }.

Definition set_board (b : Board) (g : Game) : Game :=
  mkGame b (currentPiece g) (dropTimer g) (dropInterval g) (score g)
         (linesCleared g) (isGameOver g) (timers g) (nextTimer g).
Definition set_currentPiece (p : Piece.t) (g : Game) : Game :=
  mkGame (board g) p (dropTimer g) (dropInterval g) (score g)
         (linesCleared g) (isGameOver g) (timers g) (nextTimer g).
Definition set_dropInterval (v : Z) (g : Game) : Game :=
  mkGame (board g) (currentPiece g) (dropTimer g) v (score g)
         (linesCleared g) (isGameOver g) (timers g) (nextTimer g).
Definition set_score (v : num) (g : Game) : Game :=
  mkGame (board g) (currentPiece g) (dropTimer g) (dropInterval g) v
         (linesCleared g) (isGameOver g) (timers g) (nextTimer g).
Definition set_linesCleared (v : Z) (g : Game) : Game :=
  mkGame (board g) (currentPiece g) (dropTimer g) (dropInterval g) (score g)
         v (isGameOver g) (timers g) (nextTimer g).
Definition set_isGameOver (v : bool) (g : Game) : Game :=
  mkGame (board g) (currentPiece g) (dropTimer g) (dropInterval g) (score g)
         (linesCleared g) v (timers g) (nextTimer g).

(** ** The piece catalog *)

Definition PIECES : list Def.t :=
  [ Def.mk "I" "#00b4d8"
      [ [ [0; 0; 0; 0];
          [1; 1; 1; 1];
          [0; 0; 0; 0];
          [0; 0; 0; 0] ];
        [ [0; 0; 1; 0];
          [0; 0; 1; 0];
          [0; 0; 1; 0];
          [0; 0; 1; 0] ] ];
    Def.mk "J" "#457b9d"
      [ [ [1; 0; 0];
          [1; 1; 1];
          [0; 0; 0] ];
        [ [0; 1; 1];
          [0; 1; 0];
          [0; 1; 0] ];
        [ [0; 0; 0];
          [1; 1; 1];
          [0; 0; 1] ];
        [ [0; 1; 0];
          [0; 1; 0];
          [1; 1; 0] ] ];
    Def.mk "L" "#f4a261"
      [ [ [0; 0; 1];
          [1; 1; 1];
          [0; 0; 0] ];
        [ [0; 1; 0];
          [0; 1; 0];
          [0; 1; 1] ];
        [ [0; 0; 0];
          [1; 1; 1];
          [1; 0; 0] ];
        [ [1; 1; 0];
          [0; 1; 0];
          [0; 1; 0] ] ];
    Def.mk "O" "#e9c46a"
      [ [ [1; 1];
          [1; 1] ] ];
    Def.mk "S" "#2a9d8f"
      [ [ [0; 1; 1];
          [1; 1; 0];
          [0; 0; 0] ];
        [ [0; 1; 0];
          [0; 1; 1];
          [0; 0; 1] ] ];
    Def.mk "T" "#a29bfe"
      [ [ [0; 1; 0];
          [1; 1; 1];
          [0; 0; 0] ];
        [ [0; 1; 0];
          [0; 1; 1];
          [0; 1; 0] ];
        [ [0; 0; 0];
          [1; 1; 1];
          [0; 1; 0] ];
        [ [0; 1; 0];
          [1; 1; 0];
          [0; 1; 0] ] ];
    Def.mk "Z" "#e63946"
      [ [ [1; 1; 0];
          [0; 1; 1];
          [0; 0; 0] ];
        [ [0; 0; 1];
          [0; 1; 1];
          [0; 1; 0] ] ] ].

(** ** The monad of the script: global state, exceptions, loop budget *)

Inductive result (A : Type) : Type :=
| Ok (a : A)
| TypeError
| OutOfFuel.
Arguments Ok {A} a.
Arguments TypeError {A}.
Arguments OutOfFuel {A}.

Definition M (A : Type) : Type := Game -> result (A * Game).

Definition ret {A : Type} (a : A) : M A := fun g => Ok (a, g).

Definition bind {A B : Type} (m : M A) (k : A -> M B) : M B :=
  fun g =>
    match m g with
    | Ok (a, g') => k a g'
    | TypeError => TypeError
    | OutOfFuel => OutOfFuel
    end.

Definition get : M Game := fun g => Ok (g, g).
Definition modify (f : Game -> Game) : M unit := fun g => Ok (tt, f g).
Definition throw {A : Type} : M A := fun _ => TypeError.
Definition out_of_fuel {A : Type} : M A := fun _ => OutOfFuel.

(** A pure computation that may raise, run without touching the globals. *)
Definition lift {A : Type} (r : result A) : M A :=
  fun g =>
    match r with
    | Ok a => Ok (a, g)
    | TypeError => TypeError
    | OutOfFuel => OutOfFuel
    end.

Notation "'do' x <- m ; k" := (bind m (fun x => k))
  (at level 10, x name, m at level 100, k at level 200).
Notation "m ;; k" := (bind m (fun _ => k))
  (at level 100, k at level 200, right associativity).

(** ** JavaScript values and array accesses *)

(** Truthiness of a board cell: [null] and [undefined] are falsy, a string
    is truthy unless it is empty. *)
Definition cell_truthy (c : cell) : bool :=
  match c with
  | Some s => negb (String.eqb s EmptyString)
  | None => false
  end.

(** Truthiness of a shape entry: a number is falsy exactly when it is [0]
    (a missing entry is [undefined], falsy too). *)
Definition value_truthy (v : Z) : bool := negb (v =? 0).

(** [a[i]] for an integer [i]: [None] stands for [undefined]. *)
Definition index {A : Type} (l : list A) (i : Z) : option A :=
  if i <? 0 then None else l !! Z.to_nat i.

(** [board[y][x]] read as a value: reading [board[y]] when it is
    [undefined] raises; a column outside the row reads [undefined]. *)
Definition board_get (b : Board) (y x : Z) : result cell :=
  match index b y with
  | None => TypeError
  | Some row => Ok (default None (index row x))
  end.

(** [row[x] = v]: inside the row the element is replaced; beyond its end
    JavaScript grows the array, the gap reading [undefined]; a negative [x]
    creates a property that is not an element, and no index read sees it. *)
Definition row_set (row : Row) (x : Z) (v : string) : Row :=
  if x <? 0 then row
  else if (Z.to_nat x <? length row)%nat then <[Z.to_nat x := Some v]> row
  else row ++ replicate (Z.to_nat x - length row)%nat None ++ [Some v].

(** [board[y][x] = v]: assigning into [undefined] raises. *)
Definition board_set (b : Board) (y x : Z) (v : string) : result Board :=
  match index b y with
  | None => TypeError
  | Some row => Ok (<[Z.to_nat y := row_set row x v]> b)
  end.

(** ** [collides] *)

(** The inner loop over the columns [c], [c+1], ... of one shape row.  The
    answer [true] is the [return true] of the script; [false] means that the
    loop ran to its end. *)
Fixpoint collides_cols (b : Board) (p : Piece.t) (offsetX offsetY : Z)
    (r c : Z) (row : list Z) : result bool :=
  match row with
  | [] => Ok false
  | v :: rest =>
    if negb (value_truthy v) then
      collides_cols b p offsetX offsetY r (c + 1) rest
    else
      let x := Piece.x p + c + offsetX in
      let y := Piece.y p + r + offsetY in
      if (x <? 0) || (x >=? COLS) || (y >=? ROWS) then Ok true
      else if y >=? 0 then
        match board_get b y x with
        | Ok v' =>
          if cell_truthy v' then Ok true
          else collides_cols b p offsetX offsetY r (c + 1) rest
        | TypeError => TypeError
        | OutOfFuel => OutOfFuel
        end
      else collides_cols b p offsetX offsetY r (c + 1) rest
  end.

(** The outer loop over the rows [r], [r+1], ... of the shape. *)
Fixpoint collides_rows (b : Board) (p : Piece.t) (offsetX offsetY : Z)
    (r : Z) (shape : Shape) : result bool :=
  match shape with
  | [] => Ok false
  | row :: rest =>
    match collides_cols b p offsetX offsetY r 0 row with
    | Ok true => Ok true
    | Ok false => collides_rows b p offsetX offsetY (r + 1) rest
    | TypeError => TypeError
    | OutOfFuel => OutOfFuel
    end
  end.

Definition collides (offsetX offsetY : Z) (rotationIndex : nat) : M bool :=
  do g <- get;
  match Piece.rotations (currentPiece g) !! rotationIndex with
  | None => throw
  | Some shape =>
    lift (collides_rows (board g) (currentPiece g) offsetX offsetY 0 shape)
  end.

(** ** Timers of the browser *)

Definition set_dropTimer (v : option nat) (g : Game) : Game :=
  mkGame (board g) (currentPiece g) v (dropInterval g) (score g)
         (linesCleared g) (isGameOver g) (timers g) (nextTimer g).
Definition set_timers (v : list (nat * Z)) (n : nat) (g : Game) : Game :=
  mkGame (board g) (currentPiece g) (dropTimer g) (dropInterval g) (score g)
         (linesCleared g) (isGameOver g) v n.

(** [setInterval(drop, period)]: a new timer with a fresh, positive handle. *)
Definition setInterval (period : Z) : M nat :=
  do g <- get;
  modify (set_timers ((S (nextTimer g), period) :: timers g) (S (nextTimer g)));;
  ret (S (nextTimer g)).

(** [clearInterval(h)]: cancels the timer [h]; [null] cancels nothing. *)
Definition clearInterval (h : option nat) : M unit :=
  match h with
  | None => ret tt
  | Some id =>
    modify (fun g =>
      set_timers (List.filter (fun t => negb (Nat.eqb (fst t) id)) (timers g))
                 (nextTimer g) g)
  end.

(** Truthiness of [dropTimer]: [null] and [0] are falsy. *)
Definition timer_truthy (h : option nat) : bool :=
  match h with
  | Some (S _) => true
  | _ => false
  end.

(** ** [randomPiece] *)

(** [index] is the value of [Math.floor(Math.random() * PIECES.length)]. *)
Definition randomPiece (index : nat) : M Piece.t :=
  match PIECES !! index with
  | None => throw
  | Some def =>
    match Def.rotations def with
    | (row0 :: _) :: _ =>
      ret (Piece.mk (Def.name def) (Def.rotations def) (Def.colour def) 0%nat
                    ((COLS - Z.of_nat (length row0)) `div` 2) (-1))
    | _ => throw
    end
  end.

(** ** [endGame] *)

Definition endGame : M unit :=
  modify (set_isGameOver true);;
  do g <- get;
  clearInterval (dropTimer g).

(** ** [clearLines] *)

(** The test of the inner loop: no column [0 <= col < COLS] of the row is
    falsy. *)
Definition row_full (row : Row) : bool :=
  forallb (fun col => cell_truthy (default None (row !! col)))
          (seq 0 (Z.to_nat COLS)).

(** [Array(COLS).fill(null)] *)
Definition empty_row : Row := replicate (Z.to_nat COLS) None.

(** The labelled loop, from the test [row >= 0] on.  A full row is spliced
    out and an empty one unshifted; [row++] followed by the [row--] of the
    loop header keeps the index. *)
Fixpoint clearLines_loop (fuel : nat) (b : Board) (row : Z)
    (linesThisTurn : nat) : result (Board * nat) :=
  match fuel with
  | O => OutOfFuel
  | S fuel' =>
    if row >=? 0 then
      match index b row with
      | None => TypeError
      | Some cells =>
        if row_full cells then
          clearLines_loop fuel' (empty_row :: delete (Z.to_nat row) b) row
                          (S linesThisTurn)
        else clearLines_loop fuel' b (row - 1) linesThisTurn
      end
    else Ok (b, linesThisTurn)
  end.

Definition lineScores : list Z := [0; 40; 100; 300; 1200].

(** [lineScores[n]], [undefined] turning the sum into [NaN]. *)
Definition lineScore (n : nat) : num :=
  match lineScores !! n with
  | Some v => Int v
  | None => NaN
  end.

Definition clearLines (fuel : nat) : M unit :=
  do g <- get;
  do res <- lift (clearLines_loop fuel (board g) (ROWS - 1) 0);
  modify (set_board (fst res));;
  let linesThisTurn := snd res in
  if (0 <? linesThisTurn)%nat then
    modify (fun g => set_score (num_add (score g) (lineScore linesThisTurn)) g);;
    modify (fun g => set_linesCleared (linesCleared g + Z.of_nat linesThisTurn) g);;
    do g <- get;
    if (Z.rem (linesCleared g) 10 =? 0) && (dropInterval g >? 200) then
      modify (set_dropInterval (dropInterval g - 100));;
      clearInterval (dropTimer g);;
      do h <- setInterval (dropInterval g - 100);
      modify (set_dropTimer (Some h))
    else ret tt
  else ret tt.

(** ** [placePiece] *)

(** [row.forEach((value, c) => ...)] from column [c] on. *)
Fixpoint placePiece_cols (p : Piece.t) (r c : Z) (row : list Z) (b : Board)
    : result Board :=
  match row with
  | [] => Ok b
  | value :: rest =>
    if value_truthy value then
      let x := Piece.x p + c in
      let y := Piece.y p + r in
      if y >=? 0 then
        match board_set b y x (Piece.colour p) with
        | Ok b' => placePiece_cols p r (c + 1) rest b'
        | TypeError => TypeError
        | OutOfFuel => OutOfFuel
        end
      else placePiece_cols p r (c + 1) rest b
    else placePiece_cols p r (c + 1) rest b
  end.

(** [shape.forEach((row, r) => ...)] from row [r] on. *)
Fixpoint placePiece_rows (p : Piece.t) (r : Z) (shape : Shape) (b : Board)
    : result Board :=
  match shape with
  | [] => Ok b
  | row :: rest =>
    match placePiece_cols p r 0 row b with
    | Ok b' => placePiece_rows p (r + 1) rest b'
    | TypeError => TypeError
    | OutOfFuel => OutOfFuel
    end
  end.

(** The first half of [placePiece]: the cells of the piece go to the board. *)
Definition lockCells : M unit :=
  do g <- get;
  let p := currentPiece g in
  match Piece.rotations p !! Piece.rotationIndex p with
  | None => throw
  | Some shape =>
    do b <- lift (placePiece_rows p 0 shape (board g));
    modify (set_board b)
  end.

(** The last half of [placePiece]: the spawn and the game-over test. *)
Definition spawn (index : nat) : M unit :=
  do p <- randomPiece index;
  modify (set_currentPiece p);;
  do c <- collides 0 0 (Piece.rotationIndex p);
  if c then endGame else ret tt.

Definition placePiece (fuel index : nat) : M unit :=
  lockCells;;
  clearLines fuel;;
  spawn index.

(** ** [resetGame] *)

Definition resetGame (index : nat) : M unit :=
  modify (set_board (replicate (Z.to_nat ROWS) empty_row));;
  modify (set_score (Int 0));;
  modify (set_linesCleared 0);;
  modify (set_dropInterval 1000);;
  modify (set_isGameOver false);;
  do p <- randomPiece index;
  modify (set_currentPiece p);;
  do g <- get;
  (if timer_truthy (dropTimer g) then clearInterval (dropTimer g) else ret tt);;
  do h <- setInterval 1000;
  modify (set_dropTimer (Some h)).

(** ** The commands *)

Definition move (dir : Z) : M unit :=
  do g <- get;
  do c <- collides dir 0 (Piece.rotationIndex (currentPiece g));
  if c then ret tt
  else modify (fun g => set_currentPiece
                 (Piece.set_x (Piece.x (currentPiece g) + dir) (currentPiece g)) g).

Definition kicks : list Z := [0; -1; 1; -2; 2].

(** [for (const offset of kicks)], from the given offsets on. *)
Fixpoint rotate_loop (nextRotation : nat) (offsets : list Z) : M unit :=
  match offsets with
  | [] => ret tt
  | offset :: rest =>
    do c <- collides offset 0 nextRotation;
    if c then rotate_loop nextRotation rest
    else
      modify (fun g => set_currentPiece
                (Piece.set_x (Piece.x (currentPiece g) + offset) (currentPiece g)) g);;
      modify (fun g => set_currentPiece
                (Piece.set_rotationIndex nextRotation (currentPiece g)) g)
  end.

(** [(rotationIndex + 1) % rotations.length]; with no rotation state the
    remainder is [NaN], and [rotations[NaN]] is [undefined]: the first call
    of [collides] raises. *)
Definition rotate : M unit :=
  do g <- get;
  let p := currentPiece g in
  match length (Piece.rotations p) with
  | O => throw
  | S _ =>
    rotate_loop ((Piece.rotationIndex p + 1) `mod` length (Piece.rotations p))%nat
                kicks
  end.

(** The body shared by [drop] and [softDrop]. *)
Definition fall (fuel index : nat) : M unit :=
  do g <- get;
  do c <- collides 0 1 (Piece.rotationIndex (currentPiece g));
  if c then placePiece fuel index
  else modify (fun g => set_currentPiece
                 (Piece.set_y (Piece.y (currentPiece g) + 1) (currentPiece g)) g).

Definition softDrop (fuel index : nat) : M unit := fall fuel index.

Definition drop (fuel index : nat) : M unit :=
  do g <- get;
  if isGameOver g then ret tt else fall fuel index.

(** [while (!collides(0, dy + 1, rotationIndex)) dy++], giving the final
    [dy]. *)
Fixpoint hardDrop_loop (fuel : nat) (dy : Z) : M Z :=
  match fuel with
  | O => out_of_fuel
  | S fuel' =>
    do g <- get;
    do c <- collides 0 (dy + 1) (Piece.rotationIndex (currentPiece g));
    if c then ret dy else hardDrop_loop fuel' (dy + 1)
  end.

Definition hardDrop (fuel index : nat) : M unit :=
  do dy <- hardDrop_loop fuel 0;
  modify (fun g => set_currentPiece
            (Piece.set_y (Piece.y (currentPiece g) + dy) (currentPiece g)) g);;
  placePiece fuel index.

(** The [keydown] listener. *)
Inductive key : Type :=
| ArrowLeft | KeyA | ArrowRight | KeyD | ArrowUp | KeyW | ArrowDown | KeyS
| Space | OtherKey.

Definition keydown (fuel index : nat) (k : key) : M unit :=
  do g <- get;
  if isGameOver g then ret tt
  else
    match k with
    | ArrowLeft | KeyA => move (-1)
    | ArrowRight | KeyD => move 1
    | ArrowUp | KeyW => rotate
    | ArrowDown | KeyS => softDrop fuel index
    | Space => hardDrop fuel index
    | OtherKey => ret tt
    end.

(** * Vocabulary of the specification *)

(** A board of the session: [ROWS] rows of [COLS] cells. *)
Definition wf_board (b : Board) : Prop :=
  length b = Z.to_nat ROWS /\
  Forall (fun row : Row => length row = Z.to_nat COLS) b.

(** [(r, c)] is an occupied cell of the rotation state [shape]. *)
Definition occupied (shape : Shape) (r c : nat) : Prop :=
  exists (row : list Z) (v : Z),
    shape !! r = Some row /\ row !! c = Some v /\ value_truthy v = true.

(** The board holds a block at column [x] of row [y]. *)
Definition board_occupied (b : Board) (y x : Z) : Prop :=
  exists (row : Row) (v : cell),
    index b y = Some row /\ index row x = Some v /\ cell_truthy v = true.

(** The three conditions of the collision test for a cell at [(x, y)]:
    horizontal bound, lower bound, occupancy (from row [0] on only). *)
Definition cell_violates (b : Board) (x y : Z) : Prop :=
  (x < 0 \/ COLS <= x) \/ ROWS <= y \/ (0 <= y /\ board_occupied b y x).

(** Some occupied cell of [shape], placed at the anchor of [p] moved by
    [(offsetX, offsetY)], violates a condition. *)
Definition placement_violates (b : Board) (p : Piece.t) (offsetX offsetY : Z)
    (shape : Shape) : Prop :=
  exists r c : nat,
    occupied shape r c /\
    cell_violates b (Piece.x p + Z.of_nat c + offsetX)
                    (Piece.y p + Z.of_nat r + offsetY).

(** The full rows of a board, and the rows that stay, both in board order. *)
Definition full_rows (b : Board) : list Row := List.filter row_full b.
Definition kept_rows (b : Board) : list Row :=
  List.filter (fun row => negb (row_full row)) b.

(** The active piece is a catalog variant in one of its rotation states. *)
Definition piece_ok (p : Piece.t) : Prop :=
  (exists def : Def.t,
     def ∈ PIECES /\
     Piece.name p = Def.name def /\
     Piece.rotations p = Def.rotations def /\
     Piece.colour p = Def.colour def) /\
  (Piece.rotationIndex p < length (Piece.rotations p))%nat.

(** Every occupied cell of the active piece, in its current rotation state
    and at its current anchor, is inside the side walls and above the floor. *)
Definition cells_in_bounds (p : Piece.t) : Prop :=
  forall (shape : Shape) (r c : nat),
    Piece.rotations p !! Piece.rotationIndex p = Some shape ->
    occupied shape r c ->
    0 <= Piece.x p + Z.of_nat c < COLS /\ Piece.y p + Z.of_nat r < ROWS.

(** What the session maintains: a board of the right size, an active piece
    from the catalog whose cells are in bounds, spawned at row [-1] and never
    moved up. *)
Definition Inv (g : Game) : Prop :=
  wf_board (board g) /\
  piece_ok (currentPiece g) /\
  cells_in_bounds (currentPiece g) /\
  -1 <= Piece.y (currentPiece g).

(** The value read at [board[y][x]], [None] for [null] and [undefined]. *)
Definition cell_at (b : Board) (y x : Z) : option string :=
  match index b y with
  | Some row => default None (index row x)
  | None => None
  end.

(** The rotation state has an occupied cell. *)
Definition has_cell (shape : Shape) : bool :=
  existsb (fun row => existsb value_truthy row) shape.

(** The board of a new session. *)
Definition empty_board : list (list (option string)) :=
  replicate (Z.to_nat ROWS) empty_row.

(** The board cells a lock writes: the cells of the piece in the rotation
    state [shape] that are on the board (row [0] or below it). *)
Definition written (p : Piece.t) (shape : Shape) (y x : Z) : Prop :=
  0 <= y /\
  exists r c : nat,
    occupied shape r c /\
    y = Piece.y p + Z.of_nat r /\ x = Piece.x p + Z.of_nat c.

(** The session has no full row on its board between two locks, and its
    score is a number. *)
Definition Tidy (g : Game) : Prop :=
  full_rows (board g) = [] /\
  (exists s : Z, score g = Int s /\ 0 <= s) /\
  0 <= linesCleared g.

(** ** Operations of a session *)

Inductive op : Type :=
| OpMove (dir : Z)
| OpRotate
| OpSoftDrop (index : nat)
| OpHardDrop (index : nat)
| OpTick (index : nat)
| OpLock (index : nat)
| OpKey (index : nat) (k : key).

(** The random index an operation may consume is an index of [PIECES]. *)
Definition op_ok (o : op) : Prop :=
  match o with
  | OpMove _ | OpRotate => True
  | OpSoftDrop index | OpHardDrop index | OpTick index | OpLock index
  | OpKey index _ => (index < length PIECES)%nat
  end.

Definition exec (fuel : nat) (o : op) : M unit :=
  match o with
  | OpMove dir => move dir
  | OpRotate => rotate
  | OpSoftDrop index => softDrop fuel index
  | OpHardDrop index => hardDrop fuel index
  | OpTick index => drop fuel index
  | OpLock index => placePiece fuel index
  | OpKey index k => keydown fuel index k
  end.

(** One operation of a running session, and any number of them. *)
Definition step (g g' : Game) : Prop :=
  exists (fuel : nat) (o : op), op_ok o /\ exec fuel o g = Ok (tt, g').

Inductive steps : Game -> Game -> Prop :=
| steps_refl (g : Game) : steps g g
| steps_step (g1 g2 g3 : Game) : steps g1 g2 -> step g2 g3 -> steps g1 g3.

(** A session is fresh after [resetGame], whatever the globals were. *)
Definition fresh (g : Game) : Prop :=
  exists (g0 : Game) (index : nat),
    (index < length PIECES)%nat /\ resetGame index g0 = Ok (tt, g).

Definition reachable (g : Game) : Prop :=
  exists g1 : Game, fresh g1 /\ steps g1 g.

(** A loop budget that is enough on a board of [ROWS] rows. *)
Definition enough_fuel : nat := Z.to_nat (2 * ROWS + 1).

(** ** States used as examples *)

(** The globals when the script is loaded, before the first [resetGame]:
    no timer runs; [board] and [currentPiece] are not assigned yet (an empty
    board and a piece without rotation states stand for [undefined]). *)
Definition loaded : Game :=
  mkGame [] (Piece.mk EmptyString [] EmptyString 0%nat 0 0) None 1000 (Int 0) 0
         false [] 0%nat.

(** The state a computation ends in ([loaded] if it does not end). *)
Definition final (r : result (unit * Game)) : Game :=
  match r with
  | Ok (_, g) => g
  | _ => loaded
  end.

(** The session after the first [resetGame] drew the variant [index]. *)
Definition start (index : nat) : Game := final (resetGame index loaded).

(** A row of [COLS] blocks, and the session [start 3] with such rows as the
    two bottom rows of its board. *)
Definition block_row : list (option string) :=
  replicate (Z.to_nat COLS) (Some "#e9c46a"%string).

Definition two_full_rows : Game :=
  set_board (replicate 18 empty_row ++ [block_row; block_row]) (start 3).

(** The index [rotate] tries to switch to. *)
Definition nextRotation_of (p : Piece.t) : nat :=
  ((Piece.rotationIndex p + 1) `mod` length (Piece.rotations p))%nat.

(** All five kick offsets collide at the next rotation state. *)
Definition all_kicks_collide (g : Game) : Prop :=
  Forall (fun offset =>
            collides offset 0 (nextRotation_of (currentPiece g)) g = Ok (true, g))
         kicks.

(** The sentence of the specification on failed rotations, read literally:
    [rotate] leaves the piece as it was if and only if all five kick
    offsets collide. *)
Definition rotate_unchanged_iff_all_collide (g : Game) : Prop :=
  forall g' : Game,
    rotate g = Ok (tt, g') ->
    (currentPiece g' = currentPiece g <-> all_kicks_collide g).

(** A sequence of operations, run one after the other. *)
Fixpoint run (fuel : nat) (ops : list op) : M unit :=
  match ops with
  | [] => ret tt
  | o :: rest => exec fuel o ;; run fuel rest
  end.

(** A session after some play: the I piece is moved to the left wall,
    rotated, and dropped. *)
Definition some_play : list op :=
  [OpMove (-1); OpMove (-1); OpMove (-1); OpMove (-1); OpRotate;
   OpTick 1%nat; OpHardDrop 3%nat; OpKey 2%nat ArrowUp].

Definition played : Game := final (run enough_fuel some_play (start 0)).

(** How the drop interval may differ between two states: not at all, or
    by one speed-up of 100 from above the floor of 200, with the line count
    grown to a multiple of 10. *)
Definition interval_change (g g' : Game) : Prop :=
  (dropInterval g' = dropInterval g /\ linesCleared g <= linesCleared g') \/
  (dropInterval g' = dropInterval g - 100 /\
   200 < dropInterval g /\
   Z.rem (linesCleared g') 10 = 0 /\
   linesCleared g < linesCleared g').

(** The values the drop interval can take. *)
Definition intervals : list Z :=
  [1000; 900; 800; 700; 600; 500; 400; 300; 200].

(** Eight lines cleared so far and two full rows on the board: the next
    [clearLines] reaches ten lines. *)
Definition near_speedup : Game := set_linesCleared 8 two_full_rows.

Definition after_speedup : Game := final (clearLines enough_fuel near_speedup).

(** The board of the scenario after the hard drop of the O piece: its four
    cells in rows 18 and 19, columns 4 and 5. *)
Definition o_cells_row : list (option string) :=
  [None; None; None; None; Some "#e9c46a"%string; Some "#e9c46a"%string;
   None; None; None; None].

Definition o_landed_board : list (list (option string)) :=
  replicate 18 empty_row ++ [o_cells_row; o_cells_row].

(** The O piece locked where it spawned, on the empty board. *)
Definition locked_at_spawn : Game := final (placePiece enough_fuel 3 (start 3)).

(** ** The classification of the catalog in the specification *)

(** A matrix of [n] rows of [n] entries. *)
Definition square (n : nat) (shape : Shape) : bool :=
  (length shape =? n)%nat && forallb (fun row => (length row =? n)%nat) shape.

(** The dimension the specification assigns to a variant from the number
    of its rotation states: 4 for two states, 3 for four states, 2 for a
    single state. *)
Definition classified_dimension (states : nat) : option nat :=
  match states with
  | 2%nat => Some 4%nat
  | 4%nat => Some 3%nat
  | 1%nat => Some 2%nat
  | _ => None
  end.

Definition matches_classification (def : Def.t) : bool :=
  match classified_dimension (length (Def.rotations def)) with
  | Some n => forallb (square n) (Def.rotations def)
  | None => false
  end.

(** Name, number of rotation states and matrix dimension of each variant,
    as the catalog has them. *)
Definition catalog_table : list (string * nat * nat) :=
  [("I"%string, 2%nat, 4%nat); ("J"%string, 4%nat, 3%nat);
   ("L"%string, 4%nat, 3%nat); ("O"%string, 1%nat, 2%nat);
   ("S"%string, 2%nat, 3%nat); ("T"%string, 4%nat, 3%nat);
   ("Z"%string, 2%nat, 3%nat)].

(** The variant has the name, the number of states and the dimension of the
    table entry, and each of its rotation states is a square matrix of this
    dimension. *)
Definition matches_entry (def : Def.t) (entry : string * nat * nat) : bool :=
  let '(name, states, n) := entry in
  String.eqb (Def.name def) name &&
  (length (Def.rotations def) =? states)%nat &&
  forallb (square n) (Def.rotations def).

(** ** The entry points of the page *)

(** What the browser delivers: a key press, a tick of the interval timer,
    a click on the start button.  The index is the variant [Math.random]
    selects if the handler spawns a piece. *)
Inductive event : Type :=
| EvKey (index : nat) (k : key)
| EvTick (index : nat)
| EvStart (index : nat).

Definition event_index (e : event) : nat :=
  match e with
  | EvKey index _ | EvTick index | EvStart index => index
  end.

Definition handle (fuel : nat) (e : event) : M unit :=
  match e with
  | EvKey index k => keydown fuel index k
  | EvTick index => drop fuel index
  | EvStart index => resetGame index
  end.

(** The states of the page: the script ends with a call of [resetGame],
    and then handles events. *)
Inductive session : Game -> Prop :=
| session_load (index : nat) (g : Game) :
    (index < length PIECES)%nat ->
    resetGame index loaded = Ok (tt, g) ->
    session g
| session_event (fuel : nat) (e : event) (g g' : Game) :
    session g ->
    (event_index e < length PIECES)%nat ->
    handle fuel e g = Ok (tt, g') ->
    session g'.

(** While the game runs, the active piece does not collide where it is. *)
Definition Safe (g : Game) : Prop :=
  isGameOver g = false ->
  collides 0 0 (Piece.rotationIndex (currentPiece g)) g = Ok (false, g).

(** A sequence of events, handled one after the other. *)
Fixpoint run_events (fuel : nat) (es : list event) : M unit :=
  match es with
  | [] => ret tt
  | e :: rest => handle fuel e ;; run_events fuel rest
  end.

(** A page after some events: the I piece is moved left, falls one row,
    is rotated and dropped; the next piece (J) is rotated. *)
Definition some_events : list event :=
  [EvKey 1%nat ArrowLeft; EvTick 1%nat; EvKey 1%nat KeyW; EvKey 1%nat Space;
   EvKey 2%nat ArrowUp].

Definition page_played : Game :=
  final (run_events enough_fuel some_events (start 0)).

(** The page after one more key press, Space. *)
Definition page_dropped : Game :=
  final (handle enough_fuel (EvKey 3%nat Space) page_played).

(** [m], run [n] times in a row. *)
Fixpoint times (n : nat) (m : M unit) : M unit :=
  match n with
  | O => ret tt
  | S k => m ;; times k m
  end.

(** The state [g] with the active piece [d] rows further down. *)
Definition lowered (d : Z) (g : Game) : Game :=
  set_currentPiece
    (Piece.set_y (Piece.y (currentPiece g) + d) (currentPiece g)) g.

(** The state [g] with the active piece in the rotation state [rot]. *)
Definition turned (rot : nat) (g : Game) : Game :=
  set_currentPiece (Piece.set_rotationIndex rot (currentPiece g)) g.

(** A board cell is empty or holds the colour of a variant of the catalog. *)
Definition catalog_cell (v : option string) : Prop :=
  v = None \/ exists def : Def.t, def ∈ PIECES /\ v = Some (Def.colour def).

(** While the game runs exactly one interval timer is active: the one in
    [dropTimer], with the period [dropInterval]; once the game is over none
    is. *)
Definition Timed (g : Game) : Prop :=
  if isGameOver g then timers g = []
  else exists n : nat,
         dropTimer g = Some (S n) /\ timers g = [(S n, dropInterval g)].

(** Ten O pieces dropped one on the other fill columns 4 and 5: the game
    is over. *)
Definition page_over : Game :=
  final (run_events enough_fuel (replicate 10 (EvKey 3%nat Space)) (start 3)).

(** ** Colour strings: [hexToRgb] and [rgbToHex] *)

(** A string is its sequence of code units; the model covers the code
    units below 256.  The result of [parseInt] is a number of JavaScript:
    an integer that a double represents, [NaN], or an infinity. *)
Inductive jsnumber : Type :=
| Finite (z : Z)
| NotANumber
| Infinite (negative : bool).

(** The white space and line terminators that [parseInt] skips, among the
    code units below 256: TAB, LF, VT, FF, CR, SP, NBSP. *)
Definition is_space (c : ascii) : bool :=
  existsb (Nat.eqb (nat_of_ascii c)) [9; 10; 11; 12; 13; 32; 160]%nat.

Fixpoint trim_start (s : string) : string :=
  match s with
  | EmptyString => EmptyString
  | String c rest => if is_space c then trim_start rest else s
  end.

(** The value of a digit of radix 16, upper or lower case. *)
Definition hex_digit_value (c : ascii) : option Z :=
  let n := Z.of_nat (nat_of_ascii c) in
  if (48 <=? n) && (n <=? 57) then Some (n - 48)
  else if (97 <=? n) && (n <=? 102) then Some (n - 87)
  else if (65 <=? n) && (n <=? 70) then Some (n - 55)
  else None.

(** The value of the longest prefix of digits, after the digits [acc]. *)
Fixpoint hex_prefix_value (s : string) (acc : Z) : Z :=
  match s with
  | EmptyString => acc
  | String c rest =>
    match hex_digit_value c with
    | Some d => hex_prefix_value rest (16 * acc + d)
    | None => acc
    end
  end.

Definition starts_with_hex_digit (s : string) : bool :=
  match s with
  | EmptyString => false
  | String c _ =>
    match hex_digit_value c with
    | Some _ => true
    | None => false
    end
  end.

(** The Number value for an integer: the nearest double, ties to the even
    significand, an infinity from [2^1024] on. *)
Definition to_number (z : Z) : jsnumber :=
  let a := Z.abs z in
  if a <? 2 ^ 53 then Finite z
  else
    let e := Z.log2 a - 52 in
    let m := Z.shiftr a e in
    let rest := a - Z.shiftl m e in
    let half := Z.shiftl 1 (e - 1) in
    let m' := if rest <? half then m
              else if half <? rest then m + 1
              else if Z.even m then m else m + 1 in
    let v := Z.shiftl m' e in
    if 2 ^ 1024 <=? v then Infinite (z <? 0)
    else Finite (if z <? 0 then - v else v).

(** [parseInt(s, 16)]: leading white space, a sign, a prefix [0x] or [0X],
    then the longest run of digits; [NaN] when there is no digit. *)
Definition parseInt16 (s : string) : jsnumber :=
  let s1 := trim_start s in
  let negative :=
    match s1 with
    | String c _ => Ascii.eqb c "-"
    | EmptyString => false
    end in
  let s2 :=
    match s1 with
    | String c rest => if Ascii.eqb c "-" || Ascii.eqb c "+" then rest else s1
    | EmptyString => s1
    end in
  let s3 :=
    match s2 with
    | String c1 (String c2 rest) =>
      if Ascii.eqb c1 "0" && (Ascii.eqb c2 "x" || Ascii.eqb c2 "X")
      then rest else s2
    | _ => s2
    end in
  if starts_with_hex_digit s3 then
    to_number (if negative then - hex_prefix_value s3 0
               else hex_prefix_value s3 0)
  else NotANumber.

(** [ToInt32], applied by [>>] and [&]: [NaN] and the infinities give [0],
    an integer is taken modulo [2^32] into [-2^31 .. 2^31 - 1]. *)
Definition ToInt32 (n : jsnumber) : Z :=
  match n with
  | Finite z =>
    let m := z mod 2 ^ 32 in
    if 2 ^ 31 <=? m then m - 2 ^ 32 else m
  | _ => 0
  end.

(** [s.replace('#', '')]: the first ['#'] goes. *)
Fixpoint remove_first_hash (s : string) : string :=
  match s with
  | EmptyString => EmptyString
  | String c rest =>
    if Ascii.eqb c "#" then rest else String c (remove_first_hash rest)
  end.

(** The object [{ r, g, b }]. *)
Module Rgb.
Record t : Type := mk { r : Z; g : Z; b : Z }.
End Rgb.

Definition hexToRgb (hex : string) : Rgb.t :=
  let clean := remove_first_hash hex in
  let bigint := parseInt16 clean in
  Rgb.mk (Z.land (Z.shiftr (ToInt32 bigint) 16) 255)
         (Z.land (Z.shiftr (ToInt32 bigint) 8) 255)
         (Z.land (ToInt32 bigint) 255).

(** The digit of radix 16 for a value from 0 to 15, lower case. *)
Definition hex_char (v : Z) : ascii :=
  ascii_of_nat (Z.to_nat (if v <? 10 then 48 + v else 87 + v)).

(** The digits of [n > 0] in radix 16 before [acc], most significant
    first; [fuel] bounds their number. *)
Fixpoint digits16 (fuel : nat) (n : Z) (acc : string) : string :=
  match fuel with
  | O => acc
  | S fuel' =>
    let acc' := String (hex_char (n mod 16)) acc in
    if n / 16 =? 0 then acc' else digits16 fuel' (n / 16) acc'
  end.

(** [c.toString(16)] for a number [c] that is an integer. *)
Definition toString16 (c : Z) : string :=
  let fuel := S (Z.to_nat (Z.log2 (Z.abs c))) in
  if c <? 0 then String "-" (digits16 fuel (- c) EmptyString)
  else digits16 fuel c EmptyString.

(** The helper [toHex] of [rgbToHex]. *)
Definition toHex (c : Z) : string :=
  let hex := toString16 c in
  if (String.length hex =? 1)%nat then String "0" hex else hex.

Definition rgbToHex (r g b : Z) : string :=
  String "#" (toHex r ++ toHex g ++ toHex b)%string.

(** A digit of radix 16 in lower case. *)
Definition lower_hex (c : ascii) : Prop :=
  exists v : Z, 0 <= v < 16 /\ c = hex_char v.

(** A colour string [#rrggbb] in lower case. *)
Definition well_formed_colour (s : string) : Prop :=
  exists c1 c2 c3 c4 c5 c6 : ascii,
    lower_hex c1 /\ lower_hex c2 /\ lower_hex c3 /\
    lower_hex c4 /\ lower_hex c5 /\ lower_hex c6 /\
    s = String "#" (String c1 (String c2 (String c3 (String c4
          (String c5 (String c6 EmptyString)))))).

(** ** [draw] *)

(** [draw] clears the canvas and calls [drawCell(col, row, colour)] for the
    blocks of the board, row by row, and then for the cells of the active
    piece that are on the board.  The canvas is not modelled: the result of
    [draw] is the list of these calls, in order. *)
Definition draw_row (cells : list (option string)) (r : Z)
    : list (Z * Z * string) :=
  flat_map
    (fun c : nat =>
       match default None (cells !! c) with
       | Some colour =>
         if cell_truthy (Some colour) then [(Z.of_nat c, r, colour)] else []
       | None => []
       end)
    (seq 0 (Z.to_nat COLS)).

(** The rows [r], [r + 1], ... of the first loop; [board[r]] must exist. *)
Fixpoint draw_board (b : Board) (rows : list nat) : result (list (Z * Z * string)) :=
  match rows with
  | [] => Ok []
  | r :: rest =>
    match b !! r with
    | None => TypeError
    | Some cells =>
      match draw_board b rest with
      | Ok calls => Ok (draw_row cells (Z.of_nat r) ++ calls)
      | TypeError => TypeError
      | OutOfFuel => OutOfFuel
      end
    end
  end.

Fixpoint draw_piece_cols (p : Piece.t) (r c : Z) (row : list Z)
    : list (Z * Z * string) :=
  match row with
  | [] => []
  | v :: rest =>
    let x := Piece.x p + c in
    let y := Piece.y p + r in
    (if value_truthy v && (y >=? 0) then [(x, y, Piece.colour p)] else [])
    ++ draw_piece_cols p r (c + 1) rest
  end.

Fixpoint draw_piece_rows (p : Piece.t) (r : Z) (shape : Shape)
    : list (Z * Z * string) :=
  match shape with
  | [] => []
  | row :: rest => draw_piece_cols p r 0 row ++ draw_piece_rows p (r + 1) rest
  end.

Definition draw : M (list (Z * Z * string)) :=
  do g <- get;
  do blocks <- lift (draw_board (board g) (seq 0 (Z.to_nat ROWS)));
  match Piece.rotations (currentPiece g) !! Piece.rotationIndex (currentPiece g) with
  | None => throw
  | Some shape => ret (blocks ++ draw_piece_rows (currentPiece g) 0 shape)
  end.

(** ** Shades of a colour: [lightenColor] and [darkenColor] *)

(** The arithmetic of the two functions is that of doubles.  A channel of
    [hexToRgb] is an integer from 0 to 255, which a double holds exactly. *)
Definition channel_number (c : Z) : float := PrimFloat.of_uint63 (Uint63.of_Z c).

(** [Math.round]: the nearest integer, the one towards plus infinity when
    two are equally near; [NaN] and the infinities are returned as they
    are.  The zero [-0] that it gives from [-0.5] to [-0] reads [0] in
    [toString]. *)
Definition Math_round (x : float) : jsnumber :=
  match Prim2SF x with
  | S754_zero _ => Finite 0
  | S754_infinity negative => Infinite negative
  | S754_nan => NotANumber
  | S754_finite negative m e =>
    let num := if negative then Z.neg m else Z.pos m in
    Finite (if 0 <=? e then num * 2 ^ e
            else (2 * num + 2 ^ (- e)) / 2 ^ (1 - e))
  end.

(** [c.toString(16)] and [rgbToHex] for arguments that are any numbers, as
    [Math.round] returns them. *)
Definition number_toString16 (c : jsnumber) : string :=
  match c with
  | Finite z => toString16 z
  | NotANumber => "NaN"
  | Infinite false => "Infinity"
  | Infinite true => "-Infinity"
  end.

Definition number_toHex (c : jsnumber) : string :=
  let hex := number_toString16 c in
  if (String.length hex =? 1)%nat then String "0" hex else hex.

Definition number_rgbToHex (r g b : jsnumber) : string :=
  String "#" (number_toHex r ++ number_toHex g ++ number_toHex b)%string.

Definition lightenColor (color : string) (percent : float) : string :=
  let c := hexToRgb color in
  let lighten (v : Z) : jsnumber :=
    Math_round (channel_number v + (255 - channel_number v) * percent)%float in
  number_rgbToHex (lighten (Rgb.r c)) (lighten (Rgb.g c)) (lighten (Rgb.b c)).

Definition darkenColor (color : string) (percent : float) : string :=
  let c := hexToRgb color in
  let darken (v : Z) : jsnumber :=
    Math_round (channel_number v * (1 - percent))%float in
  number_rgbToHex (darken (Rgb.r c)) (darken (Rgb.g c)) (darken (Rgb.b c)).

(** The percentages that [drawCell] passes: [0.25] for the two ends of the
    gradient, [0.4] for the border.  [0.4] is the double nearest to it. *)
Definition gradient_percent : float := 0x1p-2%float.
Definition border_percent : float := 0x1.999999999999ap-2%float.

(** Each channel of [a] is at most the same channel of [b]. *)
Definition no_lighter (a b : Rgb.t) : Prop :=
  Rgb.r a <= Rgb.r b /\ Rgb.g a <= Rgb.g b /\ Rgb.b a <= Rgb.b b.

(** Equality of two numbers, [NaN] taken as equal to itself. *)
Definition number_eqb (a b : jsnumber) : bool :=
  match a, b with
  | Finite x, Finite y => x =? y
  | NotANumber, NotANumber => true
  | Infinite s, Infinite t => Bool.eqb s t
  | _, _ => false
  end.

(** The shades of the channel [v] are integers in the order border, dark,
    [v], light, from 0 to 255. *)
Definition shades_ordered (v : Z) (light dark border : jsnumber) : bool :=
  match light, dark, border with
  | Finite l, Finite d, Finite b =>
    (0 <=? b) && (b <=? d) && (d <=? v) && (v <=? l) && (l <=? 255)
  | _, _, _ => false
  end.

(** * Properties *)

(** ** Running the monad *)

Lemma bind_Ok {A B : Type} (m : M A) (k : A -> M B) (g g' : Game) (a : A) :
  m g = Ok (a, g') -> bind m k g = k a g'.
Proof. unfold bind. intros ->. reflexivity. Qed.

Lemma bind_inv {A B : Type} (m : M A) (k : A -> M B) (g g2 : Game) (b : B) :
  bind m k g = Ok (b, g2) ->
  exists a g1, m g = Ok (a, g1) /\ k a g1 = Ok (b, g2).
Proof.
  unfold bind. destruct (m g) as [[a g1]| |]; try discriminate.
  intros H. exists a, g1. split; [reflexivity | exact H].
Qed.

(** ** Array accesses *)

Lemma index_Some {A : Type} (l : list A) (i : Z) :
  0 <= i < Z.of_nat (length l) -> exists a, index l i = Some a.
Proof.
  intros [H0 H1]. unfold index.
  destruct (i <? 0) eqn:E; [apply Z.ltb_lt in E; lia |].
  destruct (lookup_lt_is_Some_2 l (Z.to_nat i)) as [a Ha]; [lia |].
  exists a. exact Ha.
Qed.

Lemma index_of_nat {A : Type} (l : list A) (n : nat) :
  index l (Z.of_nat n) = l !! n.
Proof.
  unfold index. destruct (Z.of_nat n <? 0) eqn:E.
  - apply Z.ltb_lt in E. lia.
  - rewrite Nat2Z.id. reflexivity.
Qed.

Lemma wf_board_index (b : Board) (y : Z) :
  wf_board b -> 0 <= y < ROWS ->
  exists row, index b y = Some row /\ length row = Z.to_nat COLS.
Proof.
  intros [Hlen Hrows] Hy.
  destruct (index_Some b y) as [row Hrow].
  { rewrite Hlen. unfold ROWS in *. lia. }
  exists row. split; [exact Hrow |].
  unfold index in Hrow. destruct (y <? 0); [discriminate |].
  rewrite Forall_lookup in Hrows. exact (Hrows _ _ Hrow).
Qed.

(** ** The collision predicate *)

Lemma board_get_truthy (b : Board) (y x : Z) (row : Row) :
  index b y = Some row ->
  board_get b y x = Ok (default None (index row x)) /\
  (cell_truthy (default None (index row x)) = true <-> board_occupied b y x).
Proof.
  intros Hrow. unfold board_get. rewrite Hrow. split; [reflexivity |].
  unfold board_occupied. split.
  - intros Ht. destruct (index row x) as [v|] eqn:Hv; [| discriminate].
    exists row, v. auto.
  - intros (row' & v & Hrow' & Hv & Ht).
    rewrite Hrow in Hrow'. injection Hrow' as <-. rewrite Hv. exact Ht.
Qed.

Lemma collides_cols_spec (b : Board) (p : Piece.t) (offsetX offsetY : Z)
    (r : Z) (row : list Z) :
  wf_board b ->
  forall c0 : nat,
  exists res : bool,
    collides_cols b p offsetX offsetY r (Z.of_nat c0) row = Ok res /\
    (res = true <->
     exists (c : nat) (v : Z),
       row !! c = Some v /\ value_truthy v = true /\
       cell_violates b (Piece.x p + Z.of_nat (c0 + c) + offsetX)
                       (Piece.y p + r + offsetY)).
Proof.
  intros Hwf. induction row as [|v rest IH]; intros c0.
  - exists false. split; [reflexivity |].
    split; [discriminate |]. intros (c & w & Hc & _). discriminate.
  - cbn [collides_cols].
    replace (Z.of_nat c0 + 1) with (Z.of_nat (S c0)) by lia.
    destruct (IH (S c0)) as (res & Hres & Hiff).
    assert (Hrest : (exists (c : nat) (w : Z),
               rest !! c = Some w /\ value_truthy w = true /\
               cell_violates b (Piece.x p + Z.of_nat (S c0 + c) + offsetX)
                               (Piece.y p + r + offsetY)) ->
             exists (c : nat) (w : Z),
               (v :: rest) !! c = Some w /\ value_truthy w = true /\
               cell_violates b (Piece.x p + Z.of_nat (c0 + c) + offsetX)
                               (Piece.y p + r + offsetY)).
    { intros (c & w & Hc & Hw & Hv). exists (S c), w.
      replace (c0 + S c)%nat with (S c0 + c)%nat by lia. auto. }
    assert (Hskip : ~ (value_truthy v = true /\
               cell_violates b (Piece.x p + Z.of_nat c0 + offsetX)
                               (Piece.y p + r + offsetY)) ->
             (exists (c : nat) (w : Z),
               (v :: rest) !! c = Some w /\ value_truthy w = true /\
               cell_violates b (Piece.x p + Z.of_nat (c0 + c) + offsetX)
                               (Piece.y p + r + offsetY)) ->
             exists (c : nat) (w : Z),
               rest !! c = Some w /\ value_truthy w = true /\
               cell_violates b (Piece.x p + Z.of_nat (S c0 + c) + offsetX)
                               (Piece.y p + r + offsetY)).
    { intros Hno (c & w & Hc & Hw & Hv). destruct c as [|c].
      - injection Hc as <-. exfalso. apply Hno.
        replace (c0 + 0)%nat with c0 in Hv by lia. auto.
      - exists c, w. replace (S c0 + c)%nat with (c0 + S c)%nat by lia. auto. }
    assert (Hhere : value_truthy v = true ->
               cell_violates b (Piece.x p + Z.of_nat c0 + offsetX)
                               (Piece.y p + r + offsetY) ->
             exists (c : nat) (w : Z),
               (v :: rest) !! c = Some w /\ value_truthy w = true /\
               cell_violates b (Piece.x p + Z.of_nat (c0 + c) + offsetX)
                               (Piece.y p + r + offsetY)).
    { intros Hv Hc. exists 0%nat, v.
      replace (c0 + 0)%nat with c0 by lia. auto. }
    destruct (value_truthy v) eqn:Hv; cbn [negb].
    2: { exists res. split; [exact Hres |]. rewrite Hiff. split; [exact Hrest |].
         apply Hskip. intros [Hf _]. discriminate. }
    set (x := Piece.x p + Z.of_nat c0 + offsetX) in *.
    set (y := Piece.y p + r + offsetY) in *.
    destruct ((x <? 0) || (x >=? COLS) || (y >=? ROWS)) eqn:Hout.
    { exists true. split; [reflexivity |]. split; [| reflexivity].
      intros _. apply Hhere; [reflexivity |]. unfold cell_violates.
      rewrite !orb_true_iff in Hout. lia. }
    rewrite !orb_false_iff in Hout. destruct Hout as [[Hx0 Hx1] Hy1].
    destruct (y >=? 0) eqn:Hy0.
    + destruct (wf_board_index b y Hwf) as (cells & Hcells & _); [lia |].
      destruct (board_get_truthy b y x cells Hcells) as [-> Hocc].
      destruct (cell_truthy (default None (index cells x))) eqn:Ht.
      * exists true. split; [reflexivity |]. split; [| reflexivity].
        intros _. apply Hhere; [reflexivity |]. unfold cell_violates.
        right. right. split; [lia |]. apply Hocc. reflexivity.
      * exists res. split; [exact Hres |]. rewrite Hiff.
        split; [exact Hrest |]. apply Hskip. intros [_ Hc].
        unfold cell_violates in Hc.
        destruct Hc as [Hc | [Hc | [_ Hc]]]; [lia | lia |].
        apply Hocc in Hc. discriminate.
    + exists res. split; [exact Hres |]. rewrite Hiff.
      split; [exact Hrest |]. apply Hskip. intros [_ Hc].
      unfold cell_violates in Hc. lia.
Qed.

Lemma collides_rows_spec (b : Board) (p : Piece.t) (offsetX offsetY : Z)
    (shape : Shape) :
  wf_board b ->
  forall r0 : nat,
  exists res : bool,
    collides_rows b p offsetX offsetY (Z.of_nat r0) shape = Ok res /\
    (res = true <->
     exists r c : nat,
       occupied shape r c /\
       cell_violates b (Piece.x p + Z.of_nat c + offsetX)
                       (Piece.y p + Z.of_nat (r0 + r) + offsetY)).
Proof.
  intros Hwf. induction shape as [|row rest IH]; intros r0.
  - exists false. split; [reflexivity |]. split; [discriminate |].
    intros (r & c & (row & v & Hr & _) & _). discriminate.
  - cbn [collides_rows].
    destruct (collides_cols_spec b p offsetX offsetY (Z.of_nat r0) row Hwf 0%nat)
      as (res0 & Hres0 & Hiff0).
    change (Z.of_nat 0) with 0 in Hres0. rewrite Hres0.
    replace (Z.of_nat r0 + 1) with (Z.of_nat (S r0)) by lia.
    destruct res0.
    + exists true. split; [reflexivity |]. split; [| reflexivity]. intros _.
      destruct Hiff0 as [Hiff0 _].
      destruct (Hiff0 eq_refl) as (c & v & Hc & Hv & Hviol).
      exists 0%nat, c. split.
      * exists row, v. auto.
      * replace (r0 + 0)%nat with r0 by lia. exact Hviol.
    + destruct (IH (S r0)) as (res & Hres & Hiff).
      exists res. split; [exact Hres |]. rewrite Hiff. split.
      * intros (r & c & (row' & v & Hr & Hc & Hv) & Hviol).
        exists (S r), c. split; [exists row', v; auto |].
        replace (r0 + S r)%nat with (S r0 + r)%nat by lia. exact Hviol.
      * intros (r & c & (row' & v & Hr & Hc & Hv) & Hviol).
        destruct r as [|r].
        -- injection Hr as <-. exfalso.
           assert (Hf : false = true); [| discriminate].
           apply Hiff0. exists c, v.
           replace (r0 + 0)%nat with r0 in Hviol by lia. auto.
        -- exists r, c. split; [exists row', v; auto |].
           replace (S r0 + r)%nat with (r0 + S r)%nat by lia. exact Hviol.
Qed.

(** [collides] never changes the globals, whatever the state. *)
Lemma collides_pure (offsetX offsetY : Z) (rotationIndex : nat) (g g' : Game)
    (res : bool) :
  collides offsetX offsetY rotationIndex g = Ok (res, g') -> g' = g.
Proof.
  unfold collides, bind, get, throw, lift.
  destruct (Piece.rotations (currentPiece g) !! rotationIndex); [| discriminate].
  destruct (collides_rows _ _ _ _ _ _); try discriminate.
  intros H. injection H as _ <-. reflexivity.
Qed.

Lemma collides_spec (g : Game) (offsetX offsetY : Z) (rotationIndex : nat)
    (shape : Shape) :
  wf_board (board g) ->
  Piece.rotations (currentPiece g) !! rotationIndex = Some shape ->
  exists res : bool,
    collides offsetX offsetY rotationIndex g = Ok (res, g) /\
    (res = true <->
     placement_violates (board g) (currentPiece g) offsetX offsetY shape).
Proof.
  intros Hwf Hshape.
  destruct (collides_rows_spec (board g) (currentPiece g) offsetX offsetY
              shape Hwf 0%nat) as (res & Hres & Hiff).
  exists res. split.
  - unfold collides, bind, get, lift. rewrite Hshape.
    change (Z.of_nat 0) with 0 in Hres. rewrite Hres. reflexivity.
  - rewrite Hiff. unfold placement_violates. reflexivity.
Qed.

(** C1.  On a board of [ROWS] rows of [COLS] cells, and for a rotation index
    of the active piece, [collides] returns, and it returns [true] exactly
    when some occupied cell [(r, c)] of the tested rotation state, placed at
    [(x + c + offsetX, y + r + offsetY)], is left of column [0] or right of
    column [COLS - 1], or is at row [ROWS] or below, or is at a row [>= 0]
    where the board already holds a block.  A cell above row [0] can thus
    only violate the horizontal bound.  In every state where [collides]
    returns at all, the globals (board and active piece included) are the
    ones it started from. *)
Theorem C1_collides_iff_some_cell_violates
    (g : Game) (offsetX offsetY : Z) (rotationIndex : nat) (shape : Shape) :
  wf_board (board g) ->
  Piece.rotations (currentPiece g) !! rotationIndex = Some shape ->
  (exists res : bool,
     collides offsetX offsetY rotationIndex g = Ok (res, g) /\
     (res = true <->
      exists r c : nat,
        occupied shape r c /\
        let x := Piece.x (currentPiece g) + Z.of_nat c + offsetX in
        let y := Piece.y (currentPiece g) + Z.of_nat r + offsetY in
        (x < 0 \/ COLS <= x) \/ ROWS <= y \/
        (0 <= y /\ board_occupied (board g) y x))) /\
  (forall r c : nat,
     occupied shape r c ->
     Piece.y (currentPiece g) + Z.of_nat r + offsetY < 0 ->
     cell_violates (board g)
       (Piece.x (currentPiece g) + Z.of_nat c + offsetX)
       (Piece.y (currentPiece g) + Z.of_nat r + offsetY) <->
     (Piece.x (currentPiece g) + Z.of_nat c + offsetX < 0 \/
      COLS <= Piece.x (currentPiece g) + Z.of_nat c + offsetX)) /\
  (forall (g0 g' : Game) (ox oy : Z) (rot : nat) (res : bool),
     collides ox oy rot g0 = Ok (res, g') ->
     board g' = board g0 /\ currentPiece g' = currentPiece g0 /\ g' = g0).
Proof.
  intros Hwf Hshape. split; [| split].
  - destruct (collides_spec g offsetX offsetY rotationIndex shape Hwf Hshape)
      as (res & Hres & Hiff).
    exists res. split; [exact Hres |]. exact Hiff.
  - intros r c _ Hneg. unfold cell_violates, ROWS. split.
    + intros [H | [H | [H _]]]; [exact H | lia | lia].
    + intros H. left. exact H.
  - intros g0 g' ox oy rot res H.
    apply collides_pure in H. subst g'. auto.
Qed.

Lemma C1_witness :
  exists res : bool,
    collides 5 0 0 (start 3) = Ok (res, start 3) /\ res = true.
Proof.
  assert (Hwf : wf_board (board (start 3)))
    by (split; [reflexivity | repeat constructor]).
  destruct (C1_collides_iff_some_cell_violates (start 3) 5 0 0%nat
              [[1; 1]; [1; 1]] Hwf eq_refl)
    as ((res & Hres & Hiff) & _ & _).
  exists res. split; [exact Hres |].
  apply Hiff. exists 0%nat, 1%nat. split.
  - exists [1; 1], 1. repeat split.
  - left. right. vm_compute. discriminate.
Defined.

(** ** Line clearing *)

Lemma row_full_empty_row : row_full empty_row = false.
Proof. reflexivity. Qed.

(** On a row of [COLS] cells the test of the loop says that every cell
    holds a block. *)
Lemma row_full_Forall (row : Row) :
  length row = Z.to_nat COLS ->
  row_full row = true <-> Forall (fun v => cell_truthy v = true) row.
Proof.
  intros Hlen. unfold row_full. rewrite forallb_forall, Forall_lookup. split.
  - intros H i v Hi.
    assert (Hlt : (i < Z.to_nat COLS)%nat).
    { rewrite <- Hlen. apply lookup_lt_is_Some. eauto. }
    specialize (H i). cbv beta in H. rewrite Hi in H. apply H.
    apply in_seq. lia.
  - intros H i Hi. apply in_seq in Hi.
    destruct (lookup_lt_is_Some_2 row i) as [v Hv]; [lia |].
    rewrite Hv. exact (H i v Hv).
Qed.

(** The loop at index [length pre - 1] of the board [pre ++ suf]: the rows
    of [suf] were scanned before and stay; the full rows of [pre] go, and as
    many empty rows come on top. *)
Lemma clearLines_loop_spec (fuel : nat) :
  forall (pre suf : Board) (n : nat),
    (length pre + length (full_rows pre) + 1 <= fuel)%nat ->
    clearLines_loop fuel (pre ++ suf) (Z.of_nat (length pre) - 1) n =
    Ok (replicate (length (full_rows pre)) empty_row ++ kept_rows pre ++ suf,
        (n + length (full_rows pre))%nat).
Proof.
  induction fuel as [|fuel IH]; intros pre suf n Hfuel; [lia |].
  cbn [clearLines_loop].
  destruct (decide (pre = [])) as [-> | Hne].
  { cbn. rewrite Nat.add_0_r. reflexivity. }
  destruct (exists_last Hne) as (pre0 & cells & ->).
  rewrite length_app in *. cbn [length] in *.
  replace (Z.of_nat (length pre0 + 1) - 1) with (Z.of_nat (length pre0)) by lia.
  assert (Hge : (Z.of_nat (length pre0) >=? 0) = true) by (apply Z.geb_le; lia).
  rewrite Hge, index_of_nat.
  rewrite <- app_assoc. cbn [app]. rewrite list_lookup_middle by reflexivity.
  unfold full_rows, kept_rows in *. rewrite !List.filter_app in *.
  cbn [List.filter] in *. rewrite Nat2Z.id.
  destruct (row_full cells) eqn:Hfull; cbn [negb].
  - rewrite delete_middle. rewrite length_app in Hfuel. cbn [length] in Hfuel.
    specialize (IH (empty_row :: pre0) suf (S n)).
    cbn [length List.filter app] in IH.
    rewrite row_full_empty_row in IH. cbn [negb] in IH.
    replace (Z.of_nat (S (length pre0)) - 1) with (Z.of_nat (length pre0))
      in IH by lia.
    rewrite IH by lia.
    rewrite length_app. cbn [length].
    rewrite app_nil_r. f_equal. f_equal.
    + replace (length (List.filter row_full pre0) + 1)%nat
        with (S (length (List.filter row_full pre0))) by lia.
      rewrite replicate_S_end, <- app_assoc. reflexivity.
    + lia.
  - rewrite app_nil_r in *.
    rewrite (IH pre0 (cells :: suf) n) by lia.
    rewrite <- !app_assoc. reflexivity.
Qed.

Lemma kept_rows_none_full (b : Board) :
  length (full_rows b) = 0%nat -> kept_rows b = b.
Proof.
  unfold full_rows, kept_rows. induction b as [|row b IH]; [reflexivity |].
  cbn [List.filter]. destruct (row_full row); cbn [negb length].
  - discriminate.
  - intros H. rewrite IH by exact H. reflexivity.
Qed.

(** What [clearLines] does once its loop has answered [(b, n)]. *)
Lemma clearLines_run (fuel : nat) (g : Game) (b : Board) (n : nat) :
  clearLines_loop fuel (board g) (ROWS - 1) 0 = Ok (b, n) ->
  exists g' : Game,
    clearLines fuel g = Ok (tt, g') /\
    board g' = b /\
    currentPiece g' = currentPiece g /\
    isGameOver g' = isGameOver g /\
    score g' = (if (0 <? n)%nat then num_add (score g) (lineScore n)
                else score g) /\
    linesCleared g' = linesCleared g + Z.of_nat n /\
    dropInterval g' =
      (if (0 <? n)%nat && (Z.rem (linesCleared g + Z.of_nat n) 10 =? 0)
          && (dropInterval g >? 200)
       then dropInterval g - 100 else dropInterval g) /\
    (n = 0%nat -> g' = set_board b g).
Proof.
  intros Hloop. unfold clearLines, bind, get, lift. rewrite Hloop.
  cbn [fst snd modify].
  destruct n as [|n].
  - cbn. eexists. split; [reflexivity |].
    cbn. rewrite Z.add_0_r. repeat split; reflexivity.
  - change (0 <? S n)%nat with true. cbv iota. cbn [modify set_board set_score
      set_linesCleared linesCleared dropInterval andb].
    destruct ((Z.rem (linesCleared g + Z.of_nat (S n)) 10 =? 0)
              && (dropInterval g >? 200)) eqn:Hspeed.
    + unfold clearInterval, setInterval, bind, get, modify, ret. cbn.
      destruct (dropTimer g); cbn; eexists; (split; [reflexivity |]);
        cbn; repeat split; discriminate.
    + cbn. eexists. split; [reflexivity |].
      cbn. repeat split; discriminate.
Qed.

Lemma clearLines_inv (fuel : nat) (g g' : Game) :
  clearLines fuel g = Ok (tt, g') ->
  exists (b : Board) (n : nat),
    clearLines_loop fuel (board g) (ROWS - 1) 0 = Ok (b, n).
Proof.
  unfold clearLines, bind, get, lift.
  destruct (clearLines_loop fuel (board g) (ROWS - 1) 0) as [[b n]| |];
    try discriminate.
  intros _. exists b, n. reflexivity.
Qed.

Lemma clearLines_loop_wf (fuel : nat) (b : Board) :
  wf_board b -> (enough_fuel <= fuel)%nat ->
  clearLines_loop fuel b (ROWS - 1) 0 =
  Ok (replicate (length (full_rows b)) empty_row ++ kept_rows b,
      length (full_rows b)).
Proof.
  intros [Hlen _] Hfuel.
  pose proof (clearLines_loop_spec fuel b [] 0) as H.
  rewrite !app_nil_r in H. rewrite Hlen in H.
  change (Z.of_nat (Z.to_nat ROWS) - 1) with (ROWS - 1) in H.
  apply H. unfold enough_fuel, ROWS in *.
  assert (length (full_rows b) <= length b)%nat by apply List.filter_length_le.
  lia.
Qed.

Lemma wf_board_clearLines (b : Board) :
  wf_board b ->
  wf_board (replicate (length (full_rows b)) empty_row ++ kept_rows b).
Proof.
  intros [Hlen Hrows]. split.
  - rewrite length_app, length_replicate. rewrite <- Hlen.
    unfold full_rows, kept_rows. apply List.filter_length.
  - apply Forall_app. split.
    + apply Forall_replicate. unfold empty_row. apply length_replicate.
    + unfold kept_rows. rewrite Forall_forall in *. intros row Hin.
      apply Hrows. apply list_elem_of_In in Hin. apply list_elem_of_In.
      apply List.filter_In in Hin. tauto.
Qed.

Lemma set_board_same (g : Game) : set_board (board g) g = g.
Proof. destruct g. reflexivity. Qed.

Lemma clearLines_wf (fuel : nat) (g : Game) :
  wf_board (board g) -> (enough_fuel <= fuel)%nat ->
  exists g' : Game,
    clearLines fuel g = Ok (tt, g') /\
    board g' = replicate (length (full_rows (board g))) empty_row
               ++ kept_rows (board g) /\
    currentPiece g' = currentPiece g /\
    isGameOver g' = isGameOver g /\
    score g' = (if (0 <? length (full_rows (board g)))%nat
                then num_add (score g) (lineScore (length (full_rows (board g))))
                else score g) /\
    linesCleared g' = linesCleared g + Z.of_nat (length (full_rows (board g))) /\
    (length (full_rows (board g)) = 0%nat -> g' = g).
Proof.
  intros Hwf Hfuel.
  destruct (clearLines_run fuel g _ _ (clearLines_loop_wf fuel _ Hwf Hfuel))
    as (g' & Hrun & Hb & Hp & Hover & Hs & Hl & _ & Hzero).
  exists g'. repeat split; try assumption.
  intros Hn. rewrite (Hzero Hn), Hn. cbn [replicate app].
  rewrite kept_rows_none_full by exact Hn. apply set_board_same.
Qed.

Lemma full_rows_replicate_empty (n : nat) :
  full_rows (replicate n empty_row) = [].
Proof.
  unfold full_rows. induction n as [|n IH]; [reflexivity |].
  cbn [replicate List.filter]. rewrite row_full_empty_row. exact IH.
Qed.

Lemma full_rows_kept_rows (b : Board) : full_rows (kept_rows b) = [].
Proof.
  unfold full_rows, kept_rows. induction b as [|row b IH]; [reflexivity |].
  cbn [List.filter]. destruct (row_full row) eqn:Hrow; cbn [negb List.filter].
  - exact IH.
  - rewrite Hrow. exact IH.
Qed.

(** C4.  On a board of [ROWS] rows of [COLS] cells [clearLines] returns, and
    the new board is the old one without its full rows, the other rows in
    their order, under as many empty rows as there were full rows; a row is
    full exactly when each of its cells holds a block.  The board keeps its
    height, no full row is left (so adjacent full rows are all found), and
    with no full row nothing changes at all. *)
Theorem C4_clearLines_removes_exactly_the_full_rows (g : Game) (fuel : nat) :
  wf_board (board g) -> (enough_fuel <= fuel)%nat ->
  exists g' : Game,
    clearLines fuel g = Ok (tt, g') /\
    board g' = replicate (length (full_rows (board g))) empty_row
               ++ List.filter (fun row => negb (row_full row)) (board g) /\
    (forall row : list (option string),
       row ∈ full_rows (board g) <->
       row ∈ board g /\ Forall (fun v => cell_truthy v = true) row) /\
    length (board g') = length (board g) /\
    full_rows (board g') = [] /\
    (full_rows (board g) = [] -> board g' = board g /\ g' = g).
Proof.
  intros Hwf Hfuel.
  destruct (clearLines_wf fuel g Hwf Hfuel)
    as (g' & Hrun & Hb & _ & _ & _ & _ & Hzero).
  exists g'. split; [exact Hrun |]. split; [exact Hb |]. split; [| split; [| split]].
  - intros row. unfold full_rows. rewrite !list_elem_of_In, List.filter_In.
    split.
    + intros [Hin Hfull]. split; [exact Hin |].
      apply row_full_Forall; [| exact Hfull].
      destruct Hwf as [_ Hrows]. rewrite Forall_forall in Hrows.
      apply Hrows. apply list_elem_of_In. exact Hin.
    + intros [Hin Hall]. split; [exact Hin |].
      apply row_full_Forall; [| exact Hall].
      destruct Hwf as [_ Hrows]. rewrite Forall_forall in Hrows.
      apply Hrows. apply list_elem_of_In. exact Hin.
  - rewrite Hb. destruct (wf_board_clearLines _ Hwf) as [-> _].
    destruct Hwf as [-> _]. reflexivity.
  - rewrite Hb. unfold full_rows at 1. rewrite List.filter_app.
    fold (full_rows (replicate (length (full_rows (board g))) empty_row)).
    fold (full_rows (kept_rows (board g))).
    rewrite full_rows_replicate_empty, full_rows_kept_rows. reflexivity.
  - intros Hnone. rewrite (Hzero ltac:(rewrite Hnone; reflexivity)). auto.
Qed.

Lemma wf_board_two_full_rows : wf_board (board two_full_rows).
Proof. split; [reflexivity | repeat constructor]. Qed.

Lemma C4_witness :
  exists g' : Game,
    clearLines enough_fuel two_full_rows = Ok (tt, g') /\
    board g' = replicate 20 empty_row.
Proof.
  destruct (C4_clearLines_removes_exactly_the_full_rows two_full_rows
              enough_fuel wf_board_two_full_rows (Nat.le_refl _))
    as (g' & Hrun & Hb & _).
  exists g'. split; [exact Hrun |]. rewrite Hb. reflexivity.
Defined.

(** ** Consequences of the collision test *)

Lemma collides_total (g : Game) (offsetX offsetY : Z) (rotationIndex : nat) :
  wf_board (board g) ->
  (rotationIndex < length (Piece.rotations (currentPiece g)))%nat ->
  exists res : bool, collides offsetX offsetY rotationIndex g = Ok (res, g).
Proof.
  intros Hwf Hrot.
  destruct (lookup_lt_is_Some_2 _ _ Hrot) as [shape Hshape].
  destruct (collides_spec g offsetX offsetY rotationIndex shape Hwf Hshape)
    as (res & Hres & _).
  exists res. exact Hres.
Qed.

Lemma not_cell_violates_bounds (b : Board) (x y : Z) :
  ~ cell_violates b x y -> 0 <= x < COLS /\ y < ROWS.
Proof.
  unfold cell_violates. intros H.
  assert (H1 : ~ (x < 0 \/ COLS <= x)) by tauto.
  assert (H2 : ~ ROWS <= y) by tauto.
  lia.
Qed.

(** A placement that does not collide has all its cells in bounds. *)
Lemma collides_false_bounds (g : Game) (offsetX offsetY : Z)
    (rotationIndex : nat) (shape : Shape) (r c : nat) :
  wf_board (board g) ->
  Piece.rotations (currentPiece g) !! rotationIndex = Some shape ->
  collides offsetX offsetY rotationIndex g = Ok (false, g) ->
  occupied shape r c ->
  0 <= Piece.x (currentPiece g) + Z.of_nat c + offsetX < COLS /\
  Piece.y (currentPiece g) + Z.of_nat r + offsetY < ROWS.
Proof.
  intros Hwf Hshape Hcol Hocc.
  destruct (collides_spec g offsetX offsetY rotationIndex shape Hwf Hshape)
    as (res & Hres & Hiff).
  rewrite Hcol in Hres. injection Hres as <-.
  apply (not_cell_violates_bounds (board g)). intros Hviol.
  assert (Hf : false = true); [| discriminate].
  apply Hiff. exists r, c. auto.
Qed.

(** A cell at row [ROWS] or below makes the placement collide. *)
Lemma collides_true_below (g : Game) (offsetX offsetY : Z)
    (rotationIndex : nat) (shape : Shape) (r c : nat) :
  wf_board (board g) ->
  Piece.rotations (currentPiece g) !! rotationIndex = Some shape ->
  occupied shape r c ->
  ROWS <= Piece.y (currentPiece g) + Z.of_nat r + offsetY ->
  collides offsetX offsetY rotationIndex g = Ok (true, g).
Proof.
  intros Hwf Hshape Hocc Hlow.
  destruct (collides_spec g offsetX offsetY rotationIndex shape Hwf Hshape)
    as (res & Hres & Hiff).
  rewrite Hres. f_equal. f_equal. apply Hiff.
  exists r, c. split; [exact Hocc |]. unfold cell_violates. auto.
Qed.

Lemma has_cell_occupied (shape : Shape) :
  has_cell shape = true -> exists r c : nat, occupied shape r c.
Proof.
  unfold has_cell. rewrite existsb_exists. intros (row & Hrow & Hex).
  apply existsb_exists in Hex. destruct Hex as (v & Hv & Ht).
  apply list_elem_of_In, list_elem_of_lookup in Hrow. destruct Hrow as [r Hr].
  apply list_elem_of_In, list_elem_of_lookup in Hv. destruct Hv as [c Hc].
  exists r, c, row, v. auto.
Qed.

(** ** The catalog *)

Lemma catalog_has_cells :
  forallb (fun def => forallb has_cell (Def.rotations def)) PIECES = true.
Proof. vm_compute. reflexivity. Qed.

Lemma piece_ok_shape (p : Piece.t) (rot : nat) (shape : Shape) :
  piece_ok p -> Piece.rotations p !! rot = Some shape ->
  exists r c : nat, occupied shape r c.
Proof.
  intros [(def & Hdef & _ & Hrots & _) _] Hshape.
  apply has_cell_occupied.
  pose proof catalog_has_cells as Hcat. rewrite forallb_forall in Hcat.
  specialize (Hcat def (proj1 (list_elem_of_In _ _) Hdef)).
  rewrite forallb_forall in Hcat. apply Hcat.
  rewrite <- Hrots. apply list_elem_of_In.
  apply list_elem_of_lookup. eauto.
Qed.

Lemma wf_board_empty : wf_board empty_board.
Proof.
  split.
  - apply length_replicate.
  - apply Forall_replicate. apply length_replicate.
Qed.

(** [randomPiece] with an index of the catalog gives a variant in its first
    rotation state, one row above the board, all cells in bounds. *)
Lemma randomPiece_spec (index : nat) (g : Game) :
  (index < length PIECES)%nat ->
  exists (p : Piece.t) (def : Def.t),
    randomPiece index g = Ok (p, g) /\
    PIECES !! index = Some def /\
    Piece.name p = Def.name def /\
    Piece.rotations p = Def.rotations def /\
    Piece.colour p = Def.colour def /\
    Piece.rotationIndex p = 0%nat /\
    Piece.y p = -1 /\
    piece_ok p /\ cells_in_bounds p.
Proof.
  intros Hindex.
  assert (Hgen : forall def : Def.t, PIECES !! index = Some def ->
            exists row0 rest0 rest,
              Def.rotations def = (row0 :: rest0) :: rest /\
              collides_rows empty_board
                (Piece.mk (Def.name def) (Def.rotations def) (Def.colour def)
                   0%nat ((COLS - Z.of_nat (length row0)) `div` 2) (-1))
                0 0 0 (row0 :: rest0) = Ok false).
  { intros def Hdef.
    do 7 (destruct index as [|index];
          [injection Hdef as <-; do 3 eexists; split; [reflexivity |];
           vm_compute; reflexivity |]).
    cbn in Hindex. lia. }
  destruct (lookup_lt_is_Some_2 _ _ Hindex) as [def Hdef].
  destruct (Hgen def Hdef) as (row0 & rest0 & rest & Hrots & Hfree).
  set (p := Piece.mk (Def.name def) (Def.rotations def) (Def.colour def)
              0%nat ((COLS - Z.of_nat (length row0)) `div` 2) (-1)) in *.
  assert (Hrun : randomPiece index g = Ok (p, g)).
  { unfold randomPiece. rewrite Hdef. subst p. rewrite Hrots. reflexivity. }
  assert (Hshape0 : Piece.rotations p !! 0%nat = Some (row0 :: rest0)).
  { cbn. rewrite Hrots. reflexivity. }
  exists p, def. split; [exact Hrun |]. split; [exact Hdef |].
  do 5 (split; [reflexivity |]). split.
  - split.
    + exists def. split; [apply list_elem_of_lookup; eauto |]. cbn. auto.
    + cbn. rewrite Hrots. cbn. lia.
  - intros shape r c Hshape Hocc.
    change (Piece.rotationIndex p) with 0%nat in Hshape.
    rewrite Hshape0 in Hshape. injection Hshape as <-.
    pose (g0 := set_currentPiece p (set_board empty_board g)).
    assert (H := collides_false_bounds g0 0 0 0 (row0 :: rest0) r c).
    cbn [g0 set_currentPiece set_board board currentPiece] in H.
    rewrite !Z.add_0_r in H. apply H.
    + exact wf_board_empty.
    + exact Hshape0.
    + unfold collides, bind, get, lift. subst g0.
      cbn [currentPiece board set_currentPiece set_board].
      rewrite Hshape0, Hfree. reflexivity.
    + exact Hocc.
Qed.

(** ** Locking the cells of the piece *)

Lemma index_insert_eq {A : Type} (l : list A) (i : Z) (a : A) :
  0 <= i < Z.of_nat (length l) -> index (<[Z.to_nat i := a]> l) i = Some a.
Proof.
  intros Hi. unfold index.
  destruct (i <? 0) eqn:E; [apply Z.ltb_lt in E; lia |].
  apply list_lookup_insert_eq. lia.
Qed.

Lemma index_insert_ne {A : Type} (l : list A) (i j : Z) (a : A) :
  0 <= i -> i <> j -> index (<[Z.to_nat i := a]> l) j = index l j.
Proof.
  intros Hi Hne. unfold index.
  destruct (j <? 0) eqn:E; [reflexivity |]. apply Z.ltb_ge in E.
  apply list_lookup_insert_ne. lia.
Qed.

Lemma index_lt {A : Type} (l : list A) (i : Z) (a : A) :
  index l i = Some a -> 0 <= i < Z.of_nat (length l).
Proof.
  unfold index. destruct (i <? 0) eqn:E; [discriminate |].
  apply Z.ltb_ge in E. intros H. apply lookup_lt_Some in H. lia.
Qed.

(** One assignment [board[y][x] = v] inside the board. *)
Lemma board_set_spec (b : Board) (y x : Z) (v : string) :
  wf_board b -> 0 <= y < ROWS -> 0 <= x < COLS ->
  exists b' : Board,
    board_set b y x v = Ok b' /\
    wf_board b' /\
    cell_at b' y x = Some v /\
    (forall y' x' : Z, y' <> y \/ x' <> x -> cell_at b' y' x' = cell_at b y' x').
Proof.
  intros Hwf Hy Hx.
  destruct (wf_board_index b y Hwf Hy) as (row & Hrow & Hlen).
  pose proof (index_lt _ _ _ Hrow) as Hylen.
  assert (Hxlen : 0 <= x < Z.of_nat (length row)).
  { rewrite Hlen. unfold COLS in *. lia. }
  unfold board_set. rewrite Hrow.
  assert (Hset : row_set row x v = <[Z.to_nat x := Some v]> row).
  { unfold row_set.
    destruct (x <? 0) eqn:E; [apply Z.ltb_lt in E; lia |].
    destruct (Z.to_nat x <? length row)%nat eqn:E2; [reflexivity |].
    apply Nat.ltb_ge in E2. lia. }
  rewrite Hset. eexists. split; [reflexivity |]. split; [| split].
  - destruct Hwf as [Hl Hrows]. split.
    + rewrite length_insert. exact Hl.
    + apply Forall_insert; [exact Hrows |]. rewrite length_insert. exact Hlen.
  - unfold cell_at. rewrite index_insert_eq by exact Hylen.
    rewrite index_insert_eq by exact Hxlen. reflexivity.
  - intros y' x' Hne. unfold cell_at.
    destruct (decide (y' = y)) as [-> | Hy'].
    + rewrite index_insert_eq by exact Hylen. rewrite Hrow.
      rewrite index_insert_ne by lia. reflexivity.
    + rewrite index_insert_ne by lia. reflexivity.
Qed.

(** The inner [forEach] of [placePiece] on row [r] of the shape, from
    column [c0] on: it returns, keeps the size of the board, writes the
    colour at the cells of the row (when the row is on the board), and
    leaves every other cell as it was. *)
Lemma placePiece_cols_spec (p : Piece.t) (r : Z) (row : list Z) :
  forall (c0 : nat) (b : Board),
    wf_board b ->
    (forall (c : nat) (v : Z),
       row !! c = Some v -> value_truthy v = true ->
       0 <= Piece.x p + Z.of_nat (c0 + c) < COLS /\ Piece.y p + r < ROWS) ->
    exists b' : Board,
      placePiece_cols p r (Z.of_nat c0) row b = Ok b' /\
      wf_board b' /\
      (forall (c : nat) (v : Z),
         row !! c = Some v -> value_truthy v = true -> 0 <= Piece.y p + r ->
         cell_at b' (Piece.y p + r) (Piece.x p + Z.of_nat (c0 + c))
         = Some (Piece.colour p)) /\
      (forall y' x' : Z,
         cell_at b' y' x' = cell_at b y' x' \/
         (y' = Piece.y p + r /\ 0 <= y' /\
          exists (c : nat) (v : Z),
            row !! c = Some v /\ value_truthy v = true /\
            x' = Piece.x p + Z.of_nat (c0 + c))).
Proof.
  induction row as [|v rest IH]; intros c0 b Hwf Hin.
  - exists b. split; [reflexivity |]. split; [exact Hwf |]. split.
    + intros c v Hc. discriminate.
    + intros y' x'. left. reflexivity.
  - cbn [placePiece_cols].
    replace (Z.of_nat c0 + 1) with (Z.of_nat (S c0)) by lia.
    assert (Hin' : forall (c : nat) (w : Z),
              rest !! c = Some w -> value_truthy w = true ->
              0 <= Piece.x p + Z.of_nat (S c0 + c) < COLS /\
              Piece.y p + r < ROWS).
    { intros c w Hc Hw.
      replace (S c0 + c)%nat with (c0 + S c)%nat by lia.
      apply (Hin (S c) w); assumption. }
    assert (Hskip : forall b1 : Board,
              wf_board b1 ->
              (forall y' x' : Z,
                 y' <> Piece.y p + r \/ x' <> Piece.x p + Z.of_nat c0 ->
                 cell_at b1 y' x' = cell_at b y' x') ->
              (value_truthy v = true -> 0 <= Piece.y p + r ->
               cell_at b1 (Piece.y p + r) (Piece.x p + Z.of_nat c0)
               = Some (Piece.colour p)) ->
              (b1 = b \/ (value_truthy v = true /\ 0 <= Piece.y p + r)) ->
              exists b' : Board,
                placePiece_cols p r (Z.of_nat (S c0)) rest b1 = Ok b' /\
                wf_board b' /\
                (forall (c : nat) (w : Z),
                   (v :: rest) !! c = Some w -> value_truthy w = true ->
                   0 <= Piece.y p + r ->
                   cell_at b' (Piece.y p + r) (Piece.x p + Z.of_nat (c0 + c))
                   = Some (Piece.colour p)) /\
                (forall y' x' : Z,
                   cell_at b' y' x' = cell_at b y' x' \/
                   (y' = Piece.y p + r /\ 0 <= y' /\
                    exists (c : nat) (w : Z),
                      (v :: rest) !! c = Some w /\ value_truthy w = true /\
                      x' = Piece.x p + Z.of_nat (c0 + c)))).
    { intros b1 Hwf1 Hother Hhere Hcase.
      destruct (IH (S c0) b1 Hwf1 Hin') as (b' & Hrun & Hwf' & Hwr & Hfr).
      exists b'. split; [exact Hrun |]. split; [exact Hwf' |]. split.
      - intros c w Hc Hw Hy. destruct c as [|c].
        + injection Hc as <-. replace (c0 + 0)%nat with c0 by lia.
          destruct (Hfr (Piece.y p + r) (Piece.x p + Z.of_nat c0))
            as [Heq | (_ & _ & c & w & Hc & Hw' & Hx)].
          * rewrite Heq. apply Hhere; assumption.
          * rewrite Hx. apply (Hwr c w); assumption.
        + replace (c0 + S c)%nat with (S c0 + c)%nat by lia.
          apply (Hwr c w); assumption.
      - intros y' x'.
        destruct (Hfr y' x') as [Heq | (Hy' & Hy0 & c & w & Hc & Hw & Hx)].
        + destruct (decide (y' = Piece.y p + r /\ x' = Piece.x p + Z.of_nat c0))
            as [[Hy' Hx'] | Hne].
          * destruct Hcase as [-> | [Hv Hy0]].
            -- left. exact Heq.
            -- right. split; [exact Hy' |]. split; [lia |].
               exists 0%nat, v. replace (c0 + 0)%nat with c0 by lia. auto.
          * left. rewrite Heq. apply Hother. lia.
        + right. split; [exact Hy' |]. split; [exact Hy0 |].
          exists (S c), w. replace (c0 + S c)%nat with (S c0 + c)%nat by lia.
          auto. }
    destruct (value_truthy v) eqn:Hv.
    2: { apply Hskip; auto. intros Hf. discriminate. }
    destruct (Piece.y p + r >=? 0) eqn:Hy0.
    2: { apply Hskip; auto. intros _ Hy. rewrite Z.geb_leb in Hy0.
         apply Z.leb_gt in Hy0. lia. }
    apply Z.geb_le in Hy0.
    destruct (Hin 0%nat v eq_refl Hv) as [Hx Hy].
    replace (c0 + 0)%nat with c0 in Hx by lia.
    destruct (board_set_spec b (Piece.y p + r) (Piece.x p + Z.of_nat c0)
                (Piece.colour p) Hwf ltac:(lia) Hx)
      as (b1 & -> & Hwf1 & Hhere & Hother).
    apply Hskip; auto.
Qed.

Lemma placePiece_rows_spec (p : Piece.t) (shape : Shape) :
  forall (r0 : nat) (b : Board),
    wf_board b ->
    (forall r c : nat,
       occupied shape r c ->
       0 <= Piece.x p + Z.of_nat c < COLS /\
       Piece.y p + Z.of_nat (r0 + r) < ROWS) ->
    exists b' : Board,
      placePiece_rows p (Z.of_nat r0) shape b = Ok b' /\
      wf_board b' /\
      (forall r c : nat,
         occupied shape r c -> 0 <= Piece.y p + Z.of_nat (r0 + r) ->
         cell_at b' (Piece.y p + Z.of_nat (r0 + r)) (Piece.x p + Z.of_nat c)
         = Some (Piece.colour p)) /\
      (forall y' x' : Z,
         cell_at b' y' x' = cell_at b y' x' \/
         (0 <= y' /\
          exists r c : nat,
            occupied shape r c /\
            y' = Piece.y p + Z.of_nat (r0 + r) /\
            x' = Piece.x p + Z.of_nat c)).
Proof.
  induction shape as [|row rest IH]; intros r0 b Hwf Hin.
  - exists b. split; [reflexivity |]. split; [exact Hwf |]. split.
    + intros r c (row & v & Hr & _). discriminate.
    + intros y' x'. left. reflexivity.
  - cbn [placePiece_rows].
    destruct (placePiece_cols_spec p (Z.of_nat r0) row 0%nat b Hwf)
      as (b1 & Hrun1 & Hwf1 & Hwr1 & Hfr1).
    { intros c v Hc Hv.
      destruct (Hin 0%nat c) as [Hx Hy]; [exists row, v; auto |].
      replace (r0 + 0)%nat with r0 in Hy by lia. cbn. lia. }
    change (Z.of_nat 0) with 0 in Hrun1. rewrite Hrun1.
    replace (Z.of_nat r0 + 1) with (Z.of_nat (S r0)) by lia.
    destruct (IH (S r0) b1 Hwf1) as (b' & Hrun & Hwf' & Hwr & Hfr).
    { intros r c (row' & v & Hr & Hc & Hv).
      replace (S r0 + r)%nat with (r0 + S r)%nat by lia.
      apply Hin. exists row', v. auto. }
    exists b'. split; [exact Hrun |]. split; [exact Hwf' |]. split.
    + intros r c (row' & v & Hr & Hc & Hv) Hy. destruct r as [|r].
      * injection Hr as <-. replace (r0 + 0)%nat with r0 in * by lia.
        destruct (Hfr (Piece.y p + Z.of_nat r0) (Piece.x p + Z.of_nat c))
          as [Heq | (_ & r' & c' & Hocc & Hy' & Hx')].
        -- rewrite Heq. apply (Hwr1 c v Hc Hv Hy).
        -- rewrite Hy', Hx'. apply Hwr; [exact Hocc | lia].
      * replace (r0 + S r)%nat with (S r0 + r)%nat in * by lia.
        apply Hwr; [exists row', v; auto | exact Hy].
    + intros y' x'.
      destruct (Hfr y' x') as [Heq | (Hy0 & r & c & (row' & v & Hr & Hc & Hv) & Hy' & Hx')].
      * destruct (Hfr1 y' x') as [Heq1 | (Hy' & Hy0 & c & v & Hc & Hv & Hx')].
        -- left. congruence.
        -- right. split; [exact Hy0 |]. exists 0%nat, c. split.
           ++ exists row, v. auto.
           ++ replace (r0 + 0)%nat with r0 by lia. cbn in Hx'. auto.
      * right. split; [exact Hy0 |]. exists (S r), c. split.
        -- exists row', v. auto.
        -- replace (r0 + S r)%nat with (S r0 + r)%nat by lia. auto.
Qed.

(** The first half of [placePiece], from a state whose piece is in bounds:
    it returns; only the board changes; it keeps its size; the cells of the
    piece that are on the board hold the colour of the piece, and every
    other cell is as before. *)
Lemma lockCells_spec (g : Game) (shape : Shape) :
  wf_board (board g) ->
  Piece.rotations (currentPiece g) !! Piece.rotationIndex (currentPiece g)
  = Some shape ->
  cells_in_bounds (currentPiece g) ->
  exists b' : Board,
    lockCells g = Ok (tt, set_board b' g) /\
    wf_board b' /\
    (forall y x : Z,
       written (currentPiece g) shape y x ->
       cell_at b' y x = Some (Piece.colour (currentPiece g))) /\
    (forall y x : Z,
       cell_at b' y x = cell_at (board g) y x \/
       written (currentPiece g) shape y x).
Proof.
  intros Hwf Hshape Hin.
  destruct (placePiece_rows_spec (currentPiece g) shape 0%nat (board g) Hwf)
    as (b' & Hrun & Hwf' & Hwr & Hfr).
  { intros r c Hocc. apply (Hin shape r c Hshape Hocc). }
  change (Z.of_nat 0) with 0 in Hrun.
  exists b'. split.
  - unfold lockCells, bind, get, lift, modify. rewrite Hshape, Hrun. reflexivity.
  - split; [exact Hwf' |]. split.
    + intros y x (Hy0 & r & c & Hocc & -> & ->).
      apply (Hwr r c Hocc). cbn. exact Hy0.
    + intros y x. destruct (Hfr y x) as [Heq | (Hy0 & r & c & Hocc & Hy & Hx)].
      * left. exact Heq.
      * right. split; [exact Hy0 |]. exists r, c. cbn in Hy. auto.
Qed.

(** ** Game over and spawn *)

(** [endGame] always returns: the flag is set, the timer held by
    [dropTimer] no longer runs, no other timer is added, and the board, the
    piece, the counters and the interval are untouched. *)
Lemma endGame_spec (g : Game) :
  exists g' : Game,
    endGame g = Ok (tt, g') /\
    isGameOver g' = true /\
    board g' = board g /\
    currentPiece g' = currentPiece g /\
    score g' = score g /\
    linesCleared g' = linesCleared g /\
    dropInterval g' = dropInterval g /\
    (forall (id : nat) (period : Z),
       dropTimer g = Some id -> ~ In (id, period) (timers g')) /\
    (forall t : nat * Z, In t (timers g') -> In t (timers g)).
Proof.
  unfold endGame, bind, get, modify, clearInterval. cbn.
  destruct (dropTimer g) as [id|] eqn:Htimer; cbn.
  - eexists. split; [reflexivity |]. cbn. repeat split.
    + intros id' period Hid Hin. injection Hid as <-.
      apply List.filter_In in Hin. destruct Hin as [_ Hne].
      cbn in Hne. rewrite Nat.eqb_refl in Hne. discriminate.
    + intros t Hin. apply List.filter_In in Hin. tauto.
  - eexists. split; [reflexivity |]. cbn. repeat split.
    + intros id period Hid. discriminate.
    + auto.
Qed.

Lemma randomPiece_pure (index : nat) (g g' : Game) (p : Piece.t) :
  randomPiece index g = Ok (p, g') -> g' = g.
Proof.
  unfold randomPiece, throw, ret.
  destruct (PIECES !! index) as [def|]; [| discriminate].
  destruct (Def.rotations def) as [|[|row0 rest0] rest]; try discriminate.
  intros H. injection H as _ <-. reflexivity.
Qed.

(** Any run of [spawn] that returns: the drawn piece became the active
    piece, [collides(0, 0, rotationIndex)] was evaluated on it, and
    [endGame] ran exactly when the answer was [true]. *)
Lemma spawn_inv (index : nat) (g g' : Game) :
  spawn index g = Ok (tt, g') ->
  exists (p : Piece.t) (res : bool),
    randomPiece index g = Ok (p, g) /\
    collides 0 0 (Piece.rotationIndex p) (set_currentPiece p g)
    = Ok (res, set_currentPiece p g) /\
    (if res then endGame (set_currentPiece p g) = Ok (tt, g')
     else g' = set_currentPiece p g).
Proof.
  unfold spawn. intros H.
  apply bind_inv in H. destruct H as (p & g1 & Hp & H).
  pose proof (randomPiece_pure _ _ _ _ Hp) as ->.
  apply bind_inv in H. destruct H as ([] & g2 & Hm & H).
  unfold modify in Hm. injection Hm as <-.
  apply bind_inv in H. destruct H as (res & g3 & Hc & H).
  pose proof (collides_pure _ _ _ _ _ _ Hc) as ->.
  exists p, res. split; [exact Hp |]. split; [exact Hc |].
  destruct res; [exact H |].
  unfold ret in H. injection H as <-. reflexivity.
Qed.

Lemma spawn_total (index : nat) (g : Game) :
  wf_board (board g) -> (index < length PIECES)%nat ->
  exists g' : Game, spawn index g = Ok (tt, g').
Proof.
  intros Hwf Hindex.
  destruct (randomPiece_spec index g Hindex)
    as (p & def & Hp & _ & _ & _ & _ & Hrot & _ & [_ Hlt] & _).
  destruct (collides_total (set_currentPiece p g) 0 0 (Piece.rotationIndex p))
    as [res Hres]; [exact Hwf | exact Hlt |].
  unfold spawn. rewrite (bind_Ok _ _ _ _ _ Hp).
  unfold modify at 1. unfold bind at 1.
  rewrite (bind_Ok _ _ _ _ _ Hres).
  destruct res.
  - destruct (endGame_spec (set_currentPiece p g)) as (g' & Hg' & _).
    exists g'. exact Hg'.
  - eexists. reflexivity.
Qed.

Lemma spawn_Inv (index : nat) (g g' : Game) :
  wf_board (board g) -> (index < length PIECES)%nat ->
  spawn index g = Ok (tt, g') -> Inv g'.
Proof.
  intros Hwf Hindex Hspawn.
  destruct (spawn_inv _ _ _ Hspawn) as (p & res & Hp & _ & Hend).
  destruct (randomPiece_spec index g Hindex)
    as (p' & def & Hp' & _ & _ & _ & _ & _ & Hy & Hok & Hin).
  rewrite Hp in Hp'. injection Hp' as <-.
  assert (Hinv : Inv (set_currentPiece p g)).
  { unfold Inv. cbn [board currentPiece set_currentPiece].
    split; [exact Hwf |]. split; [exact Hok |]. split; [exact Hin |]. lia. }
  destruct res; [| subst g'; exact Hinv].
  destruct (endGame_spec (set_currentPiece p g))
    as (g'' & Hg'' & _ & Hb & Hpc & _).
  rewrite Hend in Hg''. injection Hg'' as <-.
  unfold Inv. rewrite Hb, Hpc. exact Hinv.
Qed.

(** ** [placePiece] *)

Lemma lockCells_inv (g g' : Game) :
  lockCells g = Ok (tt, g') -> exists b' : Board, g' = set_board b' g.
Proof.
  unfold lockCells, bind, get, lift, modify, throw.
  destruct (Piece.rotations (currentPiece g) !! _); [| discriminate].
  destruct (placePiece_rows _ _ _ _) as [b'| |]; try discriminate.
  intros H. injection H as <-. exists b'. reflexivity.
Qed.

Lemma placePiece_inv (fuel index : nat) (g g' : Game) :
  placePiece fuel index g = Ok (tt, g') ->
  exists g1 g2 : Game,
    lockCells g = Ok (tt, g1) /\
    clearLines fuel g1 = Ok (tt, g2) /\
    spawn index g2 = Ok (tt, g').
Proof.
  unfold placePiece. intros H.
  apply bind_inv in H. destruct H as ([] & g1 & H1 & H).
  apply bind_inv in H. destruct H as ([] & g2 & H2 & H).
  exists g1, g2. auto.
Qed.

Lemma clearLines_loop_keeps_wf (fuel : nat) :
  forall (b : Board) (row : Z) (n : nat) (b' : Board) (n' : nat),
    wf_board b -> clearLines_loop fuel b row n = Ok (b', n') -> wf_board b'.
Proof.
  induction fuel as [|fuel IH]; intros b row n b' n' Hwf; [discriminate |].
  cbn [clearLines_loop].
  destruct (row >=? 0); [| intros H; injection H as <- _; exact Hwf].
  destruct (index b row) as [cells|] eqn:Hcells; [| discriminate].
  destruct (row_full cells); [| apply IH; exact Hwf].
  apply IH. pose proof (index_lt _ _ _ Hcells) as Hrow.
  destruct Hwf as [Hlen Hrows]. split.
  - cbn [length]. rewrite length_delete.
    + rewrite Hlen. unfold ROWS. lia.
    + apply lookup_lt_is_Some. lia.
  - constructor; [apply length_replicate | apply Forall_delete; exact Hrows].
Qed.

Lemma clearLines_keeps (fuel : nat) (g g' : Game) :
  clearLines fuel g = Ok (tt, g') ->
  currentPiece g' = currentPiece g /\
  isGameOver g' = isGameOver g /\
  (wf_board (board g) -> wf_board (board g')).
Proof.
  intros H. destruct (clearLines_inv _ _ _ H) as (b & n & Hloop).
  destruct (clearLines_run fuel g b n Hloop)
    as (g'' & Hrun & Hb & Hp & Hover & _).
  rewrite H in Hrun. injection Hrun as <-.
  split; [exact Hp |]. split; [exact Hover |].
  intros Hwf. rewrite Hb. exact (clearLines_loop_keeps_wf _ _ _ _ _ _ Hwf Hloop).
Qed.

Lemma placePiece_Inv (fuel index : nat) (g g' : Game) :
  Inv g -> (index < length PIECES)%nat ->
  placePiece fuel index g = Ok (tt, g') -> Inv g'.
Proof.
  intros (Hwf & [_ Hrot] & Hin & _) Hindex H.
  destruct (placePiece_inv _ _ _ _ H) as (g1 & g2 & H1 & H2 & H3).
  destruct (lookup_lt_is_Some_2 _ _ Hrot) as [shape Hshape].
  destruct (lockCells_spec g shape Hwf Hshape Hin) as (b' & Hlock & Hwf' & _).
  rewrite H1 in Hlock. injection Hlock as ->.
  destruct (clearLines_keeps _ _ _ H2) as (_ & _ & Hwf2).
  apply (spawn_Inv index g2 g'); [apply Hwf2; exact Hwf' | exact Hindex | exact H3].
Qed.

Lemma placePiece_total (fuel index : nat) (g : Game) :
  Inv g -> (enough_fuel <= fuel)%nat -> (index < length PIECES)%nat ->
  exists g' : Game, placePiece fuel index g = Ok (tt, g').
Proof.
  intros (Hwf & [_ Hrot] & Hin & _) Hfuel Hindex.
  destruct (lookup_lt_is_Some_2 _ _ Hrot) as [shape Hshape].
  destruct (lockCells_spec g shape Hwf Hshape Hin) as (b' & Hlock & Hwf' & _).
  destruct (clearLines_wf fuel (set_board b' g) Hwf' Hfuel) as (g2 & Hclear & _).
  destruct (clearLines_keeps _ _ _ Hclear) as (_ & _ & Hwf2).
  destruct (spawn_total index g2 (Hwf2 Hwf') Hindex) as (g' & Hspawn).
  exists g'. unfold placePiece.
  rewrite (bind_Ok _ _ _ _ _ Hlock), (bind_Ok _ _ _ _ _ Hclear). exact Hspawn.
Qed.

(** ** Moving the piece *)

(** A placement that [collides] accepted, at the same height or lower,
    keeps the invariant. *)
Lemma Inv_placed (g : Game) (p' : Piece.t) (offsetX offsetY : Z) :
  Inv g ->
  Piece.name p' = Piece.name (currentPiece g) ->
  Piece.rotations p' = Piece.rotations (currentPiece g) ->
  Piece.colour p' = Piece.colour (currentPiece g) ->
  (Piece.rotationIndex p' < length (Piece.rotations p'))%nat ->
  Piece.x p' = Piece.x (currentPiece g) + offsetX ->
  Piece.y p' = Piece.y (currentPiece g) + offsetY ->
  0 <= offsetY ->
  collides offsetX offsetY (Piece.rotationIndex p') g = Ok (false, g) ->
  Inv (set_currentPiece p' g).
Proof.
  intros (Hwf & [(def & Hdef & Hn & Hr & Hc) _] & _ & Hy)
         Hname Hrots Hcol Hrot Hx' Hy' Hoff Hfree.
  unfold Inv. cbn [board currentPiece set_currentPiece].
  split; [exact Hwf |]. split; [| split].
  - split; [| exact Hrot]. exists def.
    rewrite Hname, Hrots, Hcol. auto.
  - intros shape r c Hshape Hocc. rewrite Hrots in Hshape.
    pose proof (collides_false_bounds g offsetX offsetY _ shape r c
                  Hwf Hshape Hfree Hocc) as H.
    rewrite Hx', Hy'. lia.
  - lia.
Qed.

Lemma set_currentPiece_same (g : Game) : set_currentPiece (currentPiece g) g = g.
Proof. destruct g. reflexivity. Qed.

Lemma set_y_same (p : Piece.t) : Piece.set_y (Piece.y p + 0) p = p.
Proof. rewrite Z.add_0_r. destruct p. reflexivity. Qed.

Lemma move_inv (dir : Z) (g g' : Game) :
  move dir g = Ok (tt, g') ->
  exists res : bool,
    collides dir 0 (Piece.rotationIndex (currentPiece g)) g = Ok (res, g) /\
    g' = (if res then g
          else set_currentPiece
                 (Piece.set_x (Piece.x (currentPiece g) + dir) (currentPiece g)) g).
Proof.
  unfold move. intros H.
  apply bind_inv in H. destruct H as (g0 & g1 & Hget & H).
  unfold get in Hget. injection Hget as <- <-.
  apply bind_inv in H. destruct H as (res & g1 & Hc & H).
  pose proof (collides_pure _ _ _ _ _ _ Hc) as ->.
  exists res. split; [exact Hc |].
  destruct res; unfold ret, modify in H; injection H as <-; reflexivity.
Qed.

Lemma move_total (dir : Z) (g : Game) :
  Inv g -> exists g' : Game, move dir g = Ok (tt, g').
Proof.
  intros (Hwf & [_ Hrot] & _).
  destruct (collides_total g dir 0 _ Hwf Hrot) as [res Hres].
  unfold move, bind at 1, get. rewrite (bind_Ok _ _ _ _ _ Hres).
  destruct res; eexists; reflexivity.
Qed.

Lemma move_Inv (dir : Z) (g g' : Game) :
  Inv g -> move dir g = Ok (tt, g') -> Inv g'.
Proof.
  intros Hinv H. destruct (move_inv _ _ _ H) as (res & Hc & ->).
  destruct res; [exact Hinv |].
  apply (Inv_placed g _ dir 0); try reflexivity; try lia; try exact Hinv.
  - apply Hinv.
  - cbn. lia.
  - exact Hc.
Qed.

(** ** Rotation *)

(** Any run of the kick loop that returns: either every offset collided
    and nothing changed, or the first offset that did not collide was
    applied together with the new rotation index. *)
Lemma rotate_loop_inv (nextRotation : nat) (offsets : list Z) :
  forall g g' : Game,
    rotate_loop nextRotation offsets g = Ok (tt, g') ->
    (Forall (fun offset => collides offset 0 nextRotation g = Ok (true, g))
            offsets /\ g' = g) \/
    (exists (before : list Z) (offset : Z) (after : list Z),
       offsets = before ++ offset :: after /\
       Forall (fun o => collides o 0 nextRotation g = Ok (true, g)) before /\
       collides offset 0 nextRotation g = Ok (false, g) /\
       g' = set_currentPiece
              (Piece.set_rotationIndex nextRotation
                 (Piece.set_x (Piece.x (currentPiece g) + offset)
                    (currentPiece g))) g).
Proof.
  induction offsets as [|offset rest IH]; intros g g' H.
  - left. unfold rotate_loop, ret in H. injection H as <-. auto.
  - cbn [rotate_loop] in H.
    apply bind_inv in H. destruct H as (res & g1 & Hc & H).
    pose proof (collides_pure _ _ _ _ _ _ Hc) as ->.
    destruct res.
    + destruct (IH g g' H) as [[Hall ->] | (before & o & after & -> & Hb & Ho & ->)].
      * left. split; [constructor; assumption | reflexivity].
      * right. exists (offset :: before), o, after.
        split; [reflexivity |]. split; [constructor; assumption |]. auto.
    + right. exists [], offset, rest. split; [reflexivity |].
      split; [constructor |]. split; [exact Hc |].
      unfold bind, modify in H. injection H as <-. reflexivity.
Qed.

Lemma rotate_loop_total (nextRotation : nat) (offsets : list Z) (g : Game) :
  wf_board (board g) ->
  (nextRotation < length (Piece.rotations (currentPiece g)))%nat ->
  exists g' : Game, rotate_loop nextRotation offsets g = Ok (tt, g').
Proof.
  intros Hwf Hrot. induction offsets as [|offset rest IH].
  - eexists. reflexivity.
  - cbn [rotate_loop].
    destruct (collides_total g offset 0 nextRotation Hwf Hrot) as [res Hres].
    rewrite (bind_Ok _ _ _ _ _ Hres).
    destruct res; [exact IH | eexists; reflexivity].
Qed.

Lemma rotate_inv (g g' : Game) :
  rotate g = Ok (tt, g') ->
  (0 < length (Piece.rotations (currentPiece g)))%nat /\
  rotate_loop
    ((Piece.rotationIndex (currentPiece g) + 1)
       `mod` length (Piece.rotations (currentPiece g)))%nat kicks g
  = Ok (tt, g').
Proof.
  unfold rotate, bind at 1, get.
  destruct (length (Piece.rotations (currentPiece g))) eqn:Hlen;
    [discriminate |].
  intros H. split; [lia | exact H].
Qed.

Lemma rotate_total (g : Game) :
  Inv g -> exists g' : Game, rotate g = Ok (tt, g').
Proof.
  intros (Hwf & [_ Hrot] & _).
  unfold rotate, bind at 1, get.
  destruct (length (Piece.rotations (currentPiece g))) eqn:Hlen; [lia |].
  apply rotate_loop_total; [exact Hwf |].
  rewrite Hlen. apply Nat.mod_upper_bound. lia.
Qed.

Lemma rotate_Inv (g g' : Game) : Inv g -> rotate g = Ok (tt, g') -> Inv g'.
Proof.
  intros Hinv H. destruct (rotate_inv _ _ H) as [Hlen Hloop].
  destruct (rotate_loop_inv _ _ _ _ Hloop)
    as [[_ ->] | (before & offset & after & _ & _ & Hfree & ->)];
    [exact Hinv |].
  apply (Inv_placed g _ offset 0); try reflexivity; try lia; try exact Hinv.
  - cbn. apply Nat.mod_upper_bound. lia.
  - cbn. lia.
  - exact Hfree.
Qed.

(** ** Gravity *)

Lemma fall_inv (fuel index : nat) (g g' : Game) :
  fall fuel index g = Ok (tt, g') ->
  exists res : bool,
    collides 0 1 (Piece.rotationIndex (currentPiece g)) g = Ok (res, g) /\
    (if res then placePiece fuel index g = Ok (tt, g')
     else g' = set_currentPiece
                 (Piece.set_y (Piece.y (currentPiece g) + 1) (currentPiece g)) g).
Proof.
  unfold fall. intros H.
  apply bind_inv in H. destruct H as (g0 & g1 & Hget & H).
  unfold get in Hget. injection Hget as <- <-.
  apply bind_inv in H. destruct H as (res & g1 & Hc & H).
  pose proof (collides_pure _ _ _ _ _ _ Hc) as ->.
  exists res. split; [exact Hc |].
  destruct res; [exact H |].
  unfold modify in H. injection H as <-. reflexivity.
Qed.

Lemma fall_total (fuel index : nat) (g : Game) :
  Inv g -> (enough_fuel <= fuel)%nat -> (index < length PIECES)%nat ->
  exists g' : Game, fall fuel index g = Ok (tt, g').
Proof.
  intros Hinv Hfuel Hindex.
  pose proof Hinv as (Hwf & [Hcat Hrot] & Hrest).
  destruct (collides_total g 0 1 _ Hwf Hrot) as [res Hres].
  unfold fall, bind at 1, get. rewrite (bind_Ok _ _ _ _ _ Hres).
  destruct res; [| eexists; reflexivity].
  apply placePiece_total; [exact Hinv | exact Hfuel | exact Hindex].
Qed.

Lemma fall_Inv (fuel index : nat) (g g' : Game) :
  Inv g -> (index < length PIECES)%nat ->
  fall fuel index g = Ok (tt, g') -> Inv g'.
Proof.
  intros Hinv Hindex H. destruct (fall_inv _ _ _ _ H) as (res & Hc & Hres).
  destruct res; [exact (placePiece_Inv _ _ _ _ Hinv Hindex Hres) |].
  subst g'.
  apply (Inv_placed g _ 0 1); try reflexivity; try lia; try exact Hinv.
  - apply Hinv.
  - cbn. lia.
  - exact Hc.
Qed.

(** ** Hard drop *)

(** Any run of the search loop that returns from [dy0]: the globals are
    untouched, the answer [dy] is at least [dy0], the test collided at
    [dy + 1] and at no offset in between. *)
Lemma hardDrop_loop_inv (fuel : nat) :
  forall (dy0 dy : Z) (g g' : Game),
    hardDrop_loop fuel dy0 g = Ok (dy, g') ->
    g' = g /\ dy0 <= dy /\
    collides 0 (dy + 1) (Piece.rotationIndex (currentPiece g)) g
    = Ok (true, g) /\
    (forall d : Z,
       dy0 < d <= dy ->
       collides 0 d (Piece.rotationIndex (currentPiece g)) g = Ok (false, g)).
Proof.
  induction fuel as [|fuel IH]; intros dy0 dy g g' H; [discriminate |].
  cbn [hardDrop_loop] in H.
  apply bind_inv in H. destruct H as (g0 & g1 & Hget & H).
  unfold get in Hget. injection Hget as <- <-.
  apply bind_inv in H. destruct H as (res & g1 & Hc & H).
  pose proof (collides_pure _ _ _ _ _ _ Hc) as ->.
  destruct res.
  - unfold ret in H. injection H as <- <-.
    split; [reflexivity |]. split; [lia |]. split; [exact Hc |].
    intros d Hd. lia.
  - destruct (IH _ _ _ _ H) as (-> & Hle & Htrue & Hfalse).
    split; [reflexivity |]. split; [lia |]. split; [exact Htrue |].
    intros d Hd. destruct (decide (d = dy0 + 1)) as [-> | Hne].
    + exact Hc.
    + apply Hfalse. lia.
Qed.

(** With a board of the right size and an occupied cell in the shape, the
    loop needs at most [ROWS - y - dy0] further tests, and one more to see
    the collision. *)
Lemma hardDrop_loop_total (fuel : nat) :
  forall (dy0 : Z) (g : Game) (shape : Shape) (r c : nat),
    wf_board (board g) ->
    Piece.rotations (currentPiece g) !! Piece.rotationIndex (currentPiece g)
    = Some shape ->
    occupied shape r c ->
    (Z.to_nat (ROWS - Piece.y (currentPiece g) - dy0) + 1 <= fuel)%nat ->
    exists dy : Z, hardDrop_loop fuel dy0 g = Ok (dy, g).
Proof.
  induction fuel as [|fuel IH]; intros dy0 g shape r c Hwf Hshape Hocc Hfuel;
    [lia |].
  cbn [hardDrop_loop]. unfold bind at 1, get.
  destruct (collides_spec g 0 (dy0 + 1) _ shape Hwf Hshape)
    as (res & Hres & Hiff).
  rewrite (bind_Ok _ _ _ _ _ Hres). destruct res.
  - exists dy0. reflexivity.
  - apply (IH (dy0 + 1) g shape r c Hwf Hshape Hocc).
    pose proof (collides_false_bounds g 0 (dy0 + 1) _ shape r c
                  Hwf Hshape Hres Hocc) as [_ Hy].
    lia.
Qed.

Lemma hardDrop_inv (fuel index : nat) (g g' : Game) :
  hardDrop fuel index g = Ok (tt, g') ->
  exists dy : Z,
    hardDrop_loop fuel 0 g = Ok (dy, g) /\
    placePiece fuel index
      (set_currentPiece
         (Piece.set_y (Piece.y (currentPiece g) + dy) (currentPiece g)) g)
    = Ok (tt, g').
Proof.
  unfold hardDrop. intros H.
  apply bind_inv in H. destruct H as (dy & g1 & Hloop & H).
  destruct (hardDrop_loop_inv _ _ _ _ _ Hloop) as (-> & _).
  exists dy. split; [exact Hloop |].
  unfold bind at 1, modify in H. exact H.
Qed.

(** The state in which [hardDrop] locks the piece keeps the invariant. *)
Lemma hardDrop_landing_Inv (fuel : nat) (dy : Z) (g : Game) :
  Inv g -> hardDrop_loop fuel 0 g = Ok (dy, g) ->
  Inv (set_currentPiece
         (Piece.set_y (Piece.y (currentPiece g) + dy) (currentPiece g)) g).
Proof.
  intros Hinv Hloop.
  destruct (hardDrop_loop_inv _ _ _ _ _ Hloop) as (_ & Hle & _ & Hfalse).
  destruct (decide (dy = 0)) as [-> | Hne].
  - rewrite set_y_same, set_currentPiece_same. exact Hinv.
  - apply (Inv_placed g _ 0 dy); try reflexivity; try lia; try exact Hinv.
    + apply Hinv.
    + cbn. lia.
    + apply Hfalse. lia.
Qed.

Lemma hardDrop_Inv (fuel index : nat) (g g' : Game) :
  Inv g -> (index < length PIECES)%nat ->
  hardDrop fuel index g = Ok (tt, g') -> Inv g'.
Proof.
  intros Hinv Hindex H. destruct (hardDrop_inv _ _ _ _ H) as (dy & Hloop & Hplace).
  exact (placePiece_Inv _ _ _ _ (hardDrop_landing_Inv _ _ _ Hinv Hloop)
           Hindex Hplace).
Qed.

Lemma hardDrop_total (fuel index : nat) (g : Game) :
  Inv g -> (enough_fuel <= fuel)%nat -> (index < length PIECES)%nat ->
  exists g' : Game, hardDrop fuel index g = Ok (tt, g').
Proof.
  intros Hinv Hfuel Hindex.
  pose proof Hinv as (Hwf & Hok & _ & Hy).
  destruct (lookup_lt_is_Some_2 _ _ (proj2 Hok)) as [shape Hshape].
  destruct (piece_ok_shape _ _ _ Hok Hshape) as (r & c & Hocc).
  destruct (hardDrop_loop_total fuel 0 g shape r c Hwf Hshape Hocc) as [dy Hloop].
  { unfold enough_fuel, ROWS in *. lia. }
  destruct (placePiece_total fuel index _
              (hardDrop_landing_Inv _ _ _ Hinv Hloop) Hfuel Hindex)
    as [g' Hplace].
  exists g'. unfold hardDrop. rewrite (bind_Ok _ _ _ _ _ Hloop).
  unfold bind at 1, modify. exact Hplace.
Qed.

(** ** All operations *)

Lemma exec_Inv (fuel : nat) (o : op) (g g' : Game) :
  Inv g -> op_ok o -> exec fuel o g = Ok (tt, g') -> Inv g'.
Proof.
  intros Hinv Hok H. destruct o as [dir| |index|index|index|index|index k];
    cbn [exec op_ok] in *.
  - exact (move_Inv _ _ _ Hinv H).
  - exact (rotate_Inv _ _ Hinv H).
  - exact (fall_Inv _ _ _ _ Hinv Hok H).
  - exact (hardDrop_Inv _ _ _ _ Hinv Hok H).
  - unfold drop, bind at 1, get in H. destruct (isGameOver g).
    + unfold ret in H. injection H as <-. exact Hinv.
    + exact (fall_Inv _ _ _ _ Hinv Hok H).
  - exact (placePiece_Inv _ _ _ _ Hinv Hok H).
  - unfold keydown, bind at 1, get in H. destruct (isGameOver g).
    + unfold ret in H. injection H as <-. exact Hinv.
    + destruct k;
        try exact (move_Inv _ _ _ Hinv H);
        try exact (rotate_Inv _ _ Hinv H);
        try exact (fall_Inv _ _ _ _ Hinv Hok H);
        try exact (hardDrop_Inv _ _ _ _ Hinv Hok H).
      unfold ret in H. injection H as <-. exact Hinv.
Qed.

(** No operation of a session raises or runs out of budget. *)
Lemma exec_total (fuel : nat) (o : op) (g : Game) :
  Inv g -> op_ok o -> (enough_fuel <= fuel)%nat ->
  exists g' : Game, exec fuel o g = Ok (tt, g').
Proof.
  intros Hinv Hok Hfuel. destruct o as [dir| |index|index|index|index|index k];
    cbn [exec op_ok] in *.
  - exact (move_total _ _ Hinv).
  - exact (rotate_total _ Hinv).
  - exact (fall_total _ _ _ Hinv Hfuel Hok).
  - exact (hardDrop_total _ _ _ Hinv Hfuel Hok).
  - unfold drop, bind at 1, get. destruct (isGameOver g).
    + eexists. reflexivity.
    + exact (fall_total _ _ _ Hinv Hfuel Hok).
  - exact (placePiece_total _ _ _ Hinv Hfuel Hok).
  - unfold keydown, bind at 1, get. destruct (isGameOver g).
    + eexists. reflexivity.
    + destruct k;
        try exact (move_total _ _ Hinv);
        try exact (rotate_total _ Hinv);
        try exact (fall_total _ _ _ Hinv Hfuel Hok);
        try exact (hardDrop_total _ _ _ Hinv Hfuel Hok).
      eexists. reflexivity.
Qed.

Lemma resetGame_spec (index : nat) (g0 : Game) :
  (index < length PIECES)%nat ->
  exists g : Game,
    resetGame index g0 = Ok (tt, g) /\
    Inv g /\
    board g = empty_board /\
    score g = Int 0 /\ linesCleared g = 0 /\ dropInterval g = 1000 /\
    isGameOver g = false.
Proof.
  intros Hindex. unfold resetGame, bind, modify, get. cbv beta iota.
  set (g1 := set_isGameOver false _).
  destruct (randomPiece_spec index g1 Hindex)
    as (p & def & Hp & _ & _ & _ & _ & _ & Hy & Hok & Hin).
  rewrite Hp. cbv beta iota.
  unfold clearInterval, setInterval, bind, get, modify, ret.
  destruct (timer_truthy (dropTimer (set_currentPiece p g1)));
    [destruct (dropTimer (set_currentPiece p g1)) |];
    (eexists; split; [reflexivity |]; split;
     [unfold Inv; cbn; split; [exact wf_board_empty |];
      split; [exact Hok |]; split; [exact Hin | lia]
     | cbn; repeat split]).
Qed.

Lemma fresh_Inv (g : Game) : fresh g -> Inv g.
Proof.
  intros (g0 & index & Hindex & Hreset).
  destruct (resetGame_spec index g0 Hindex) as (g' & Hrun & Hinv & _).
  rewrite Hreset in Hrun. injection Hrun as <-. exact Hinv.
Qed.

Lemma steps_Inv (g g' : Game) : steps g g' -> Inv g -> Inv g'.
Proof.
  induction 1 as [g | g1 g2 g3 _ IH (fuel & o & Hok & Hexec)]; intros Hinv.
  - exact Hinv.
  - exact (exec_Inv _ _ _ _ (IH Hinv) Hok Hexec).
Qed.

Lemma reachable_Inv (g : Game) : reachable g -> Inv g.
Proof.
  intros (g1 & Hfresh & Hsteps).
  exact (steps_Inv _ _ Hsteps (fresh_Inv _ Hfresh)).
Qed.

(** ** The active piece stays in bounds *)

Lemma steps_cons (g1 g2 g3 : Game) : step g1 g2 -> steps g2 g3 -> steps g1 g3.
Proof.
  intros H12 H23. induction H23 as [g | g2 g3 g4 _ IH H34].
  - exact (steps_step _ _ _ (steps_refl _) H12).
  - exact (steps_step _ _ _ (IH H12) H34).
Qed.

Lemma run_steps (fuel : nat) (ops : list op) :
  forall g g' : Game,
    Forall op_ok ops -> run fuel ops g = Ok (tt, g') -> steps g g'.
Proof.
  induction ops as [|o rest IH]; intros g g' Hok H.
  - unfold run, ret in H. injection H as <-. apply steps_refl.
  - cbn [run] in H. apply bind_inv in H. destruct H as ([] & g1 & H1 & H).
    inversion Hok as [|? ? Ho Hrest]; subst.
    apply (steps_cons g g1 g').
    + exists fuel, o. auto.
    + exact (IH g1 g' Hrest H).
Qed.

(** C2.  In every state reachable from a fresh session by move, rotate,
    soft-drop, hard-drop, tick, lock and key operations, each occupied cell
    [(r, c)] of the active piece lies in a column [0 <= x + c < COLS] and in
    a row [y + r < ROWS]; the row may be negative.  [resetGame] and every
    operation keep this, since each change of position or rotation passed
    the collision test. *)
Theorem C2_reachable_piece_cells_in_bounds (g : Game) :
  reachable g ->
  forall (shape : Shape) (r c : nat),
    Piece.rotations (currentPiece g) !! Piece.rotationIndex (currentPiece g)
    = Some shape ->
    occupied shape r c ->
    0 <= Piece.x (currentPiece g) + Z.of_nat c < COLS /\
    Piece.y (currentPiece g) + Z.of_nat r < ROWS.
Proof.
  intros Hreach. destruct (reachable_Inv g Hreach) as (_ & _ & Hin & _).
  exact Hin.
Qed.

Lemma C2_witness :
  0 <= Piece.x (currentPiece played) + 0 < COLS /\
  Piece.y (currentPiece played) + 1 < ROWS.
Proof.
  apply (C2_reachable_piece_cells_in_bounds played) with
    (shape := [[1; 1]; [1; 1]]) (r := 1%nat) (c := 0%nat).
  - exists (start 0). split.
    + exists loaded, 0%nat. split; [cbn; lia | reflexivity].
    + apply (run_steps enough_fuel some_play).
      * repeat constructor; cbn; lia.
      * vm_compute. reflexivity.
  - reflexivity.
  - exists [1; 1], 1. repeat split.
Defined.

(** ** Rotation with kicks *)

Lemma next_rotation_same (ri len : nat) :
  (ri < len)%nat -> ((ri + 1) `mod` len)%nat = ri -> len = 1%nat.
Proof.
  intros Hlt Hmod.
  destruct (decide (ri + 1 = len)%nat) as [Heq | Hne].
  - rewrite Heq, Nat.Div0.mod_same in Hmod. lia.
  - rewrite Nat.mod_small in Hmod by lia. lia.
Qed.

Lemma collides_true_not_false (g : Game) (offsetX offsetY : Z) (rot : nat) :
  collides offsetX offsetY rot g = Ok (true, g) ->
  collides offsetX offsetY rot g = Ok (false, g) -> False.
Proof. intros -> H. discriminate. Qed.

Lemma set_currentPiece_fixed (g : Game) (n : string) (rots : list Shape)
    (col : string) (ri : nat) (x y : Z) :
  g = set_currentPiece (Piece.mk n rots col ri x y) g ->
  ri = Piece.rotationIndex (currentPiece g) /\ x = Piece.x (currentPiece g).
Proof.
  destruct g as [b p ? ? ? ? ? ? ?]. unfold set_currentPiece. cbn.
  intros H. injection H as ->. cbn. auto.
Qed.

(** C3 (amended).  On a board of the right size and with a valid rotation
    index, [rotate] returns.  With [nextRotation = (rotationIndex + 1) mod
    rotations.length] it tests the offsets [0, -1, 1, -2, 2] in this order
    with [collides(offset, 0, nextRotation)]: when all five collide the
    state is unchanged; otherwise the first offset that does not collide is
    added to [x] and [rotationIndex] becomes [nextRotation], nothing else
    changes.  The state is unchanged exactly when all five offsets collide,
    or when the piece has a single rotation state and offset [0] does not
    collide (the rotation then succeeds onto the same state). *)
Theorem C3_rotate_applies_first_free_kick (g : Game) :
  wf_board (board g) ->
  (Piece.rotationIndex (currentPiece g)
   < length (Piece.rotations (currentPiece g)))%nat ->
  let p := currentPiece g in
  let nextRotation :=
    ((Piece.rotationIndex p + 1) `mod` length (Piece.rotations p))%nat in
  let collide (offset : Z) := collides offset 0 nextRotation g = Ok (true, g) in
  kicks = [0; -1; 1; -2; 2] /\
  exists g' : Game,
    rotate g = Ok (tt, g') /\
    ((Forall collide kicks /\ g' = g) \/
     (exists (before : list Z) (offset : Z) (after : list Z),
        kicks = before ++ offset :: after /\
        Forall collide before /\
        collides offset 0 nextRotation g = Ok (false, g) /\
        g' = set_currentPiece
               (Piece.mk (Piece.name p) (Piece.rotations p) (Piece.colour p)
                         nextRotation (Piece.x p + offset) (Piece.y p)) g)) /\
    (g' = g <->
     Forall collide kicks \/
     (length (Piece.rotations p) = 1%nat /\
      collides 0 0 nextRotation g = Ok (false, g))).
Proof.
  intros Hwf Hrot. cbv zeta.
  remember (currentPiece g) as p eqn:Hp.
  remember ((Piece.rotationIndex p + 1) `mod` length (Piece.rotations p))%nat
    as nextRotation eqn:Hnr.
  set (collide := fun offset : Z =>
                    collides offset 0 nextRotation g = Ok (true, g)).
  split; [reflexivity |].
  assert (Hnext : (nextRotation < length (Piece.rotations p))%nat).
  { rewrite Hnr. apply Nat.mod_upper_bound. lia. }
  assert (Hrun : rotate g = rotate_loop nextRotation kicks g).
  { unfold rotate, bind at 1, get. rewrite <- Hp.
    destruct (length (Piece.rotations p)) eqn:E; [lia |].
    rewrite Hnr. reflexivity. }
  destruct (rotate_loop_total nextRotation kicks g Hwf) as [g' Hloop].
  { rewrite <- Hp. exact Hnext. }
  exists g'. split; [rewrite Hrun; exact Hloop |].
  pose proof (rotate_loop_inv _ _ _ _ Hloop) as Hcases.
  rewrite <- Hp in Hcases. fold collide in Hcases.
  split; [exact Hcases |].
  assert (Hhead : forall (before : list Z) (offset : Z) (after : list Z),
            kicks = before ++ offset :: after ->
            Forall collide before ->
            collides offset 0 nextRotation g = Ok (false, g) ->
            collides 0 0 nextRotation g = Ok (false, g) ->
            before = [] /\ offset = 0).
  { intros before offset after Hk Hb Ho H0.
    destruct before as [|o before].
    - injection Hk as <- _. auto.
    - injection Hk as <- _. inversion Hb as [|? ? Hc _].
      destruct (collides_true_not_false _ _ _ _ Hc H0). }
  split.
  - intros ->.
    destruct Hcases as [[Hall _] | (before & offset & after & Hk & Hb & Ho & Hg)];
      [left; exact Hall |].
    right. apply set_currentPiece_fixed in Hg. rewrite <- Hp in Hg.
    destruct Hg as [Hri Hx]. cbn [Piece.x Piece.set_x] in Hx.
    assert (offset = 0) as -> by lia.
    split; [| exact Ho].
    rewrite Hnr in Hri. exact (next_rotation_same _ _ Hrot Hri).
  - intros [Hall | [Hone H0]].
    + destruct Hcases as [[_ ->] | (before & offset & after & Hk & Hb & Ho & Hg)];
        [reflexivity |].
      exfalso. rewrite Forall_forall in Hall.
      apply (collides_true_not_false g offset 0 nextRotation); [| exact Ho].
      apply Hall. rewrite Hk. apply list_elem_of_In, in_elt.
    + destruct Hcases as [[Hall _] | (before & offset & after & Hk & Hb & Ho & ->)].
      * exfalso. inversion Hall as [|? ? Hc _].
        exact (collides_true_not_false _ _ _ _ Hc H0).
      * destruct (Hhead before offset after Hk Hb Ho H0) as [-> ->].
        assert (Hn0 : nextRotation = Piece.rotationIndex p).
        { rewrite Hnr, Hone, Nat.mod_1_r. lia. }
        rewrite Hn0, Z.add_0_r, Hp.
        destruct g as [b [n r c ri x y] ? ? ? ? ? ? ?]. reflexivity.
Qed.

Lemma wf_board_start_3 : wf_board (board (start 3)).
Proof. split; [reflexivity | repeat constructor]. Qed.

Lemma C3_witness :
  exists g' : Game,
    rotate (start 2) = Ok (tt, g') /\
    Piece.rotationIndex (currentPiece g') = 1%nat.
Proof.
  assert (Hwf : wf_board (board (start 2)))
    by (split; [reflexivity | repeat constructor]).
  assert (Hrot : (Piece.rotationIndex (currentPiece (start 2))
                  < length (Piece.rotations (currentPiece (start 2))))%nat)
    by (vm_compute; lia).
  destruct (C3_rotate_applies_first_free_kick (start 2) Hwf Hrot)
    as (_ & g' & Hrun & _ & _).
  exists g'. split; [exact Hrun |].
  vm_compute in Hrun. injection Hrun as <-. reflexivity.
Defined.

(** The literal sentence fails for the O piece, which has one rotation
    state: on a fresh board [rotate] succeeds with offset [0] and lands on
    the state it started from, although not all five offsets collide. *)
Lemma C3_counterexample : ~ rotate_unchanged_iff_all_collide (start 3).
Proof.
  intros H. specialize (H (start 3) eq_refl).
  destruct H as [H _]. specialize (H eq_refl).
  inversion H as [|? ? Hc _]. vm_compute in Hc. discriminate Hc.
Qed.

(** ** The drop interval *)

Lemma interval_change_refl (g : Game) : interval_change g g.
Proof. left. split; [reflexivity | lia]. Qed.

Lemma clearLines_interval (fuel : nat) (g g' : Game) :
  clearLines fuel g = Ok (tt, g') -> interval_change g g'.
Proof.
  intros H. destruct (clearLines_inv _ _ _ H) as (b & n & Hloop).
  destruct (clearLines_run fuel g b n Hloop)
    as (g'' & Hrun & _ & _ & _ & _ & Hl & Hd & _).
  rewrite H in Hrun. injection Hrun as <-.
  unfold interval_change. rewrite Hd, Hl.
  destruct (0 <? n)%nat eqn:Hn; cbn [andb]; [| left; split; [reflexivity | lia]].
  apply Nat.ltb_lt in Hn.
  destruct (Z.rem (linesCleared g + Z.of_nat n) 10 =? 0) eqn:Hrem; cbn [andb];
    [| left; split; [reflexivity | lia]].
  destruct (dropInterval g >? 200) eqn:Hfloor;
    [| left; split; [reflexivity | lia]].
  right. apply Z.eqb_eq in Hrem. apply Z.gtb_lt in Hfloor. lia.
Qed.

Lemma spawn_keeps_interval (index : nat) (g g' : Game) :
  spawn index g = Ok (tt, g') ->
  dropInterval g' = dropInterval g /\ linesCleared g' = linesCleared g /\
  score g' = score g /\ board g' = board g.
Proof.
  intros H. destruct (spawn_inv _ _ _ H) as (p & res & _ & _ & Hend).
  destruct res; [| subst g'; auto].
  destruct (endGame_spec (set_currentPiece p g))
    as (g'' & Hg'' & _ & Hb & _ & Hs & Hl & Hd & _).
  rewrite Hend in Hg''. injection Hg'' as <-. auto.
Qed.

Lemma placePiece_interval (fuel index : nat) (g g' : Game) :
  placePiece fuel index g = Ok (tt, g') -> interval_change g g'.
Proof.
  intros H. destruct (placePiece_inv _ _ _ _ H) as (g1 & g2 & H1 & H2 & H3).
  destruct (lockCells_inv _ _ H1) as [b' ->].
  pose proof (clearLines_interval _ _ _ H2) as Hc.
  destruct (spawn_keeps_interval _ _ _ H3) as (Hd & Hl & _).
  unfold interval_change in *. rewrite Hd, Hl. exact Hc.
Qed.

Lemma move_keeps_interval (dir : Z) (g g' : Game) :
  move dir g = Ok (tt, g') ->
  dropInterval g' = dropInterval g /\ linesCleared g' = linesCleared g.
Proof.
  intros H. destruct (move_inv _ _ _ H) as (res & _ & ->).
  destruct res; auto.
Qed.

Lemma rotate_keeps_interval (g g' : Game) :
  rotate g = Ok (tt, g') ->
  dropInterval g' = dropInterval g /\ linesCleared g' = linesCleared g.
Proof.
  intros H. destruct (rotate_inv _ _ H) as [_ Hloop].
  destruct (rotate_loop_inv _ _ _ _ Hloop) as [[_ ->] | (? & ? & ? & _ & _ & _ & ->)];
    auto.
Qed.

Lemma fall_interval (fuel index : nat) (g g' : Game) :
  fall fuel index g = Ok (tt, g') -> interval_change g g'.
Proof.
  intros H. destruct (fall_inv _ _ _ _ H) as (res & _ & Hres).
  destruct res; [exact (placePiece_interval _ _ _ _ Hres) |].
  subst g'. left. cbn. split; [reflexivity | lia].
Qed.

Lemma hardDrop_interval (fuel index : nat) (g g' : Game) :
  hardDrop fuel index g = Ok (tt, g') -> interval_change g g'.
Proof.
  intros H. destruct (hardDrop_inv _ _ _ _ H) as (dy & _ & Hplace).
  exact (placePiece_interval _ _ _ _ Hplace).
Qed.

Lemma exec_interval (fuel : nat) (o : op) (g g' : Game) :
  exec fuel o g = Ok (tt, g') -> interval_change g g'.
Proof.
  intros H. destruct o as [dir| |index|index|index|index|index k];
    cbn [exec] in H.
  - destruct (move_keeps_interval _ _ _ H) as [Hd Hl]. left. lia.
  - destruct (rotate_keeps_interval _ _ H) as [Hd Hl]. left. lia.
  - exact (fall_interval _ _ _ _ H).
  - exact (hardDrop_interval _ _ _ _ H).
  - unfold drop, bind at 1, get in H. destruct (isGameOver g).
    + unfold ret in H. injection H as <-. apply interval_change_refl.
    + exact (fall_interval _ _ _ _ H).
  - exact (placePiece_interval _ _ _ _ H).
  - unfold keydown, bind at 1, get in H. destruct (isGameOver g).
    + unfold ret in H. injection H as <-. apply interval_change_refl.
    + destruct k;
        try (destruct (move_keeps_interval _ _ _ H) as [Hd Hl]; left; lia);
        try (destruct (rotate_keeps_interval _ _ H) as [Hd Hl]; left; lia);
        try exact (fall_interval _ _ _ _ H);
        try exact (hardDrop_interval _ _ _ _ H).
      unfold ret in H. injection H as <-. apply interval_change_refl.
Qed.

Lemma interval_change_values (g g' : Game) :
  interval_change g g' ->
  In (dropInterval g) intervals -> In (dropInterval g') intervals.
Proof.
  unfold intervals. cbn [In].
  intros [[-> _] | (-> & Hfloor & _)]; [auto |]. intros Hin.
  repeat (destruct Hin as [Heq | Hin]; [lia |]). destruct Hin.
Qed.

(** C6.  The drop interval changes only in [clearLines], and there only
    when lines were cleared, [linesCleared % 10 == 0] holds after the
    increment and the interval exceeds 200; it then decreases by exactly
    100.  [lockCells], [spawn], [endGame], [move] and [rotate] leave it
    alone.  Hence one operation changes it by nothing or by -100, along a
    session it never increases, and in every reachable state it is one of
    1000, 900, ..., 200, so never below 200. *)
Theorem C6_dropInterval_only_decreases :
  (forall (fuel : nat) (g g' : Game),
     clearLines fuel g = Ok (tt, g') ->
     dropInterval g' = dropInterval g \/
     (dropInterval g' = dropInterval g - 100 /\
      200 < dropInterval g /\
      Z.rem (linesCleared g') 10 = 0 /\
      linesCleared g < linesCleared g')) /\
  (forall (g g' : Game),
     lockCells g = Ok (tt, g') \/
     (exists index : nat, spawn index g = Ok (tt, g')) \/
     endGame g = Ok (tt, g') \/
     (exists dir : Z, move dir g = Ok (tt, g')) \/
     rotate g = Ok (tt, g') ->
     dropInterval g' = dropInterval g) /\
  (forall g g' : Game, step g g' -> interval_change g g') /\
  (forall g g' : Game, steps g g' -> dropInterval g' <= dropInterval g) /\
  (forall g : Game, fresh g -> dropInterval g = 1000) /\
  (forall g : Game,
     reachable g ->
     In (dropInterval g) [1000; 900; 800; 700; 600; 500; 400; 300; 200] /\
     200 <= dropInterval g <= 1000).
Proof.
  assert (Hsteps : forall g g' : Game,
            steps g g' ->
            dropInterval g' <= dropInterval g /\
            (In (dropInterval g) intervals -> In (dropInterval g') intervals)).
  { induction 1 as [g | g1 g2 g3 _ [IHle IHin] (fuel & o & _ & Hexec)].
    - split; [lia | auto].
    - pose proof (exec_interval _ _ _ _ Hexec) as Hc. split.
      + destruct Hc as [[-> _] | (-> & _)]; lia.
      + intros Hin. exact (interval_change_values _ _ Hc (IHin Hin)). }
  assert (Hfresh : forall g : Game, fresh g -> dropInterval g = 1000).
  { intros g (g0 & index & Hindex & Hreset).
    destruct (resetGame_spec index g0 Hindex)
      as (g' & Hrun & _ & _ & _ & _ & Hd & _).
    rewrite Hreset in Hrun. injection Hrun as <-. exact Hd. }
  split; [| split; [| split; [| split; [| split]]]].
  - intros fuel g g' H.
    destruct (clearLines_interval _ _ _ H) as [[Hd _] | Hd]; auto.
  - intros g g' [H | [[index H] | [H | [[dir H] | H]]]].
    + destruct (lockCells_inv _ _ H) as [b' ->]. reflexivity.
    + apply (spawn_keeps_interval _ _ _ H).
    + destruct (endGame_spec g) as (g'' & Hg'' & _ & _ & _ & _ & _ & Hd & _).
      rewrite H in Hg''. injection Hg'' as <-. exact Hd.
    + apply (move_keeps_interval _ _ _ H).
    + apply (rotate_keeps_interval _ _ H).
  - intros g g' (fuel & o & _ & Hexec). exact (exec_interval _ _ _ _ Hexec).
  - intros g g' H. apply (Hsteps g g' H).
  - exact Hfresh.
  - intros g (g1 & Hf & Hs).
    assert (Hin : In (dropInterval g) intervals).
    { apply (Hsteps g1 g Hs). rewrite (Hfresh g1 Hf). left. reflexivity. }
    split; [exact Hin |].
    unfold intervals in Hin. cbn [In] in Hin. lia.
Qed.

Lemma C6_witness :
  dropInterval after_speedup = 900 /\ linesCleared after_speedup = 10.
Proof.
  assert (Hrun : clearLines enough_fuel near_speedup = Ok (tt, after_speedup))
    by (vm_compute; reflexivity).
  destruct C6_dropInterval_only_decreases as (Hclear & _).
  destruct (Hclear enough_fuel near_speedup after_speedup Hrun)
    as [Hsame | (Hless & _)].
  - vm_compute in Hsame. discriminate Hsame.
  - split; [exact Hless | vm_compute; reflexivity].
Defined.

(** ** Hard drop, as a whole *)

(** The descent found by the search loop is determined by its two
    properties. *)
Lemma landing_unique (g : Game) (rot : nat) (dy1 dy2 : Z) :
  0 <= dy1 -> 0 <= dy2 ->
  (forall d : Z, 1 <= d <= dy1 -> collides 0 d rot g = Ok (false, g)) ->
  collides 0 (dy1 + 1) rot g = Ok (true, g) ->
  (forall d : Z, 1 <= d <= dy2 -> collides 0 d rot g = Ok (false, g)) ->
  collides 0 (dy2 + 1) rot g = Ok (true, g) ->
  dy1 = dy2.
Proof.
  intros H1 H2 Hf1 Ht1 Hf2 Ht2.
  destruct (Z.lt_trichotomy dy1 dy2) as [Hlt | [Heq | Hgt]]; [| exact Heq |].
  - destruct (collides_true_not_false _ _ _ _ Ht1 (Hf2 (dy1 + 1) ltac:(lia))).
  - destruct (collides_true_not_false _ _ _ _ Ht2 (Hf1 (dy2 + 1) ltac:(lia))).
Qed.

Lemma clearLines_fuel (fuel : nat) (g : Game) :
  wf_board (board g) -> (enough_fuel <= fuel)%nat ->
  clearLines fuel g = clearLines enough_fuel g.
Proof.
  intros Hwf Hfuel. unfold clearLines, bind, get, lift.
  rewrite (clearLines_loop_wf fuel _ Hwf Hfuel).
  rewrite (clearLines_loop_wf enough_fuel _ Hwf (Nat.le_refl _)).
  reflexivity.
Qed.

Lemma placePiece_fuel (fuel index : nat) (g : Game) :
  Inv g -> (enough_fuel <= fuel)%nat ->
  placePiece fuel index g = placePiece enough_fuel index g.
Proof.
  intros (Hwf & [_ Hrot] & Hin & _) Hfuel.
  destruct (lookup_lt_is_Some_2 _ _ Hrot) as [shape Hshape].
  destruct (lockCells_spec g shape Hwf Hshape Hin) as (b' & Hlock & Hwf' & _).
  unfold placePiece. rewrite !(bind_Ok _ _ _ _ _ Hlock).
  unfold bind. rewrite (clearLines_fuel fuel (set_board b' g) Hwf' Hfuel).
  reflexivity.
Qed.

(** What [hardDrop] does from a state of a session. *)
Lemma hardDrop_spec (fuel index : nat) (g : Game) :
  Inv g -> (enough_fuel <= fuel)%nat -> (index < length PIECES)%nat ->
  exists (dy : Z) (g' : Game),
    hardDrop_loop fuel 0 g = Ok (dy, g) /\
    0 <= dy /\
    (forall d : Z,
       1 <= d <= dy ->
       collides 0 d (Piece.rotationIndex (currentPiece g)) g = Ok (false, g)) /\
    collides 0 (dy + 1) (Piece.rotationIndex (currentPiece g)) g
    = Ok (true, g) /\
    hardDrop fuel index g = Ok (tt, g') /\
    placePiece fuel index
      (set_currentPiece
         (Piece.set_y (Piece.y (currentPiece g) + dy) (currentPiece g)) g)
    = Ok (tt, g').
Proof.
  intros Hinv Hfuel Hindex.
  destruct (hardDrop_total fuel index g Hinv Hfuel Hindex) as [g' Hrun].
  destruct (hardDrop_inv _ _ _ _ Hrun) as (dy & Hloop & Hplace).
  destruct (hardDrop_loop_inv _ _ _ _ _ Hloop) as (_ & Hle & Htrue & Hfalse).
  exists dy, g'. split; [exact Hloop |]. split; [exact Hle |].
  split; [intros d Hd; apply Hfalse; lia |].
  split; [exact Htrue |]. split; [exact Hrun | exact Hplace].
Qed.

Lemma hardDrop_fuel (fuel index : nat) (g : Game) :
  Inv g -> (enough_fuel <= fuel)%nat -> (index < length PIECES)%nat ->
  hardDrop fuel index g = hardDrop enough_fuel index g.
Proof.
  intros Hinv Hfuel Hindex.
  destruct (hardDrop_spec fuel index g Hinv Hfuel Hindex)
    as (dy1 & g1 & _ & H1 & Hf1 & Ht1 & Hrun1 & Hplace1).
  destruct (hardDrop_spec enough_fuel index g Hinv (Nat.le_refl _) Hindex)
    as (dy2 & g2 & Hloop2 & H2 & Hf2 & Ht2 & Hrun2 & Hplace2).
  pose proof (landing_unique g _ dy1 dy2 H1 H2 Hf1 Ht1 Hf2 Ht2) as ->.
  rewrite Hrun1, Hrun2. rewrite <- Hplace1, <- Hplace2.
  apply placePiece_fuel; [| exact Hfuel].
  exact (hardDrop_landing_Inv _ _ _ Hinv Hloop2).
Qed.

Lemma Inv_start (index : nat) : (index < length PIECES)%nat -> Inv (start index).
Proof.
  intros Hindex. apply fresh_Inv. exists loaded, index.
  split; [exact Hindex |].
  destruct (resetGame_spec index loaded Hindex) as (g & Hrun & _).
  unfold start. rewrite Hrun. reflexivity.
Qed.

(** C7.  From a state of a session [hardDrop] returns.  Its loop finds the
    descent [dy >= 0] with [collides(0, d, rotationIndex)] false for every
    [d] from 1 to [dy] and true for [dy + 1]; no greater descent has the
    first property, so [dy] is maximal, and when the start position does
    not collide, the position [dy] rows down does not either.  The piece is
    then locked [dy] rows down.  In the scenario (new session, O piece at
    [x = 4], [y = -1], empty board) the four cells end in rows 18 and 19,
    columns 4 and 5, and score and line count stay 0. *)
Theorem C7_hardDrop_lands_at_maximal_descent :
  (forall (g : Game) (fuel index : nat),
     Inv g -> (enough_fuel <= fuel)%nat -> (index < length PIECES)%nat ->
     let rot := Piece.rotationIndex (currentPiece g) in
     exists (dy : Z) (g' : Game),
       hardDrop_loop fuel 0 g = Ok (dy, g) /\
       0 <= dy /\
       (forall d : Z, 1 <= d <= dy -> collides 0 d rot g = Ok (false, g)) /\
       collides 0 (dy + 1) rot g = Ok (true, g) /\
       (forall dy' : Z,
          0 <= dy' ->
          (forall d : Z, 1 <= d <= dy' -> collides 0 d rot g = Ok (false, g)) ->
          dy' <= dy) /\
       (collides 0 0 rot g = Ok (false, g) ->
        collides 0 dy rot g = Ok (false, g)) /\
       hardDrop fuel index g = Ok (tt, g') /\
       placePiece fuel index
         (set_currentPiece
            (Piece.set_y (Piece.y (currentPiece g) + dy) (currentPiece g)) g)
       = Ok (tt, g')) /\
  (board (start 3) = replicate (Z.to_nat ROWS) (replicate (Z.to_nat COLS) None) /\
   Piece.name (currentPiece (start 3)) = "O"%string /\
   Piece.x (currentPiece (start 3)) = 4 /\
   Piece.y (currentPiece (start 3)) = -1 /\
   forall fuel index : nat,
     (enough_fuel <= fuel)%nat -> (index < length PIECES)%nat ->
     exists g' : Game,
       hardDrop fuel index (start 3) = Ok (tt, g') /\
       board g' = o_landed_board /\
       score g' = Int 0 /\
       linesCleared g' = 0).
Proof.
  split.
  - intros g fuel index Hinv Hfuel Hindex rot.
    destruct (hardDrop_spec fuel index g Hinv Hfuel Hindex)
      as (dy & g' & Hloop & Hle & Hfalse & Htrue & Hrun & Hplace).
    exists dy, g'. fold rot in Hfalse, Htrue.
    split; [exact Hloop |]. split; [exact Hle |]. split; [exact Hfalse |].
    split; [exact Htrue |]. split; [| split; [| split; assumption]].
    + intros dy' Hdy' Hfree.
      destruct (Z.le_gt_cases dy' dy) as [Hok | Hgt]; [exact Hok |].
      destruct (collides_true_not_false _ _ _ _ Htrue (Hfree (dy + 1) ltac:(lia))).
    + intros Hstart. destruct (decide (dy = 0)) as [-> | Hne]; [exact Hstart |].
      apply Hfalse. lia.
  - split; [reflexivity |]. split; [reflexivity |]. split; [reflexivity |].
    split; [reflexivity |].
    intros fuel index Hfuel Hindex.
    rewrite (hardDrop_fuel fuel index (start 3) (Inv_start 3 ltac:(cbn; lia))
               Hfuel Hindex).
    do 7 (destruct index as [|index];
          [eexists; split; [vm_compute; reflexivity |];
           split; [vm_compute; reflexivity |]; split; reflexivity |]).
    cbn in Hindex. lia.
Qed.

Lemma C7_witness :
  exists (dy : Z) (g' : Game),
    hardDrop_loop enough_fuel 0 (start 3) = Ok (dy, start 3) /\
    hardDrop enough_fuel 0 (start 3) = Ok (tt, g').
Proof.
  destruct C7_hardDrop_lands_at_maximal_descent as [Hgen _].
  destruct (Hgen (start 3) enough_fuel 0%nat
              (Inv_start 3 ltac:(cbn; lia)) (Nat.le_refl _) ltac:(cbn; lia))
    as (dy & g' & Hloop & _ & _ & _ & _ & _ & Hrun & _).
  exists dy, g'. split; [exact Hloop | exact Hrun].
Defined.

(** ** Lock and game over *)

(** C8.  Any run of [placePiece] that returns has written the board
    ([lockCells]), cleared lines ([clearLines]), made the drawn piece the
    active piece, and evaluated [collides(0, 0, rotationIndex)] on it.  The
    session is over afterwards exactly when it was over before or this test
    answered [true]; so from a running session, exactly when the new piece
    collides where it spawned.  When it does not, nothing else happens.  When
    it does, [isGameOver] is set and the timer in [dropTimer] is cancelled
    (no timer is started), while board, counters and interval stay as line
    clearing left them.  From a state of a session [placePiece] returns, and
    the lock writes the colour of the piece at its cells in rows [y >= 0]
    and leaves all other cells of the board as they were. *)
Theorem C8_game_over_iff_spawned_piece_collides :
  (forall (fuel index : nat) (g g' : Game),
     placePiece fuel index g = Ok (tt, g') ->
     exists (g1 g2 : Game) (p : Piece.t) (res : bool),
       lockCells g = Ok (tt, g1) /\
       clearLines fuel g1 = Ok (tt, g2) /\
       randomPiece index g2 = Ok (p, g2) /\
       collides 0 0 (Piece.rotationIndex p) (set_currentPiece p g2)
       = Ok (res, set_currentPiece p g2) /\
       currentPiece g' = p /\
       board g' = board g2 /\
       score g' = score g2 /\
       linesCleared g' = linesCleared g2 /\
       dropInterval g' = dropInterval g2 /\
       isGameOver g' = isGameOver g || res /\
       (isGameOver g = false -> (isGameOver g' = true <-> res = true)) /\
       (res = false -> g' = set_currentPiece p g2) /\
       (res = true ->
        isGameOver g' = true /\
        (forall (id : nat) (period : Z),
           dropTimer g2 = Some id -> ~ In (id, period) (timers g')) /\
        (forall t : nat * Z, In t (timers g') -> In t (timers g2)))) /\
  (forall (fuel index : nat) (g : Game) (shape : Shape),
     Inv g ->
     Piece.rotations (currentPiece g) !! Piece.rotationIndex (currentPiece g)
     = Some shape ->
     (enough_fuel <= fuel)%nat -> (index < length PIECES)%nat ->
     exists (b1 : Board) (g' : Game),
       lockCells g = Ok (tt, set_board b1 g) /\
       (forall y x : Z,
          written (currentPiece g) shape y x ->
          cell_at b1 y x = Some (Piece.colour (currentPiece g))) /\
       (forall y x : Z,
          ~ written (currentPiece g) shape y x ->
          cell_at b1 y x = cell_at (board g) y x) /\
       placePiece fuel index g = Ok (tt, g') /\
       Piece.rotationIndex (currentPiece g') = 0%nat /\
       Piece.y (currentPiece g') = -1).
Proof.
  split.
  - intros fuel index g g' H.
    destruct (placePiece_inv _ _ _ _ H) as (g1 & g2 & H1 & H2 & H3).
    destruct (spawn_inv _ _ _ H3) as (p & res & Hp & Hc & Hend).
    exists g1, g2, p, res.
    split; [exact H1 |]. split; [exact H2 |]. split; [exact Hp |].
    split; [exact Hc |].
    assert (Hover : isGameOver g2 = isGameOver g).
    { destruct (lockCells_inv _ _ H1) as [b' ->].
      destruct (clearLines_keeps _ _ _ H2) as (_ & -> & _). reflexivity. }
    destruct res.
    + destruct (endGame_spec (set_currentPiece p g2))
        as (g'' & Hg'' & Hflag & Hb & Hpc & Hs & Hl & Hd & Hcancel & Hsub).
      rewrite Hend in Hg''. injection Hg'' as <-.
      rewrite Hflag, Hb, Hpc, Hs, Hl, Hd, orb_true_r.
      do 6 (split; [reflexivity |]).
      split; [intros _; tauto |]. split; [discriminate |].
      intros _. split; [reflexivity |]. split; [exact Hcancel | exact Hsub].
    + subst g'. cbn [currentPiece board score linesCleared dropInterval
        isGameOver set_currentPiece]. rewrite Hover, orb_false_r.
      do 6 (split; [reflexivity |]).
      split; [intros ->; split; discriminate |].
      split; [reflexivity | discriminate].
  - intros fuel index g shape Hinv Hshape Hfuel Hindex.
    pose proof Hinv as (Hwf & _ & Hin & _).
    destruct (lockCells_spec g shape Hwf Hshape Hin)
      as (b1 & Hlock & _ & Hwr & Hfr).
    destruct (placePiece_total fuel index g Hinv Hfuel Hindex) as [g' Hrun].
    exists b1, g'. split; [exact Hlock |]. split; [exact Hwr |]. split.
    { intros y x Hnot. destruct (Hfr y x) as [Heq | Hw]; [exact Heq | tauto]. }
    split; [exact Hrun |].
    destruct (placePiece_inv _ _ _ _ Hrun) as (g1 & g2 & _ & _ & H3).
    destruct (spawn_inv _ _ _ H3) as (p & res & Hp & _ & Hend).
    destruct (randomPiece_spec index g2 Hindex)
      as (p' & def & Hp' & _ & _ & _ & _ & Hri & Hy & _).
    rewrite Hp in Hp'. injection Hp' as <-.
    destruct res; [| subst g'; auto].
    destruct (endGame_spec (set_currentPiece p g2))
      as (g'' & Hg'' & _ & _ & Hpc & _).
    rewrite Hend in Hg''. injection Hg'' as <-. rewrite Hpc. auto.
Qed.

Lemma C8_witness : isGameOver locked_at_spawn = true.
Proof.
  assert (Hrun : placePiece enough_fuel 3 (start 3) = Ok (tt, locked_at_spawn))
    by (vm_compute; reflexivity).
  destruct C8_game_over_iff_spawned_piece_collides as [Hany _].
  destruct (Hany enough_fuel 3%nat (start 3) locked_at_spawn Hrun)
    as (g1 & g2 & p & res & _ & _ & _ & _ & _ & _ & _ & _ & _ & Hover & Hiff & _).
  apply Hiff; [vm_compute; reflexivity |].
  vm_compute in Hover. symmetry. exact Hover.
Defined.

(** ** The catalog, again *)

(** C9 (amended).  The catalog has exactly 7 variants, named I, J, L, O, S,
    T, Z in this order.  All rotation states of a variant are square
    matrices of one dimension: 4x4 for I (two states), 3x3 for J, L and T
    (four states each), 2x2 for O (one state), and 3x3 for S and Z, which
    have two states each.  The variants that fit the classification of the
    specification are therefore I, J, L, O and T. *)
Theorem C9_catalog_states_and_dimensions :
  length PIECES = 7%nat /\
  length catalog_table = 7%nat /\
  Forall2 (fun def entry => matches_entry def entry = true)
          PIECES catalog_table /\
  map Def.name (List.filter matches_classification PIECES)
  = ["I"; "J"; "L"; "O"; "T"]%string.
Proof.
  split; [reflexivity |]. split; [reflexivity |]. split.
  - unfold PIECES, catalog_table. repeat constructor.
  - vm_compute. reflexivity.
Qed.

(** The classification of the specification fails on the catalog: S has
    two rotation states and these are 3x3, not 4x4. *)
Lemma C9_counterexample :
  ~ (length PIECES = 7%nat /\
     Forall (fun def => matches_classification def = true) PIECES).
Proof.
  intros [_ H]. rewrite Forall_lookup in H.
  specialize (H 4%nat _ eq_refl). vm_compute in H. discriminate H.
Qed.

(** ** Termination of the hard-drop loop *)

(** C10.  Every rotation state of every variant of the catalog has an
    occupied cell.  Hence, whatever the board of the right size and wherever
    the piece is, some [dy] between [0] and [ROWS - y] (or [0], if that is
    negative) has [collides(0, dy + 1, rotationIndex)] true, and the loop of
    [hardDrop] returns such a [dy] as soon as its budget allows
    [ROWS - y + 1] tests: it never runs longer. *)
Theorem C10_hardDrop_loop_terminates :
  Forall (fun def =>
            Forall (fun shape => exists r c : nat, occupied shape r c)
                   (Def.rotations def))
         PIECES /\
  forall g : Game,
    wf_board (board g) -> piece_ok (currentPiece g) ->
    let rot := Piece.rotationIndex (currentPiece g) in
    let bound := Z.max 0 (ROWS - Piece.y (currentPiece g)) in
    (exists dy : Z,
       0 <= dy <= bound /\ collides 0 (dy + 1) rot g = Ok (true, g)) /\
    (forall fuel : nat,
       (Z.to_nat bound + 1 <= fuel)%nat ->
       exists dy : Z,
         hardDrop_loop fuel 0 g = Ok (dy, g) /\
         0 <= dy <= bound /\
         collides 0 (dy + 1) rot g = Ok (true, g)).
Proof.
  split.
  - rewrite Forall_forall. intros def Hdef.
    rewrite Forall_forall. intros shape Hshape.
    apply has_cell_occupied.
    pose proof catalog_has_cells as Hcat. rewrite forallb_forall in Hcat.
    specialize (Hcat def (proj1 (list_elem_of_In _ _) Hdef)).
    rewrite forallb_forall in Hcat. apply Hcat.
    apply list_elem_of_In. exact Hshape.
  - intros g Hwf Hok rot bound.
    destruct (lookup_lt_is_Some_2 _ _ (proj2 Hok)) as [shape Hshape].
    destruct (piece_ok_shape _ _ _ Hok Hshape) as (r & c & Hocc).
    assert (Hloop : forall fuel : nat,
              (Z.to_nat bound + 1 <= fuel)%nat ->
              exists dy : Z,
                hardDrop_loop fuel 0 g = Ok (dy, g) /\
                0 <= dy <= bound /\
                collides 0 (dy + 1) rot g = Ok (true, g)).
    { intros fuel Hfuel.
      destruct (hardDrop_loop_total fuel 0 g shape r c Hwf Hshape Hocc)
        as [dy Hrun].
      { subst bound. lia. }
      destruct (hardDrop_loop_inv _ _ _ _ _ Hrun) as (_ & Hle & Htrue & Hfalse).
      exists dy. split; [exact Hrun |]. split; [| exact Htrue].
      split; [exact Hle |].
      destruct (decide (dy = 0)) as [-> | Hne]; [subst bound; lia |].
      pose proof (collides_false_bounds g 0 dy _ shape r c Hwf Hshape
                    (Hfalse dy ltac:(lia)) Hocc) as [_ Hy].
      subst bound. lia. }
    split; [| exact Hloop].
    destruct (Hloop (Z.to_nat bound + 1)%nat (Nat.le_refl _))
      as (dy & _ & Hdy & Htrue).
    exists dy. auto.
Qed.

Lemma C10_witness :
  exists dy : Z,
    hardDrop_loop 22 0 (start 3) = Ok (dy, start 3) /\ 0 <= dy <= 21.
Proof.
  destruct C10_hardDrop_loop_terminates as [_ Hgen].
  destruct (Hgen (start 3) wf_board_start_3
              (proj1 (proj2 (Inv_start 3 ltac:(cbn; lia)))))
    as [_ Hloop].
  destruct (Hloop 22%nat ltac:(vm_compute; lia)) as (dy & Hrun & Hdy & _).
  exists dy. split; [exact Hrun | exact Hdy].
Defined.

(** ** At most four rows are cleared at once *)

Lemma clearLines_loop_more_fuel (fuel : nat) :
  forall (b : Board) (row : Z) (n : nat) (res : list (list (option string)) * nat)
         (k : nat),
    clearLines_loop fuel b row n = Ok res ->
    clearLines_loop (fuel + k) b row n = Ok res.
Proof.
  induction fuel as [|fuel IH]; intros b row n res k H; [discriminate |].
  cbn [clearLines_loop Nat.add] in *.
  destruct (row >=? 0); [| exact H].
  destruct (index b row) as [cells|]; [| discriminate].
  destruct (row_full cells); apply IH; exact H.
Qed.

(** Whatever the budget, a loop that returns on a board of the session
    returns what the specification of line clearing says. *)
Lemma clearLines_loop_any_fuel (fuel : nat) (b b' : Board) (n : nat) :
  wf_board b ->
  clearLines_loop fuel b (ROWS - 1) 0 = Ok (b', n) ->
  b' = replicate (length (full_rows b)) empty_row ++ kept_rows b /\
  n = length (full_rows b).
Proof.
  intros Hwf H.
  apply (clearLines_loop_more_fuel _ _ _ _ _ enough_fuel) in H.
  rewrite (clearLines_loop_wf _ _ Hwf) in H by lia.
  injection H as <- <-. auto.
Qed.

Lemma forallb_pointwise {A : Type} (f h : A -> bool) (l : list A) :
  (forall a : A, f a = h a) -> forallb f l = forallb h l.
Proof.
  intros Hfh. induction l as [|a l IH]; [reflexivity |].
  cbn [forallb]. rewrite Hfh, IH. reflexivity.
Qed.

Lemma row_full_cell_at (b b' : Board) (i : nat) (row row' : list (option string)) :
  b !! i = Some row -> b' !! i = Some row' ->
  (forall x : Z, cell_at b' (Z.of_nat i) x = cell_at b (Z.of_nat i) x) ->
  row_full row' = row_full row.
Proof.
  intros Hrow Hrow' Hcells. unfold row_full.
  apply forallb_pointwise. intros col.
  specialize (Hcells (Z.of_nat col)). unfold cell_at in Hcells.
  rewrite !index_of_nat, Hrow, Hrow', !index_of_nat in Hcells.
  rewrite Hcells. reflexivity.
Qed.

Lemma full_rows_nil_lookup (b : Board) (i : nat) (row : list (option string)) :
  full_rows b = [] -> b !! i = Some row -> row_full row = false.
Proof.
  intros Hnone Hrow. destruct (row_full row) eqn:Hfull; [| reflexivity].
  assert (Hin : In row (full_rows b)).
  { apply List.filter_In. split; [| exact Hfull].
    apply list_elem_of_In, list_elem_of_lookup. eauto. }
  rewrite Hnone in Hin. destruct Hin.
Qed.

(** Full rows whose indices lie among [k] consecutive numbers are at most
    [k]. *)
Lemma full_rows_in_range (lo k : Z) (b : Board) :
  forall off : nat,
    (forall (i : nat) (row : list (option string)),
       b !! i = Some row -> row_full row = true ->
       lo <= Z.of_nat (off + i) < lo + k) ->
    Z.of_nat (length (full_rows b))
    <= Z.max 0 (lo + k - Z.max (Z.of_nat off) lo).
Proof.
  unfold full_rows. induction b as [|row rest IH]; intros off Hrange.
  - cbn. lia.
  - cbn [List.filter].
    assert (Hrest : Z.of_nat (length (List.filter row_full rest))
                    <= Z.max 0 (lo + k - Z.max (Z.of_nat (S off)) lo)).
    { apply IH. intros i r Hi Hr.
      replace (S off + i)%nat with (off + S i)%nat by lia.
      apply (Hrange (S i) r Hi Hr). }
    destruct (row_full row) eqn:Hfull.
    + pose proof (Hrange 0%nat row eq_refl Hfull) as H0.
      cbn [length]. lia.
    + lia.
Qed.

Lemma catalog_heights :
  forallb (fun def =>
             forallb (fun shape : list (list Z) => (length shape <=? 4)%nat)
                     (Def.rotations def))
          PIECES = true.
Proof. vm_compute. reflexivity. Qed.

Lemma piece_ok_height (p : Piece.t) (rot : nat) (shape : Shape) :
  piece_ok p -> Piece.rotations p !! rot = Some shape ->
  (length shape <= 4)%nat.
Proof.
  intros [(def & Hdef & _ & Hrots & _) _] Hshape.
  pose proof catalog_heights as Hcat. rewrite forallb_forall in Hcat.
  specialize (Hcat def (proj1 (list_elem_of_In _ _) Hdef)).
  rewrite forallb_forall in Hcat. apply Nat.leb_le. apply Hcat.
  rewrite <- Hrots. apply list_elem_of_In.
  apply list_elem_of_lookup. eauto.
Qed.

(** After the lock of a piece of the catalog on a board without full rows,
    at most four rows are full. *)
Lemma lockCells_full_rows (g : Game) (b1 : Board) :
  Inv g -> full_rows (board g) = [] ->
  lockCells g = Ok (tt, set_board b1 g) ->
  (length (full_rows b1) <= 4)%nat.
Proof.
  intros (Hwf & Hok & Hin & _) Hnone Hlock.
  destruct (lookup_lt_is_Some_2 _ _ (proj2 Hok)) as [shape Hshape].
  destruct (lockCells_spec g shape Hwf Hshape Hin)
    as (b1' & Hlock' & Hwf1 & _ & Hfr).
  rewrite Hlock in Hlock'. injection Hlock' as Heq. subst b1'.
  pose proof (piece_ok_height _ _ _ Hok Hshape) as Hheight.
  set (lo := Piece.y (currentPiece g)).
  pose proof (full_rows_in_range lo (Z.of_nat (length shape)) b1 0%nat) as Hcount.
  assert (Z.of_nat (length (full_rows b1))
          <= Z.max 0 (lo + Z.of_nat (length shape) - Z.max (Z.of_nat 0) lo));
    [| lia].
  apply Hcount. intros i row1 Hrow1 Hfull. cbn [Nat.add].
  destruct (decide (lo <= Z.of_nat i < lo + Z.of_nat (length shape)))
    as [Hyes | Hno]; [exact Hyes |].
  exfalso.
  assert (Hlen : length b1 = length (board g)).
  { destruct Hwf as [-> _]. destruct Hwf1 as [-> _]. reflexivity. }
  destruct (lookup_lt_is_Some_2 (board g) i) as [row Hrow].
  { rewrite <- Hlen. apply lookup_lt_is_Some. eauto. }
  assert (Hsame : row_full row1 = row_full row).
  { apply (row_full_cell_at (board g) b1 i); [exact Hrow | exact Hrow1 |].
    intros x. destruct (Hfr (Z.of_nat i) x)
      as [Hx | (_ & r & c & (rw & v & Hr & _) & Hy & _)]; [exact Hx |].
    exfalso. apply Hno. apply lookup_lt_Some in Hr. subst lo. lia. }
  rewrite (full_rows_nil_lookup _ _ _ Hnone Hrow) in Hsame. congruence.
Qed.

Lemma lineScore_table (n : nat) :
  (n <= 4)%nat ->
  lineScore n = Int (nth n [0; 40; 100; 300; 1200] 0) /\
  0 <= nth n [0; 40; 100; 300; 1200] 0.
Proof.
  intros Hn. destruct n as [|[|[|[|[|n]]]]]; try lia; cbn; split;
    try reflexivity; lia.
Qed.

(** A lock within a session clears at most four rows, adds the entry of
    the score table, and leaves a board without full rows. *)
Lemma placePiece_Tidy (fuel index : nat) (g g' : Game) :
  Inv g -> Tidy g ->
  placePiece fuel index g = Ok (tt, g') ->
  Tidy g' /\
  exists n : nat,
    (n <= 4)%nat /\
    linesCleared g' = linesCleared g + Z.of_nat n /\
    score g' = num_add (score g) (Int (nth n [0; 40; 100; 300; 1200] 0)).
Proof.
  intros Hinv (Hnone & (s & Hs & Hs0) & Hl0) H.
  pose proof Hinv as (Hwf & Hok & Hin & _).
  destruct (placePiece_inv _ _ _ _ H) as (g1 & g2 & H1 & H2 & H3).
  destruct (lookup_lt_is_Some_2 _ _ (proj2 Hok)) as [shape Hshape].
  destruct (lockCells_spec g shape Hwf Hshape Hin) as (b1 & Hlock & Hwf1 & _).
  pose proof (lockCells_full_rows g b1 Hinv Hnone Hlock) as Hfour.
  rewrite Hlock in H1. injection H1 as <-.
  destruct (clearLines_inv _ _ _ H2) as (b & n & Hloop).
  cbn [board set_board] in Hloop.
  destruct (clearLines_loop_any_fuel fuel b1 b n Hwf1 Hloop) as [-> ->].
  destruct (clearLines_run fuel (set_board b1 g) _ _ Hloop)
    as (g2' & Hrun & Hb & _ & _ & Hscore & Hlines & _).
  rewrite H2 in Hrun. injection Hrun as <-.
  destruct (spawn_keeps_interval _ _ _ H3) as (_ & Hl' & Hs' & Hb').
  cbn [score linesCleared set_board] in Hscore, Hlines.
  destruct (lineScore_table _ Hfour) as [Htable Hpos].
  assert (Hsum : score g' = num_add (score g)
                   (Int (nth (length (full_rows b1)) [0; 40; 100; 300; 1200] 0))).
  { rewrite Hs', Hscore, <- Htable.
    destruct (0 <? length (full_rows b1))%nat eqn:Hn; [reflexivity |].
    apply Nat.ltb_ge in Hn.
    assert (length (full_rows b1) = 0%nat) as -> by lia.
    rewrite Hs. cbn. rewrite Z.add_0_r. reflexivity. }
  split.
  - split; [| split].
    + rewrite Hb', Hb. unfold full_rows at 1. rewrite List.filter_app.
      fold (full_rows (replicate (length (full_rows b1)) empty_row)).
      fold (full_rows (kept_rows b1)).
      rewrite full_rows_replicate_empty, full_rows_kept_rows. reflexivity.
    + rewrite Hsum, Hs. cbn [num_add]. eexists. split; [reflexivity | lia].
    + rewrite Hl', Hlines. lia.
  - exists (length (full_rows b1)). split; [exact Hfour |].
    split; [rewrite Hl', Hlines; reflexivity | exact Hsum].
Qed.

Lemma Tidy_set_currentPiece (p : Piece.t) (g : Game) :
  Tidy g -> Tidy (set_currentPiece p g).
Proof. intros H. exact H. Qed.

Lemma exec_Tidy (fuel : nat) (o : op) (g g' : Game) :
  Inv g -> Tidy g -> op_ok o -> exec fuel o g = Ok (tt, g') -> Tidy g'.
Proof.
  intros Hinv Htidy Hok H.
  assert (Hfall : forall index : nat,
            fall fuel index g = Ok (tt, g') -> Tidy g').
  { intros index Hf. destruct (fall_inv _ _ _ _ Hf) as (res & _ & Hres).
    destruct res; [apply (placePiece_Tidy _ _ _ _ Hinv Htidy Hres) |].
    subst g'. exact Htidy. }
  assert (Hmove : forall dir : Z, move dir g = Ok (tt, g') -> Tidy g').
  { intros dir Hm. destruct (move_inv _ _ _ Hm) as (res & _ & ->).
    destruct res; exact Htidy. }
  assert (Hrotate : rotate g = Ok (tt, g') -> Tidy g').
  { intros Hr. destruct (rotate_inv _ _ Hr) as [_ Hloop].
    destruct (rotate_loop_inv _ _ _ _ Hloop)
      as [[_ ->] | (? & ? & ? & _ & _ & _ & ->)]; exact Htidy. }
  assert (Hhard : forall index : nat,
            hardDrop fuel index g = Ok (tt, g') -> Tidy g').
  { intros index Hh. destruct (hardDrop_inv _ _ _ _ Hh) as (dy & Hloop & Hplace).
    apply (placePiece_Tidy _ _ _ _ (hardDrop_landing_Inv _ _ _ Hinv Hloop)
             (Tidy_set_currentPiece _ _ Htidy) Hplace). }
  destruct o as [dir| |index|index|index|index|index k]; cbn [exec] in H.
  - exact (Hmove dir H).
  - exact (Hrotate H).
  - exact (Hfall index H).
  - exact (Hhard index H).
  - unfold drop, bind at 1, get in H. destruct (isGameOver g).
    + unfold ret in H. injection H as <-. exact Htidy.
    + exact (Hfall index H).
  - apply (placePiece_Tidy _ _ _ _ Hinv Htidy H).
  - unfold keydown, bind at 1, get in H. destruct (isGameOver g).
    + unfold ret in H. injection H as <-. exact Htidy.
    + destruct k;
        try exact (Hmove _ H); try exact (Hrotate H);
        try exact (Hfall index H); try exact (Hhard index H).
      unfold ret in H. injection H as <-. exact Htidy.
Qed.

Lemma reachable_Tidy (g : Game) : reachable g -> Inv g /\ Tidy g.
Proof.
  intros (g1 & (g0 & index & Hindex & Hreset) & Hsteps).
  destruct (resetGame_spec index g0 Hindex)
    as (g1' & Hrun & Hinv & Hb & Hs & Hl & _).
  rewrite Hreset in Hrun. injection Hrun as <-.
  assert (Htidy : Tidy g1).
  { split; [| split].
    - rewrite Hb. apply full_rows_replicate_empty.
    - exists 0. split; [exact Hs | lia].
    - lia. }
  clear Hreset Hb Hs Hl.
  induction Hsteps as [g | g1 g2 g3 _ IH (fuel & o & Hok & Hexec)].
  - auto.
  - destruct (IH Hinv Htidy) as [Hinv2 Htidy2].
    split; [exact (exec_Inv _ _ _ _ Hinv2 Hok Hexec) |].
    exact (exec_Tidy _ _ _ _ Hinv2 Htidy2 Hok Hexec).
Qed.

(** ** Score and line count *)

(** C5.  When one call of [clearLines] clears [n] rows, [linesCleared] grows
    by [n]; for [n] within the score table [[0, 40, 100, 300, 1200]] the
    score grows by the entry [n] of the table.  Two cleared rows add 100
    points and 2 lines; no cleared row leaves both counters as they were.
    Within a session [n] is always within the table: a reachable state has
    no full row and a numeric score, a lock fills at most four rows, and
    each lock adds [n <= 4] lines and the entry [n] of the table. *)
Theorem C5_clearLines_adds_table_score_and_lines :
  (forall (g : Game) (fuel : nat),
     wf_board (board g) -> (enough_fuel <= fuel)%nat ->
     exists g' : Game,
       clearLines fuel g = Ok (tt, g') /\
       let n := length (full_rows (board g)) in
       linesCleared g' = linesCleared g + Z.of_nat n /\
       ((n <= 4)%nat ->
        score g' = num_add (score g) (Int (nth n [0; 40; 100; 300; 1200] 0))) /\
       (n = 2%nat ->
        forall s : Z, score g = Int s ->
          score g' = Int (s + 100) /\ linesCleared g' = linesCleared g + 2) /\
       (n = 0%nat -> score g' = score g /\ linesCleared g' = linesCleared g)) /\
  (forall g : Game,
     reachable g ->
     Inv g /\ full_rows (board g) = [] /\ exists s : Z, score g = Int s) /\
  (forall (g g' : Game) (fuel index : nat),
     Inv g -> Tidy g ->
     placePiece fuel index g = Ok (tt, g') ->
     exists n : nat,
       (n <= 4)%nat /\
       linesCleared g' = linesCleared g + Z.of_nat n /\
       score g' = num_add (score g) (Int (nth n [0; 40; 100; 300; 1200] 0))).
Proof.
  split; [| split].
  - intros g fuel Hwf Hfuel.
    destruct (clearLines_wf fuel g Hwf Hfuel)
      as (g' & Hrun & _ & _ & _ & Hs & Hl & Hzero).
    exists g'. split; [exact Hrun |]. cbv zeta.
    set (n := length (full_rows (board g))) in *.
    split; [exact Hl |]. split; [| split].
    + intros Hn. rewrite Hs.
      destruct n as [|[|[|[|[|n]]]]]; try lia; try reflexivity.
      cbn. destruct (score g) as [s|]; [| reflexivity].
      cbn. rewrite Z.add_0_r. reflexivity.
    + intros Hn s Hscore. rewrite Hs, Hl, Hn, Hscore. split; reflexivity.
    + intros Hn. rewrite Hs, Hl, Hn. cbn. split; [reflexivity | lia].
  - intros g Hreach.
    destruct (reachable_Tidy g Hreach) as (Hinv & Hnone & (s & Hs & _) & _).
    split; [exact Hinv |]. split; [exact Hnone |]. exists s. exact Hs.
  - intros g g' fuel index Hinv Htidy H.
    apply (placePiece_Tidy _ _ _ _ Hinv Htidy H).
Qed.

Lemma C5_witness :
  exists g' : Game,
    clearLines enough_fuel two_full_rows = Ok (tt, g') /\
    score g' = Int 100 /\ linesCleared g' = 2.
Proof.
  destruct C5_clearLines_adds_table_score_and_lines as (Hclear & _).
  destruct (Hclear two_full_rows enough_fuel wf_board_two_full_rows
              (Nat.le_refl _))
    as (g' & Hrun & Hl & _ & Htwo & _).
  exists g'. split; [exact Hrun |].
  destruct (Htwo eq_refl 0 eq_refl) as [Hs Hl2].
  split; [exact Hs | exact Hl2].
Defined.

(** * Further properties of the script *)

(** ** Testing an offset is testing the moved piece *)

Lemma collides_cols_shift (b : Board) (p p' : Piece.t)
    (offsetX offsetY offsetX' offsetY' : Z) (r : Z) (row : list Z) :
  Piece.x p' + offsetX' = Piece.x p + offsetX ->
  Piece.y p' + offsetY' = Piece.y p + offsetY ->
  forall c : Z,
    collides_cols b p' offsetX' offsetY' r c row
    = collides_cols b p offsetX offsetY r c row.
Proof.
  intros Hx Hy. induction row as [|v rest IH]; intros c; [reflexivity |].
  cbn [collides_cols]. cbv zeta.
  replace (Piece.x p' + c + offsetX') with (Piece.x p + c + offsetX) by lia.
  replace (Piece.y p' + r + offsetY') with (Piece.y p + r + offsetY) by lia.
  rewrite !IH. reflexivity.
Qed.

Lemma collides_rows_shift (b : Board) (p p' : Piece.t)
    (offsetX offsetY offsetX' offsetY' : Z) (shape : Shape) :
  Piece.x p' + offsetX' = Piece.x p + offsetX ->
  Piece.y p' + offsetY' = Piece.y p + offsetY ->
  forall r : Z,
    collides_rows b p' offsetX' offsetY' r shape
    = collides_rows b p offsetX offsetY r shape.
Proof.
  intros Hx Hy. induction shape as [|row rest IH]; intros r; [reflexivity |].
  cbn [collides_rows].
  rewrite (collides_cols_shift b p p' offsetX offsetY offsetX' offsetY' r row Hx Hy).
  rewrite IH. reflexivity.
Qed.

(** The answer of [collides] for a piece [p'] with the rotation states of
    the active piece is the answer for the active piece at the offset that
    leads to the same cells. *)
Lemma collides_moved (g : Game) (p' : Piece.t)
    (offsetX offsetY offsetX' offsetY' : Z) (rot : nat) (res : bool) :
  Piece.rotations p' = Piece.rotations (currentPiece g) ->
  Piece.x p' + offsetX' = Piece.x (currentPiece g) + offsetX ->
  Piece.y p' + offsetY' = Piece.y (currentPiece g) + offsetY ->
  collides offsetX offsetY rot g = Ok (res, g) ->
  collides offsetX' offsetY' rot (set_currentPiece p' g)
  = Ok (res, set_currentPiece p' g).
Proof.
  intros Hrots Hx Hy. unfold collides, bind, get, lift, throw.
  cbn [currentPiece board set_currentPiece]. rewrite Hrots.
  destruct (Piece.rotations (currentPiece g) !! rot) as [shape|];
    [| discriminate].
  rewrite (collides_rows_shift (board g) (currentPiece g) p'
             offsetX offsetY offsetX' offsetY' shape Hx Hy).
  destruct (collides_rows _ _ _ _ _ _) as [res'| |]; try discriminate.
  intros H. injection H as <-. reflexivity.
Qed.

(** ** The running piece never overlaps the blocks *)

Lemma board_occupied_empty (y x : Z) : ~ board_occupied empty_board y x.
Proof.
  intros (row & v & Hrow & Hv & Ht).
  unfold index in Hrow, Hv.
  destruct (y <? 0); [discriminate |]. destruct (x <? 0); [discriminate |].
  unfold empty_board in Hrow. apply lookup_replicate in Hrow.
  destruct Hrow as [-> _]. unfold empty_row in Hv.
  apply lookup_replicate in Hv. destruct Hv as [-> _]. discriminate.
Qed.

Lemma collides_false_intro (g : Game) (offsetX offsetY : Z) (rot : nat)
    (shape : Shape) :
  wf_board (board g) ->
  Piece.rotations (currentPiece g) !! rot = Some shape ->
  (forall r c : nat,
     occupied shape r c ->
     ~ cell_violates (board g)
         (Piece.x (currentPiece g) + Z.of_nat c + offsetX)
         (Piece.y (currentPiece g) + Z.of_nat r + offsetY)) ->
  collides offsetX offsetY rot g = Ok (false, g).
Proof.
  intros Hwf Hshape Hfree.
  destruct (collides_spec g offsetX offsetY rot shape Hwf Hshape)
    as (res & Hres & Hiff).
  destruct res; [| exact Hres].
  exfalso. destruct (proj1 Hiff eq_refl) as (r & c & Hocc & Hviol).
  exact (Hfree r c Hocc Hviol).
Qed.

Lemma collides_false_elim (g : Game) (offsetX offsetY : Z) (rot : nat)
    (shape : Shape) (r c : nat) :
  wf_board (board g) ->
  Piece.rotations (currentPiece g) !! rot = Some shape ->
  collides offsetX offsetY rot g = Ok (false, g) ->
  occupied shape r c ->
  ~ cell_violates (board g)
      (Piece.x (currentPiece g) + Z.of_nat c + offsetX)
      (Piece.y (currentPiece g) + Z.of_nat r + offsetY).
Proof.
  intros Hwf Hshape Hfree Hocc Hviol.
  destruct (collides_spec g offsetX offsetY rot shape Hwf Hshape)
    as (res & Hres & Hiff).
  rewrite Hfree in Hres. injection Hres as <-.
  assert (Hf : false = true); [| discriminate].
  apply Hiff. exists r, c. auto.
Qed.

Lemma resetGame_Safe (index : nat) (g0 g : Game) :
  (index < length PIECES)%nat -> resetGame index g0 = Ok (tt, g) -> Safe g.
Proof.
  intros Hindex Hreset _.
  destruct (resetGame_spec index g0 Hindex)
    as (g' & Hrun & (Hwf & Hok & Hin & _) & Hb & _).
  rewrite Hreset in Hrun. injection Hrun as <-.
  destruct (lookup_lt_is_Some_2 _ _ (proj2 Hok)) as [shape Hshape].
  apply (collides_false_intro g 0 0 _ shape Hwf Hshape).
  intros r c Hocc Hviol. destruct (Hin shape r c Hshape Hocc) as [Hx Hy].
  rewrite !Z.add_0_r in Hviol.
  destruct Hviol as [Hv | [Hv | [_ Hv]]]; [lia | lia |].
  rewrite Hb in Hv. exact (board_occupied_empty _ _ Hv).
Qed.

Lemma placePiece_Safe (fuel index : nat) (g g' : Game) :
  placePiece fuel index g = Ok (tt, g') -> Safe g'.
Proof.
  intros H Hrunning.
  destruct (placePiece_inv _ _ _ _ H) as (g1 & g2 & _ & _ & H3).
  destruct (spawn_inv _ _ _ H3) as (p & res & _ & Hc & Hend).
  destruct res.
  - destruct (endGame_spec (set_currentPiece p g2)) as (g'' & Hg'' & Hflag & _).
    rewrite Hend in Hg''. injection Hg'' as <-. congruence.
  - subst g'. exact Hc.
Qed.

Lemma move_Safe (dir : Z) (g g' : Game) :
  Safe g -> move dir g = Ok (tt, g') -> Safe g'.
Proof.
  intros Hsafe H. destruct (move_inv _ _ _ H) as (res & Hc & ->).
  destruct res; [exact Hsafe |]. intros _.
  apply (collides_moved g _ dir 0 0 0 _ false); try reflexivity; [| exact Hc].
  cbn. lia.
Qed.

Lemma rotate_Safe (g g' : Game) :
  Safe g -> rotate g = Ok (tt, g') -> Safe g'.
Proof.
  intros Hsafe H. destruct (rotate_inv _ _ H) as [_ Hloop].
  destruct (rotate_loop_inv _ _ _ _ Hloop)
    as [[_ ->] | (before & offset & after & _ & _ & Hfree & ->)];
    [exact Hsafe |].
  intros _.
  apply (collides_moved g _ offset 0 0 0 _ false); try reflexivity;
    [| exact Hfree].
  cbn. lia.
Qed.

Lemma fall_Safe (fuel index : nat) (g g' : Game) :
  fall fuel index g = Ok (tt, g') -> Safe g'.
Proof.
  intros H. destruct (fall_inv _ _ _ _ H) as (res & Hc & Hres).
  destruct res; [exact (placePiece_Safe _ _ _ _ Hres) |].
  subst g'. intros _.
  apply (collides_moved g _ 0 1 0 0 _ false); try reflexivity; [| exact Hc].
  cbn. lia.
Qed.

Lemma handle_Safe (fuel : nat) (e : event) (g g' : Game) :
  Safe g -> (event_index e < length PIECES)%nat ->
  handle fuel e g = Ok (tt, g') -> Safe g'.
Proof.
  intros Hsafe Hindex H. destruct e as [index k|index|index];
    cbn [handle event_index] in *.
  - unfold keydown, bind at 1, get in H. destruct (isGameOver g) eqn:Hover.
    + unfold ret in H. injection H as <-. exact Hsafe.
    + destruct k;
        try exact (move_Safe _ _ _ Hsafe H);
        try exact (rotate_Safe _ _ Hsafe H);
        try exact (fall_Safe _ _ _ _ H).
      * destruct (hardDrop_inv _ _ _ _ H) as (dy & _ & Hplace).
        exact (placePiece_Safe _ _ _ _ Hplace).
      * unfold ret in H. injection H as <-. exact Hsafe.
  - unfold drop, bind at 1, get in H. destruct (isGameOver g).
    + unfold ret in H. injection H as <-. exact Hsafe.
    + exact (fall_Safe _ _ _ _ H).
  - exact (resetGame_Safe _ _ _ Hindex H).
Qed.

Lemma session_reachable (g : Game) : session g -> reachable g.
Proof.
  induction 1 as [index g Hindex Hreset | fuel e g g' _ IH Hindex Hrun].
  - exists g. split; [exists loaded, index; auto | apply steps_refl].
  - destruct e as [index k|index|index]; cbn [handle event_index] in *.
    + destruct IH as (g1 & Hfresh & Hsteps). exists g1. split; [exact Hfresh |].
      apply (steps_step g1 g g' Hsteps). exists fuel, (OpKey index k). auto.
    + destruct IH as (g1 & Hfresh & Hsteps). exists g1. split; [exact Hfresh |].
      apply (steps_step g1 g g' Hsteps). exists fuel, (OpTick index). auto.
    + exists g'. split; [exists g, index; auto | apply steps_refl].
Qed.

Lemma session_Safe (g : Game) : session g -> Safe g.
Proof.
  induction 1 as [index g Hindex Hreset | fuel e g g' _ IH Hindex Hrun].
  - exact (resetGame_Safe _ _ _ Hindex Hreset).
  - exact (handle_Safe _ _ _ _ IH Hindex Hrun).
Qed.

Lemma session_run (fuel : nat) (es : list event) :
  forall g g' : Game,
    session g ->
    Forall (fun e => (event_index e < length PIECES)%nat) es ->
    run_events fuel es g = Ok (tt, g') ->
    session g'.
Proof.
  induction es as [|e rest IH]; intros g g' Hs Hok H.
  - unfold run_events, ret in H. injection H as <-. exact Hs.
  - cbn [run_events] in H. apply bind_inv in H.
    destruct H as ([] & g1 & H1 & H).
    inversion Hok as [|? ? He Hrest]; subst.
    exact (IH g1 g' (session_event fuel e g g1 Hs He H1) Hrest H).
Qed.

Lemma session_start (index : nat) :
  (index < length PIECES)%nat -> session (start index).
Proof.
  intros Hindex.
  destruct (resetGame_spec index loaded Hindex) as (g & Hrun & _).
  apply (session_load index); [exact Hindex |].
  unfold start. rewrite Hrun. reflexivity.
Qed.

Lemma session_page_played : session page_played.
Proof.
  apply (session_run enough_fuel some_events (start 0)).
  - apply session_start. cbn. lia.
  - repeat constructor; cbn; lia.
  - vm_compute. reflexivity.
Qed.

(** X1.  In every state of the page in which the game is not over, each
    occupied cell of the active piece is between the side walls, above the
    floor, and not on a cell of the board that holds a block; the collision
    test at offset [(0, 0)] answers [false]. *)
Theorem X1_running_piece_never_overlaps (g : Game) :
  session g -> isGameOver g = false ->
  collides 0 0 (Piece.rotationIndex (currentPiece g)) g = Ok (false, g) /\
  forall (shape : Shape) (r c : nat),
    Piece.rotations (currentPiece g) !! Piece.rotationIndex (currentPiece g)
    = Some shape ->
    occupied shape r c ->
    0 <= Piece.x (currentPiece g) + Z.of_nat c < COLS /\
    Piece.y (currentPiece g) + Z.of_nat r < ROWS /\
    ~ board_occupied (board g)
        (Piece.y (currentPiece g) + Z.of_nat r)
        (Piece.x (currentPiece g) + Z.of_nat c).
Proof.
  intros Hs Hrunning.
  pose proof (session_Safe g Hs Hrunning) as Hfree.
  destruct (reachable_Inv g (session_reachable g Hs)) as (Hwf & _ & Hin & Hy).
  split; [exact Hfree |].
  intros shape r c Hshape Hocc.
  destruct (Hin shape r c Hshape Hocc) as [Hx Hy'].
  split; [exact Hx |]. split; [exact Hy' |].
  intros Hblock.
  pose proof (collides_false_elim g 0 0 _ shape r c Hwf Hshape Hfree Hocc)
    as Hno.
  rewrite !Z.add_0_r in Hno. apply Hno.
  destruct (Z.lt_ge_cases (Piece.y (currentPiece g) + Z.of_nat r) 0)
    as [Hneg | Hpos].
  - exfalso. destruct Hblock as (row & v & Hrow & _).
    apply index_lt in Hrow. lia.
  - right. right. auto.
Qed.

Lemma X1_witness :
  collides 0 0 (Piece.rotationIndex (currentPiece page_played)) page_played
  = Ok (false, page_played).
Proof.
  apply (X1_running_piece_never_overlaps page_played session_page_played).
  vm_compute. reflexivity.
Defined.

(** ** No handler raises or loops for ever *)

(** X2.  In every state of the page, each event handler returns: no
    [TypeError] is raised by an array access, and the loops of [clearLines]
    and [hardDrop] end within a budget of [2 * ROWS + 1] iterations.  The
    state after the event is a state of the page again. *)
Theorem X2_handlers_never_raise (fuel : nat) (e : event) (g : Game) :
  session g -> (event_index e < length PIECES)%nat ->
  (enough_fuel <= fuel)%nat ->
  exists g' : Game, handle fuel e g = Ok (tt, g') /\ session g'.
Proof.
  intros Hs Hindex Hfuel.
  pose proof (reachable_Inv g (session_reachable g Hs)) as Hinv.
  assert (Hrun : exists g' : Game, handle fuel e g = Ok (tt, g')).
  { destruct e as [index k|index|index]; cbn [handle event_index] in *.
    - exact (exec_total fuel (OpKey index k) g Hinv Hindex Hfuel).
    - exact (exec_total fuel (OpTick index) g Hinv Hindex Hfuel).
    - destruct (resetGame_spec index g Hindex) as (g' & Hrun & _).
      exists g'. exact Hrun. }
  destruct Hrun as [g' Hrun]. exists g'. split; [exact Hrun |].
  exact (session_event fuel e g g' Hs Hindex Hrun).
Qed.

Lemma X2_witness :
  exists g' : Game,
    handle enough_fuel (EvKey 3 Space) page_played = Ok (tt, g') /\ session g'.
Proof.
  apply (X2_handlers_never_raise enough_fuel (EvKey 3 Space) page_played
           session_page_played).
  - cbn. lia.
  - apply Nat.le_refl.
Defined.

(** ** Blocks stay where they are until a line is cleared *)

(** A lock from a placement that does not collide, when no row becomes
    full: every block of the board is still there afterwards. *)
Lemma placePiece_keeps_blocks (fuel index : nat) (g g' : Game) :
  Inv g ->
  collides 0 0 (Piece.rotationIndex (currentPiece g)) g = Ok (false, g) ->
  placePiece fuel index g = Ok (tt, g') ->
  linesCleared g' = linesCleared g ->
  forall y x : Z,
    board_occupied (board g) y x ->
    cell_at (board g') y x = cell_at (board g) y x.
Proof.
  intros Hinv Hfree H Hlines y x Hblock.
  pose proof Hinv as (Hwf & Hok & Hin & _).
  destruct (placePiece_inv _ _ _ _ H) as (g1 & g2 & H1 & H2 & H3).
  destruct (lookup_lt_is_Some_2 _ _ (proj2 Hok)) as [shape Hshape].
  destruct (lockCells_spec g shape Hwf Hshape Hin)
    as (b1 & Hlock & Hwf1 & _ & Hfr).
  rewrite Hlock in H1. injection H1 as <-.
  destruct (clearLines_inv _ _ _ H2) as (b & n & Hloop).
  cbn [board set_board] in Hloop.
  destruct (clearLines_loop_any_fuel fuel b1 b n Hwf1 Hloop) as [-> ->].
  destruct (clearLines_run fuel (set_board b1 g) _ _ Hloop)
    as (g2' & Hrun & Hb & _ & _ & _ & Hl & _).
  rewrite H2 in Hrun. injection Hrun as <-.
  destruct (spawn_keeps_interval _ _ _ H3) as (_ & Hl' & _ & Hb').
  cbn [linesCleared set_board] in Hl.
  assert (Hzero : length (full_rows b1) = 0%nat) by lia.
  rewrite Hb', Hb, Hzero. cbn [replicate app].
  rewrite (kept_rows_none_full b1 Hzero).
  destruct (Hfr y x) as [Heq | (Hy0 & r & c & Hocc & -> & ->)]; [exact Heq |].
  exfalso.
  apply (collides_false_elim g 0 0 _ shape r c Hwf Hshape Hfree Hocc).
  rewrite !Z.add_0_r. right. right. auto.
Qed.

(** The state in which [hardDrop] locks the piece does not collide, when
    the state it starts from does not. *)
Lemma hardDrop_landing_free (fuel : nat) (dy : Z) (g : Game) :
  collides 0 0 (Piece.rotationIndex (currentPiece g)) g = Ok (false, g) ->
  hardDrop_loop fuel 0 g = Ok (dy, g) ->
  let landed :=
    set_currentPiece
      (Piece.set_y (Piece.y (currentPiece g) + dy) (currentPiece g)) g in
  collides 0 0 (Piece.rotationIndex (currentPiece g)) landed = Ok (false, landed) /\
  collides 0 1 (Piece.rotationIndex (currentPiece g)) landed = Ok (true, landed).
Proof.
  intros Hfree Hloop landed.
  destruct (hardDrop_loop_inv _ _ _ _ _ Hloop) as (_ & Hle & Htrue & Hfalse).
  split.
  - apply (collides_moved g _ 0 dy 0 0 _ false); try reflexivity.
    + cbn. lia.
    + destruct (decide (dy = 0)) as [-> | Hne]; [exact Hfree |].
      apply Hfalse. lia.
  - apply (collides_moved g _ 0 (dy + 1) 0 1 _ true); try reflexivity;
      [cbn; lia | exact Htrue].
Qed.

(** X3.  In a state of the page, a key press or a tick after which the
    line count is what it was before leaves every block of the board in its
    cell: a lock never overwrites a block, and blocks leave the board only
    through line clearing (or a restart). *)
Theorem X3_blocks_stay_until_a_line_is_cleared
    (fuel : nat) (e : event) (g g' : Game) :
  session g ->
  (forall index : nat, e <> EvStart index) ->
  (event_index e < length PIECES)%nat ->
  handle fuel e g = Ok (tt, g') ->
  linesCleared g' = linesCleared g ->
  forall y x : Z,
    board_occupied (board g) y x ->
    cell_at (board g') y x = cell_at (board g) y x.
Proof.
  intros Hs Hnostart Hindex H Hlines y x Hblock.
  pose proof (reachable_Inv g (session_reachable g Hs)) as Hinv.
  pose proof (session_Safe g Hs) as Hsafe.
  assert (Hfall : forall index : nat,
            isGameOver g = false ->
            fall fuel index g = Ok (tt, g') ->
            cell_at (board g') y x = cell_at (board g) y x).
  { intros index Hrunning Hf.
    destruct (fall_inv _ _ _ _ Hf) as (res & _ & Hres).
    destruct res; [| subst g'; reflexivity].
    exact (placePiece_keeps_blocks _ _ _ _ Hinv (Hsafe Hrunning) Hres Hlines
             y x Hblock). }
  assert (Hmove : forall dir : Z,
            move dir g = Ok (tt, g') ->
            cell_at (board g') y x = cell_at (board g) y x).
  { intros dir Hm. destruct (move_inv _ _ _ Hm) as (res & _ & ->).
    destruct res; reflexivity. }
  assert (Hrotate : rotate g = Ok (tt, g') ->
                    cell_at (board g') y x = cell_at (board g) y x).
  { intros Hr. destruct (rotate_inv _ _ Hr) as [_ Hloop].
    destruct (rotate_loop_inv _ _ _ _ Hloop)
      as [[_ ->] | (? & ? & ? & _ & _ & _ & ->)]; reflexivity. }
  destruct e as [index k|index|index]; cbn [handle event_index] in *.
  - unfold keydown, bind at 1, get in H. destruct (isGameOver g) eqn:Hover.
    + unfold ret in H. injection H as <-. reflexivity.
    + destruct k;
        try exact (Hmove _ H); try exact (Hrotate H);
        try exact (Hfall index eq_refl H).
      * destruct (hardDrop_inv _ _ _ _ H) as (dy & Hloop & Hplace).
        destruct (hardDrop_landing_free fuel dy g (Hsafe Hover) Hloop)
          as [Hfree _].
        exact (placePiece_keeps_blocks _ _ _ _
                 (hardDrop_landing_Inv _ _ _ Hinv Hloop) Hfree Hplace Hlines
                 y x Hblock).
      * unfold ret in H. injection H as <-. reflexivity.
  - unfold drop, bind at 1, get in H. destruct (isGameOver g) eqn:Hover.
    + unfold ret in H. injection H as <-. reflexivity.
    + exact (Hfall index eq_refl H).
  - destruct (Hnostart index eq_refl).
Qed.

Lemma X3_witness :
  cell_at (board page_dropped) 19 4 = cell_at (board page_played) 19 4.
Proof.
  apply (X3_blocks_stay_until_a_line_is_cleared enough_fuel (EvKey 3 Space)
           page_played page_dropped session_page_played).
  - intros index. discriminate.
  - cbn. lia.
  - vm_compute. reflexivity.
  - vm_compute. reflexivity.
  - eexists _, _. split; [vm_compute; reflexivity |].
    split; [vm_compute; reflexivity | reflexivity].
Defined.

(** ** A hard drop is a run of soft drops *)

Lemma bind_ret_tt (m : M unit) (g : Game) : (m ;; ret tt) g = m g.
Proof.
  unfold bind, ret. destruct (m g) as [[[] g']| |]; reflexivity.
Qed.

Lemma lowered_lowered (d : Z) (g : Game) :
  lowered 1 (lowered d g) = lowered (d + 1) g.
Proof.
  unfold lowered, set_currentPiece, Piece.set_y. cbn.
  rewrite Z.add_assoc. reflexivity.
Qed.

Lemma lowered_0 (g : Game) : lowered 0 g = g.
Proof. unfold lowered. rewrite set_y_same. apply set_currentPiece_same. Qed.

(** From [d] rows down, [dy - d] soft drops move the piece and one more
    locks it, where [dy] is the descent found by [hardDrop]. *)
Lemma softDrops_from (fuel index : nat) (g : Game) (dy : Z) (n : nat) :
  (forall d : Z,
     1 <= d <= dy ->
     collides 0 d (Piece.rotationIndex (currentPiece g)) g = Ok (false, g)) ->
  collides 0 (dy + 1) (Piece.rotationIndex (currentPiece g)) g = Ok (true, g) ->
  forall d : Z,
    0 <= d -> dy = d + Z.of_nat n ->
    times (S n) (softDrop fuel index) (lowered d g)
    = placePiece fuel index (lowered dy g).
Proof.
  intros Hfalse Htrue. induction n as [|n IH]; intros d Hd Hdy.
  - assert (d = dy) as -> by lia.
    cbn [times]. rewrite bind_ret_tt. unfold softDrop, fall, bind at 1, get.
    assert (Hc : collides 0 1 (Piece.rotationIndex (currentPiece (lowered dy g)))
                   (lowered dy g) = Ok (true, lowered dy g)).
    { apply (collides_moved g _ 0 (dy + 1) 0 1 _ true); try reflexivity;
        [cbn; lia | exact Htrue]. }
    rewrite (bind_Ok _ _ _ _ _ Hc). reflexivity.
  - cbn [times].
    assert (Hc : collides 0 1 (Piece.rotationIndex (currentPiece (lowered d g)))
                   (lowered d g) = Ok (false, lowered d g)).
    { apply (collides_moved g _ 0 (d + 1) 0 1 _ false); try reflexivity;
        [cbn; lia | apply Hfalse; lia]. }
    assert (Hstep : softDrop fuel index (lowered d g)
                    = Ok (tt, lowered (d + 1) g)).
    { unfold softDrop, fall, bind at 1, get.
      rewrite (bind_Ok _ _ _ _ _ Hc). unfold modify.
      rewrite <- lowered_lowered. reflexivity. }
    rewrite (bind_Ok _ _ _ _ _ Hstep).
    apply (IH (d + 1)); lia.
Qed.

(** X4.  From a state of a session, [hardDrop] does what [dy + 1] calls of
    [softDrop] do, where [dy >= 0] is the descent its loop finds: [dy] soft
    drops move the piece down by one row each, and the last one locks it.
    At the place where the piece is locked, one row further down collides. *)
Theorem X4_hardDrop_is_repeated_softDrop (fuel index : nat) (g : Game) :
  Inv g -> (enough_fuel <= fuel)%nat -> (index < length PIECES)%nat ->
  exists dy : Z,
    0 <= dy /\
    hardDrop_loop fuel 0 g = Ok (dy, g) /\
    collides 0 1 (Piece.rotationIndex (currentPiece g)) (lowered dy g)
    = Ok (true, lowered dy g) /\
    times (Z.to_nat dy) (softDrop fuel index) g = Ok (tt, lowered dy g) /\
    hardDrop fuel index g
    = times (S (Z.to_nat dy)) (softDrop fuel index) g.
Proof.
  intros Hinv Hfuel Hindex.
  destruct (hardDrop_spec fuel index g Hinv Hfuel Hindex)
    as (dy & g' & Hloop & Hle & Hfalse & Htrue & Hrun & Hplace).
  exists dy. split; [exact Hle |]. split; [exact Hloop |]. split; [| split].
  - apply (collides_moved g _ 0 (dy + 1) 0 1 _ true); try reflexivity;
      [cbn; lia | exact Htrue].
  - assert (Hmoves : forall (n : nat) (d : Z),
              0 <= d -> d + Z.of_nat n <= dy ->
              times n (softDrop fuel index) (lowered d g)
              = Ok (tt, lowered (d + Z.of_nat n) g)).
    { induction n as [|n IH]; intros d Hd Hn.
      - cbn [times]. rewrite Z.add_0_r. reflexivity.
      - cbn [times].
        assert (Hc : collides 0 1
                       (Piece.rotationIndex (currentPiece (lowered d g)))
                       (lowered d g) = Ok (false, lowered d g)).
        { apply (collides_moved g _ 0 (d + 1) 0 1 _ false); try reflexivity;
            [cbn; lia | apply Hfalse; lia]. }
        assert (Hstep : softDrop fuel index (lowered d g)
                        = Ok (tt, lowered (d + 1) g)).
        { unfold softDrop, fall, bind at 1, get.
          rewrite (bind_Ok _ _ _ _ _ Hc). unfold modify.
          rewrite <- lowered_lowered. reflexivity. }
        rewrite (bind_Ok _ _ _ _ _ Hstep).
        rewrite (IH (d + 1)) by lia. do 3 f_equal. lia. }
    specialize (Hmoves (Z.to_nat dy) 0 ltac:(lia) ltac:(lia)).
    rewrite lowered_0 in Hmoves. rewrite Hmoves. do 3 f_equal. lia.
  - pose proof (softDrops_from fuel index g dy (Z.to_nat dy) Hfalse Htrue 0
                  ltac:(lia) ltac:(lia)) as Hdrops.
    rewrite lowered_0 in Hdrops. rewrite Hdrops, Hrun, <- Hplace. reflexivity.
Qed.

Lemma X4_witness :
  exists dy : Z,
    hardDrop enough_fuel 3 page_played
    = times (S (Z.to_nat dy)) (softDrop enough_fuel 3) page_played.
Proof.
  destruct (X4_hardDrop_is_repeated_softDrop enough_fuel 3 page_played)
    as (dy & _ & _ & _ & _ & Heq).
  - exact (reachable_Inv _ (session_reachable _ session_page_played)).
  - apply Nat.le_refl.
  - cbn. lia.
  - exists dy. exact Heq.
Defined.

(** ** Round trips of the piece *)

(** X5.  When the active piece does not collide where it is and [move(dir)]
    changes the state, [move(-dir)] brings the state back. *)
Theorem X5_move_there_and_back (dir : Z) (g g1 : Game) :
  collides 0 0 (Piece.rotationIndex (currentPiece g)) g = Ok (false, g) ->
  move dir g = Ok (tt, g1) ->
  g1 <> g ->
  move (- dir) g1 = Ok (tt, g).
Proof.
  intros Hfree Hmove Hchanged.
  destruct (move_inv _ _ _ Hmove) as (res & Hc & ->).
  destruct res; [congruence |].
  set (g1 := set_currentPiece _ g) in *.
  assert (Hback : collides (- dir) 0 (Piece.rotationIndex (currentPiece g1)) g1
                  = Ok (false, g1)).
  { apply (collides_moved g _ 0 0 (- dir) 0 _ false); try reflexivity;
      [cbn; lia | exact Hfree]. }
  unfold move, bind at 1, get. rewrite (bind_Ok _ _ _ _ _ Hback).
  unfold modify. f_equal. f_equal. subst g1.
  destruct g as [b [n rots col ri x y] ? ? ? ? ? ? ?].
  unfold set_currentPiece, Piece.set_x. cbn. do 2 f_equal. lia.
Qed.

Lemma X5_witness : move (- -1) (final (move (-1) (start 0))) = Ok (tt, start 0).
Proof.
  apply (X5_move_there_and_back (-1) (start 0)).
  - vm_compute. reflexivity.
  - vm_compute. reflexivity.
  - vm_compute. discriminate.
Defined.

Lemma rotate_free_step (g : Game) :
  (0 < length (Piece.rotations (currentPiece g)))%nat ->
  collides 0 0 (nextRotation_of (currentPiece g)) g = Ok (false, g) ->
  rotate g = Ok (tt, turned (nextRotation_of (currentPiece g)) g).
Proof.
  intros Hlen Hfree. unfold rotate, bind at 1, get.
  destruct (length (Piece.rotations (currentPiece g))) eqn:E; [lia |].
  fold (nextRotation_of (currentPiece g)) in *.
  assert (Hnext : ((Piece.rotationIndex (currentPiece g) + 1) `mod` S n)%nat
                  = nextRotation_of (currentPiece g)).
  { unfold nextRotation_of. rewrite E. reflexivity. }
  rewrite Hnext. unfold kicks. cbn [rotate_loop].
  rewrite (bind_Ok _ _ _ _ _ Hfree). unfold bind, modify, turned.
  f_equal. f_equal.
  destruct g as [b [nm rots col ri x y] ? ? ? ? ? ? ?].
  unfold set_currentPiece, Piece.set_rotationIndex, Piece.set_x. cbn.
  rewrite Z.add_0_r. reflexivity.
Qed.

Lemma turned_same (g : Game) :
  turned (Piece.rotationIndex (currentPiece g)) g = g.
Proof. destruct g as [b [nm rots col ri x y] ? ? ? ? ? ? ?]. reflexivity. Qed.

(** X6.  When the active piece collides in none of its rotation states
    where it is, as many calls of [rotate] as it has rotation states bring
    the state back: rotation cycles through the states without kicks. *)
Theorem X6_rotate_full_cycle (g : Game) :
  (Piece.rotationIndex (currentPiece g)
   < length (Piece.rotations (currentPiece g)))%nat ->
  (forall rot : nat,
     (rot < length (Piece.rotations (currentPiece g)))%nat ->
     collides 0 0 rot g = Ok (false, g)) ->
  times (length (Piece.rotations (currentPiece g))) rotate g = Ok (tt, g).
Proof.
  intros Hrot Hfree.
  set (len := length (Piece.rotations (currentPiece g))) in *.
  assert (Hturns : forall (n r : nat),
            (r < len)%nat ->
            times n rotate (turned r g)
            = Ok (tt, turned ((r + n) `mod` len)%nat g)).
  { induction n as [|n IH]; intros r Hr.
    - cbn [times]. rewrite Nat.add_0_r, Nat.mod_small by exact Hr. reflexivity.
    - cbn [times].
      assert (Hnext : nextRotation_of (currentPiece (turned r g))
                      = ((r + 1) `mod` len)%nat) by reflexivity.
      assert (Hlt : ((r + 1) `mod` len < len)%nat)
        by (apply Nat.mod_upper_bound; lia).
      assert (Hstep : rotate (turned r g)
                      = Ok (tt, turned ((r + 1) `mod` len)%nat g)).
      { rewrite (rotate_free_step (turned r g)).
        - rewrite Hnext. reflexivity.
        - cbn. fold len. lia.
        - rewrite Hnext.
          apply (collides_moved g _ 0 0 0 0 _ false); try reflexivity.
          apply Hfree. exact Hlt. }
      rewrite (bind_Ok _ _ _ _ _ Hstep). rewrite (IH _ Hlt).
      rewrite Nat.Div0.add_mod_idemp_l.
      replace (r + 1 + n)%nat with (r + S n)%nat by lia. reflexivity. }
  rewrite <- (turned_same g) at 1.
  rewrite (Hturns len _ Hrot).
  replace (Piece.rotationIndex (currentPiece g) + len)%nat
    with (Piece.rotationIndex (currentPiece g) + 1 * len)%nat by lia.
  rewrite Nat.Div0.mod_add, Nat.mod_small by exact Hrot.
  rewrite turned_same. reflexivity.
Qed.

Lemma X6_witness :
  times 4 rotate (lowered 3 (start 5)) = Ok (tt, lowered 3 (start 5)).
Proof.
  apply (X6_rotate_full_cycle (lowered 3 (start 5))).
  - vm_compute. lia.
  - intros rot Hrot. change (rot < 4)%nat in Hrot.
    destruct rot as [|[|[|[|rot]]]]; try lia; vm_compute; reflexivity.
Defined.

(** ** Score, line count and speed over a whole game *)

(** What one operation of a session adds to the counters: the lines of at
    most one lock, and the entry of the score table for them. *)
Lemma exec_counts (fuel : nat) (o : op) (g g' : Game) :
  Inv g -> Tidy g -> op_ok o -> exec fuel o g = Ok (tt, g') ->
  exists n : nat,
    (n <= 4)%nat /\
    linesCleared g' = linesCleared g + Z.of_nat n /\
    score g' = num_add (score g) (Int (nth n [0; 40; 100; 300; 1200] 0)).
Proof.
  intros Hinv Htidy Hok H.
  assert (Hsame : score g = num_add (score g) (Int 0)).
  { destruct Htidy as (_ & (s & -> & _) & _). cbn. rewrite Z.add_0_r.
    reflexivity. }
  assert (Hnone : forall p : Piece.t,
            exists n : nat,
              (n <= 4)%nat /\
              linesCleared (set_currentPiece p g) = linesCleared g + Z.of_nat n /\
              score (set_currentPiece p g)
              = num_add (score g) (Int (nth n [0; 40; 100; 300; 1200] 0))).
  { intros p. exists 0%nat. cbn [nth linesCleared score set_currentPiece].
    split; [lia |]. split; [lia | exact Hsame]. }
  assert (Hstay : g' = g ->
            exists n : nat,
              (n <= 4)%nat /\
              linesCleared g' = linesCleared g + Z.of_nat n /\
              score g' = num_add (score g) (Int (nth n [0; 40; 100; 300; 1200] 0))).
  { intros ->. exists 0%nat. cbn [nth]. split; [lia |].
    split; [lia | exact Hsame]. }
  assert (Hlock : forall index : nat,
            placePiece fuel index g = Ok (tt, g') ->
            exists n : nat,
              (n <= 4)%nat /\
              linesCleared g' = linesCleared g + Z.of_nat n /\
              score g' = num_add (score g) (Int (nth n [0; 40; 100; 300; 1200] 0))).
  { intros index Hp. apply (placePiece_Tidy _ _ _ _ Hinv Htidy Hp). }
  assert (Hfall : forall index : nat,
            fall fuel index g = Ok (tt, g') ->
            exists n : nat,
              (n <= 4)%nat /\
              linesCleared g' = linesCleared g + Z.of_nat n /\
              score g' = num_add (score g) (Int (nth n [0; 40; 100; 300; 1200] 0))).
  { intros index Hf. destruct (fall_inv _ _ _ _ Hf) as (res & _ & Hres).
    destruct res; [exact (Hlock index Hres) | subst g'; apply Hnone]. }
  assert (Hmove : forall dir : Z,
            move dir g = Ok (tt, g') ->
            exists n : nat,
              (n <= 4)%nat /\
              linesCleared g' = linesCleared g + Z.of_nat n /\
              score g' = num_add (score g) (Int (nth n [0; 40; 100; 300; 1200] 0))).
  { intros dir Hm. destruct (move_inv _ _ _ Hm) as (res & _ & Hg).
    destruct res; [exact (Hstay Hg) | subst g'; apply Hnone]. }
  assert (Hrotate : rotate g = Ok (tt, g') ->
            exists n : nat,
              (n <= 4)%nat /\
              linesCleared g' = linesCleared g + Z.of_nat n /\
              score g' = num_add (score g) (Int (nth n [0; 40; 100; 300; 1200] 0))).
  { intros Hr. destruct (rotate_inv _ _ Hr) as [_ Hloop].
    destruct (rotate_loop_inv _ _ _ _ Hloop)
      as [[_ Hg] | (? & ? & ? & _ & _ & _ & Hg)];
      [exact (Hstay Hg) | subst g'; apply Hnone]. }
  assert (Hhard : forall index : nat,
            hardDrop fuel index g = Ok (tt, g') ->
            exists n : nat,
              (n <= 4)%nat /\
              linesCleared g' = linesCleared g + Z.of_nat n /\
              score g' = num_add (score g) (Int (nth n [0; 40; 100; 300; 1200] 0))).
  { intros index Hh. destruct (hardDrop_inv _ _ _ _ Hh) as (dy & Hloop & Hplace).
    apply (placePiece_Tidy _ _ _ _ (hardDrop_landing_Inv _ _ _ Hinv Hloop)
             (Tidy_set_currentPiece _ _ Htidy) Hplace). }
  destruct o as [dir| |index|index|index|index|index k]; cbn [exec] in H.
  - exact (Hmove dir H).
  - exact (Hrotate H).
  - exact (Hfall index H).
  - exact (Hhard index H).
  - unfold drop, bind at 1, get in H. destruct (isGameOver g).
    + unfold ret in H. injection H as <-. exact (Hstay eq_refl).
    + exact (Hfall index H).
  - exact (Hlock index H).
  - unfold keydown, bind at 1, get in H. destruct (isGameOver g).
    + unfold ret in H. injection H as <-. exact (Hstay eq_refl).
    + destruct k;
        try exact (Hmove _ H); try exact (Hrotate H);
        try exact (Hfall index H); try exact (Hhard index H).
      unfold ret in H. injection H as <-. exact (Hstay eq_refl).
Qed.

Lemma table_bounds (n : nat) :
  (n <= 4)%nat ->
  40 * Z.of_nat n <= nth n [0; 40; 100; 300; 1200] 0 <= 300 * Z.of_nat n.
Proof.
  intros Hn. destruct n as [|[|[|[|[|n]]]]]; try lia; cbn; lia.
Qed.

(** X7.  In every state reached from a new session the score is a number
    between 40 and 300 points for each cleared line: a line is worth at
    least the 40 points of a single clear and at most the 300 points it
    has in a clear of four. *)
Theorem X7_score_between_40_and_300_per_line (g g' : Game) :
  fresh g -> steps g g' ->
  exists s : Z,
    score g' = Int s /\
    0 <= linesCleared g' /\
    40 * linesCleared g' <= s <= 300 * linesCleared g'.
Proof.
  intros Hfresh Hsteps.
  assert (Hstart : score g = Int 0 /\ linesCleared g = 0).
  { destruct Hfresh as (g0 & index & Hindex & Hreset).
    destruct (resetGame_spec index g0 Hindex)
      as (g1 & Hrun & _ & _ & Hs & Hl & _).
    rewrite Hreset in Hrun. injection Hrun as <-. auto. }
  assert (Hreach : forall g2 : Game, steps g g2 -> Inv g2 /\ Tidy g2).
  { intros g2 H2. apply reachable_Tidy. exists g. auto. }
  induction Hsteps as [g | g g2 g3 H12 IH (fuel & o & Hok & Hexec)].
  - destruct Hstart as [-> ->]. exists 0. split; [reflexivity | lia].
  - destruct (IH Hfresh Hstart Hreach) as (s & Hs & Hl0 & Hbounds).
    destruct (Hreach g2 H12) as [Hinv Htidy].
    destruct (exec_counts _ _ _ _ Hinv Htidy Hok Hexec)
      as (n & Hn & Hl & Hscore).
    pose proof (table_bounds n Hn) as Ht.
    exists (s + nth n [0; 40; 100; 300; 1200] 0).
    rewrite Hscore, Hs, Hl. split; [reflexivity | lia].
Qed.

Lemma fresh_start_0 : fresh (start 0).
Proof.
  exists loaded, 0%nat. split; [cbn; lia | vm_compute; reflexivity].
Qed.

Lemma X7_witness :
  exists s : Z, score played = Int s /\ 0 <= linesCleared played.
Proof.
  destruct (X7_score_between_40_and_300_per_line (start 0) played fresh_start_0)
    as (s & Hs & Hl & _).
  - apply (run_steps enough_fuel some_play).
    + repeat constructor; cbn; lia.
    + vm_compute. reflexivity.
  - exists s. auto.
Defined.

(** X8.  In every state reached from a new session the drop interval is
    [1000 - 100 * k] for a number [k] of speed-ups between 0 and 8, and
    each speed-up took ten cleared lines: [10 * k <= linesCleared].  So
    after [L] cleared lines the interval is at least
    [1000 - 100 * (L / 10)], and the fastest interval of 200 needs 80
    cleared lines. *)
Theorem X8_one_speed_up_per_ten_lines (g g' : Game) :
  fresh g -> steps g g' ->
  exists k : Z,
    0 <= k <= 8 /\
    dropInterval g' = 1000 - 100 * k /\
    10 * k <= linesCleared g'.
Proof.
  intros Hfresh Hsteps.
  assert (Hstart : dropInterval g = 1000 /\ linesCleared g = 0).
  { destruct Hfresh as (g0 & index & Hindex & Hreset).
    destruct (resetGame_spec index g0 Hindex)
      as (g1 & Hrun & _ & _ & _ & Hl & Hd & _).
    rewrite Hreset in Hrun. injection Hrun as <-. auto. }
  induction Hsteps as [g | g g2 g3 H12 IH (fuel & o & Hok & Hexec)].
  - destruct Hstart as [-> ->]. exists 0. lia.
  - destruct (IH Hfresh Hstart) as (k & Hk & Hd & Hl).
    destruct (exec_interval _ _ _ _ Hexec)
      as [[Hd' Hl'] | (Hd' & Hfloor & Hrem & Hl')].
    + exists k. lia.
    + exists (k + 1). split; [lia |]. split; [lia |].
      pose proof (Z.quot_rem' (linesCleared g3) 10) as Hq.
      rewrite Hrem in Hq. lia.
Qed.

Lemma X8_witness :
  exists k : Z, dropInterval played = 1000 - 100 * k /\ 10 * k <= linesCleared played.
Proof.
  destruct (X8_one_speed_up_per_ten_lines (start 0) played fresh_start_0)
    as (k & _ & Hd & Hl).
  - apply (run_steps enough_fuel some_play).
    + repeat constructor; cbn; lia.
    + vm_compute. reflexivity.
  - exists k. auto.
Defined.

(** ** What the board holds *)

Lemma board_set_cells (P : option string -> Prop) (b b' : Board) (y x : Z)
    (v : string) :
  P None -> P (Some v) ->
  board_set b y x v = Ok b' ->
  Forall (Forall P) b -> Forall (Forall P) b'.
Proof.
  intros Hnone Hv. unfold board_set.
  destruct (index b y) as [row|] eqn:Hrow; [| discriminate].
  intros H Hb. injection H as <-.
  apply Forall_insert; [exact Hb |].
  assert (Hrow' : Forall P row).
  { unfold index in Hrow. destruct (y <? 0); [discriminate |].
    rewrite Forall_lookup in Hb. exact (Hb _ _ Hrow). }
  unfold row_set. destruct (x <? 0); [exact Hrow' |].
  destruct (Z.to_nat x <? length row)%nat.
  - apply Forall_insert; assumption.
  - apply Forall_app. split; [exact Hrow' |].
    apply Forall_app. split; [apply Forall_replicate; exact Hnone |].
    constructor; [exact Hv | constructor].
Qed.

Lemma placePiece_cols_cells (P : option string -> Prop) (p : Piece.t) (r : Z)
    (row : list Z) :
  P None -> P (Some (Piece.colour p)) ->
  forall (c : Z) (b b' : Board),
    placePiece_cols p r c row b = Ok b' ->
    Forall (Forall P) b -> Forall (Forall P) b'.
Proof.
  intros Hnone Hcol. induction row as [|v rest IH]; intros c b b' H Hb.
  - injection H as <-. exact Hb.
  - cbn [placePiece_cols] in H. destruct (value_truthy v); [| exact (IH _ _ _ H Hb)].
    cbv zeta in H. destruct (Piece.y p + r >=? 0); [| exact (IH _ _ _ H Hb)].
    destruct (board_set b _ _ _) as [b1| |] eqn:Hset; try discriminate.
    exact (IH _ _ _ H (board_set_cells P _ _ _ _ _ Hnone Hcol Hset Hb)).
Qed.

Lemma placePiece_rows_cells (P : option string -> Prop) (p : Piece.t)
    (shape : Shape) :
  P None -> P (Some (Piece.colour p)) ->
  forall (r : Z) (b b' : Board),
    placePiece_rows p r shape b = Ok b' ->
    Forall (Forall P) b -> Forall (Forall P) b'.
Proof.
  intros Hnone Hcol. induction shape as [|row rest IH]; intros r b b' H Hb.
  - injection H as <-. exact Hb.
  - cbn [placePiece_rows] in H.
    destruct (placePiece_cols p r 0 row b) as [b1| |] eqn:Hcols;
      try discriminate.
    exact (IH _ _ _ H (placePiece_cols_cells P p r row Hnone Hcol _ _ _ Hcols Hb)).
Qed.

Lemma clearLines_loop_cells (P : option string -> Prop) (fuel : nat) :
  P None ->
  forall (b : Board) (row : Z) (n : nat) (b' : Board) (n' : nat),
    clearLines_loop fuel b row n = Ok (b', n') ->
    Forall (Forall P) b -> Forall (Forall P) b'.
Proof.
  intros Hnone. induction fuel as [|fuel IH]; intros b row n b' n' H Hb;
    [discriminate |].
  cbn [clearLines_loop] in H.
  destruct (row >=? 0); [| injection H as <- _; exact Hb].
  destruct (index b row) as [cells|]; [| discriminate].
  destruct (row_full cells); [| exact (IH _ _ _ _ _ H Hb)].
  apply (IH _ _ _ _ _ H). constructor.
  - apply Forall_replicate. exact Hnone.
  - apply Forall_delete. exact Hb.
Qed.

Lemma placePiece_cells (P : option string -> Prop) (fuel index : nat)
    (g g' : Game) :
  P None -> P (Some (Piece.colour (currentPiece g))) ->
  placePiece fuel index g = Ok (tt, g') ->
  Forall (Forall P) (board g) -> Forall (Forall P) (board g').
Proof.
  intros Hnone Hcol H Hb.
  destruct (placePiece_inv _ _ _ _ H) as (g1 & g2 & H1 & H2 & H3).
  assert (Hb1 : Forall (Forall P) (board g1)).
  { unfold lockCells, bind, get, lift, modify, throw in H1.
    destruct (Piece.rotations (currentPiece g) !! _) as [shape|];
      [| discriminate].
    destruct (placePiece_rows _ _ _ _) as [b1| |] eqn:Hrows; try discriminate.
    injection H1 as <-. cbn.
    exact (placePiece_rows_cells P _ shape Hnone Hcol _ _ _ Hrows Hb). }
  assert (Hb2 : Forall (Forall P) (board g2)).
  { destruct (clearLines_inv _ _ _ H2) as (b & n & Hloop).
    destruct (clearLines_run fuel g1 b n Hloop) as (g2' & Hrun & Hbd & _).
    rewrite H2 in Hrun. injection Hrun as <-. rewrite Hbd.
    exact (clearLines_loop_cells P fuel Hnone _ _ _ _ _ Hloop Hb1). }
  destruct (spawn_keeps_interval _ _ _ H3) as (_ & _ & _ & ->). exact Hb2.
Qed.

Lemma piece_ok_colour (p : Piece.t) : piece_ok p -> catalog_cell (Some (Piece.colour p)).
Proof.
  intros [(def & Hdef & _ & _ & Hcol) _]. right. exists def.
  rewrite Hcol. auto.
Qed.

Lemma exec_cells (fuel : nat) (o : op) (g g' : Game) :
  Inv g -> exec fuel o g = Ok (tt, g') ->
  Forall (Forall catalog_cell) (board g) ->
  Forall (Forall catalog_cell) (board g').
Proof.
  intros Hinv H Hb.
  assert (Hlock : forall index : nat,
            placePiece fuel index g = Ok (tt, g') ->
            Forall (Forall catalog_cell) (board g')).
  { intros index Hp.
    apply (placePiece_cells catalog_cell fuel index g g'); try assumption.
    - left. reflexivity.
    - apply piece_ok_colour. apply Hinv. }
  assert (Hfall : forall index : nat,
            fall fuel index g = Ok (tt, g') ->
            Forall (Forall catalog_cell) (board g')).
  { intros index Hf. destruct (fall_inv _ _ _ _ Hf) as (res & _ & Hres).
    destruct res; [exact (Hlock index Hres) | subst g'; exact Hb]. }
  assert (Hmove : forall dir : Z,
            move dir g = Ok (tt, g') -> Forall (Forall catalog_cell) (board g')).
  { intros dir Hm. destruct (move_inv _ _ _ Hm) as (res & _ & ->).
    destruct res; exact Hb. }
  assert (Hrotate : rotate g = Ok (tt, g') ->
                    Forall (Forall catalog_cell) (board g')).
  { intros Hr. destruct (rotate_inv _ _ Hr) as [_ Hloop].
    destruct (rotate_loop_inv _ _ _ _ Hloop)
      as [[_ ->] | (? & ? & ? & _ & _ & _ & ->)]; exact Hb. }
  assert (Hhard : forall index : nat,
            hardDrop fuel index g = Ok (tt, g') ->
            Forall (Forall catalog_cell) (board g')).
  { intros index Hh. destruct (hardDrop_inv _ _ _ _ Hh) as (dy & Hloop & Hplace).
    apply (placePiece_cells catalog_cell fuel index (lowered dy g) g');
      [left; reflexivity | | exact Hplace | exact Hb].
    apply (piece_ok_colour (currentPiece g)). apply Hinv. }
  destruct o as [dir| |index|index|index|index|index k]; cbn [exec] in H.
  - exact (Hmove dir H).
  - exact (Hrotate H).
  - exact (Hfall index H).
  - exact (Hhard index H).
  - unfold drop, bind at 1, get in H. destruct (isGameOver g).
    + unfold ret in H. injection H as <-. exact Hb.
    + exact (Hfall index H).
  - exact (Hlock index H).
  - unfold keydown, bind at 1, get in H. destruct (isGameOver g).
    + unfold ret in H. injection H as <-. exact Hb.
    + destruct k;
        try exact (Hmove _ H); try exact (Hrotate H);
        try exact (Hfall index H); try exact (Hhard index H).
      unfold ret in H. injection H as <-. exact Hb.
Qed.

(** X9.  In every reachable state each cell of the board is [null] or
    holds the colour string of a variant of the catalog; so a cell is
    truthy exactly when it is not [null], and [draw] only ever passes
    catalog colours to [drawCell]. *)
Theorem X9_board_holds_catalog_colours (g : Game) :
  reachable g ->
  forall (row : list (option string)) (v : option string),
    row ∈ board g -> v ∈ row ->
    (v = None \/ exists def : Def.t, def ∈ PIECES /\ v = Some (Def.colour def)) /\
    (cell_truthy v = true <-> v <> None).
Proof.
  intros (g1 & (g0 & index & Hindex & Hreset) & Hsteps).
  assert (Hall : Forall (Forall catalog_cell) (board g)).
  { destruct (resetGame_spec index g0 Hindex) as (g1' & Hrun & Hinv1 & Hb & _).
    rewrite Hreset in Hrun. injection Hrun as <-.
    assert (H1 : Forall (Forall catalog_cell) (board g1)).
    { rewrite Hb. apply Forall_replicate. apply Forall_replicate.
      left. reflexivity. }
    clear Hreset Hb.
    induction Hsteps as [g | g g2 g3 H12 IH (fuel & o & Hok & Hexec)];
      [exact H1 |].
    exact (exec_cells _ _ _ _ (steps_Inv _ _ H12 Hinv1) Hexec (IH Hinv1 H1)). }
  intros row v Hrow Hv.
  rewrite Forall_forall in Hall. specialize (Hall row Hrow).
  rewrite Forall_forall in Hall. specialize (Hall v Hv).
  split; [exact Hall |].
  destruct Hall as [-> | (def & Hdef & ->)].
  - split; [discriminate | congruence].
  - split; [discriminate |]. intros _.
    assert (Hcolours : forallb (fun d => negb (String.eqb (Def.colour d) EmptyString))
                               PIECES = true) by (vm_compute; reflexivity).
    rewrite forallb_forall in Hcolours.
    exact (Hcolours def (proj1 (list_elem_of_In _ _) Hdef)).
Qed.

Lemma reachable_played : reachable played.
Proof.
  exists (start 0). split; [exact fresh_start_0 |].
  apply (run_steps enough_fuel some_play).
  - repeat constructor; cbn; lia.
  - vm_compute. reflexivity.
Qed.

Lemma X9_witness : cell_truthy (Some "#00b4d8"%string) = true.
Proof.
  apply (X9_board_holds_catalog_colours played reachable_played
           [None; None; Some "#00b4d8"%string; None; None; None; None; None;
            None; None]
           (Some "#00b4d8"%string)).
  - apply list_elem_of_lookup. exists 19%nat. vm_compute. reflexivity.
  - apply list_elem_of_lookup. exists 2%nat. reflexivity.
  - discriminate.
Defined.

(** ** Line clearing twice *)

(** X10.  After [clearLines] a second [clearLines] changes nothing: no
    full row is left, so board, score, line count and interval stay. *)
Theorem X10_clearLines_twice (fuel : nat) (g : Game) :
  wf_board (board g) -> (enough_fuel <= fuel)%nat ->
  exists g' : Game,
    clearLines fuel g = Ok (tt, g') /\
    clearLines fuel g' = Ok (tt, g').
Proof.
  intros Hwf Hfuel.
  destruct (clearLines_wf fuel g Hwf Hfuel) as (g' & Hrun & Hb & _).
  exists g'. split; [exact Hrun |].
  assert (Hwf' : wf_board (board g')).
  { rewrite Hb. apply wf_board_clearLines. exact Hwf. }
  assert (Hnone : length (full_rows (board g')) = 0%nat).
  { rewrite Hb. unfold full_rows at 1. rewrite List.filter_app.
    fold (full_rows (replicate (length (full_rows (board g))) empty_row)).
    fold (full_rows (kept_rows (board g))).
    rewrite full_rows_replicate_empty, full_rows_kept_rows. reflexivity. }
  destruct (clearLines_wf fuel g' Hwf' Hfuel)
    as (g'' & Hrun' & _ & _ & _ & _ & _ & Hzero).
  rewrite Hrun', (Hzero Hnone). reflexivity.
Qed.

Lemma X10_witness :
  exists g' : Game,
    clearLines enough_fuel two_full_rows = Ok (tt, g') /\
    clearLines enough_fuel g' = Ok (tt, g').
Proof.
  exact (X10_clearLines_twice enough_fuel two_full_rows wf_board_two_full_rows
           (Nat.le_refl _)).
Defined.

(** ** The interval timer *)

(** What [clearLines] does to the timers: nothing, or (on a speed-up) the
    timer of [dropTimer] is cancelled and a new one with the new interval
    is started and stored in [dropTimer]. *)
Lemma clearLines_timers (fuel : nat) (g g' : Game) :
  clearLines fuel g = Ok (tt, g') ->
  isGameOver g' = isGameOver g /\
  ((dropInterval g' = dropInterval g /\ dropTimer g' = dropTimer g /\
    timers g' = timers g) \/
   (dropTimer g' = Some (S (nextTimer g)) /\
    timers g' =
      (S (nextTimer g), dropInterval g') ::
      match dropTimer g with
      | Some id => List.filter (fun t => negb (Nat.eqb (fst t) id)) (timers g)
      | None => timers g
      end)).
Proof.
  unfold clearLines, bind, get, lift.
  destruct (clearLines_loop fuel (board g) (ROWS - 1) 0) as [[b n]| |];
    try discriminate.
  cbn [fst snd modify]. destruct n as [|n].
  - cbn. intros H. injection H as <-. cbn. auto.
  - change (0 <? S n)%nat with true. cbv iota.
    cbn [modify set_board set_score set_linesCleared linesCleared dropInterval].
    destruct ((Z.rem (linesCleared g + Z.of_nat (S n)) 10 =? 0)
              && (dropInterval g >? 200)).
    + unfold clearInterval, setInterval, bind, get, modify, ret. cbn.
      destruct (dropTimer g) as [id|]; cbn; intros H; injection H as <-;
        cbn; auto.
    + cbn. intros H. injection H as <-. cbn. auto.
Qed.

Lemma endGame_timers (g g' : Game) :
  endGame g = Ok (tt, g') ->
  isGameOver g' = true /\
  timers g' =
    match dropTimer g with
    | Some id => List.filter (fun t => negb (Nat.eqb (fst t) id)) (timers g)
    | None => timers g
    end.
Proof.
  unfold endGame, bind, get, modify, clearInterval. cbn.
  destruct (dropTimer g) as [id|]; cbn; intros H; injection H as <-; cbn; auto.
Qed.

Lemma filter_own_timer (id : nat) (period : Z) :
  List.filter (fun t : nat * Z => negb (Nat.eqb (fst t) id)) [(id, period)] = [].
Proof. cbn. rewrite Nat.eqb_refl. reflexivity. Qed.

Lemma Timed_set_currentPiece (p : Piece.t) (g : Game) :
  Timed g -> Timed (set_currentPiece p g).
Proof. intros H. exact H. Qed.

Lemma placePiece_Timed (fuel index : nat) (g g' : Game) :
  isGameOver g = false -> Timed g ->
  placePiece fuel index g = Ok (tt, g') -> Timed g'.
Proof.
  intros Hrunning Htimed H. unfold Timed in Htimed. rewrite Hrunning in Htimed.
  destruct Htimed as (n & Hdt & Hts).
  destruct (placePiece_inv _ _ _ _ H) as (g1 & g2 & H1 & H2 & H3).
  destruct (lockCells_inv _ _ H1) as [b1 ->].
  destruct (clearLines_timers _ _ _ H2) as [Hover2 Hcases].
  cbn [isGameOver dropInterval dropTimer timers nextTimer set_board]
    in Hover2, Hcases.
  assert (H2' : exists n2 : nat,
            dropTimer g2 = Some (S n2) /\ timers g2 = [(S n2, dropInterval g2)]).
  { destruct Hcases as [(Hd & Hdt2 & Hts2) | (Hdt2 & Hts2)].
    - exists n. rewrite Hdt2, Hts2, Hd. auto.
    - exists (nextTimer g). rewrite Hdt2, Hts2, Hdt, Hts, filter_own_timer. auto. }
  destruct H2' as (n2 & Hdt2 & Hts2).
  destruct (spawn_inv _ _ _ H3) as (p & res & _ & _ & Hend).
  destruct res.
  - destruct (endGame_timers _ _ Hend) as [Hflag Hts'].
    cbn [dropTimer timers set_currentPiece] in Hts'.
    unfold Timed. rewrite Hflag, Hts', Hdt2, Hts2. apply filter_own_timer.
  - subst g'. unfold Timed. cbn. rewrite Hover2, Hrunning. exists n2. auto.
Qed.

Lemma resetGame_Timed (index : nat) (g g' : Game) :
  Timed g \/ timers g = [] -> resetGame index g = Ok (tt, g') -> Timed g'.
Proof.
  intros Htimed. unfold resetGame, bind, modify, get. cbv beta iota.
  set (g1 := set_isGameOver false _).
  destruct (randomPiece index g1) as [[p g1']| |] eqn:Hp; try discriminate.
  pose proof (randomPiece_pure _ _ _ _ Hp) as ->. cbv beta iota.
  assert (Hleft : (if timer_truthy (dropTimer g)
                   then match dropTimer g with
                        | Some id =>
                          List.filter (fun t => negb (Nat.eqb (fst t) id)) (timers g)
                        | None => timers g
                        end
                   else timers g) = []).
  { assert (Hempty : timers g = [] ->
              (if timer_truthy (dropTimer g)
               then match dropTimer g with
                    | Some id =>
                      List.filter (fun t => negb (Nat.eqb (fst t) id)) (timers g)
                    | None => timers g
                    end
               else timers g) = []).
    { intros ->. destruct (timer_truthy (dropTimer g));
        [destruct (dropTimer g) |]; reflexivity. }
    destruct Htimed as [Htimed | Htimed]; [| exact (Hempty Htimed)].
    unfold Timed in Htimed. destruct (isGameOver g); [exact (Hempty Htimed) |].
    destruct Htimed as (n & -> & ->). cbn [timer_truthy].
    apply filter_own_timer. }
  unfold clearInterval, setInterval, bind, get, modify, ret.
  change (dropTimer (set_currentPiece p g1)) with (dropTimer g).
  destruct (timer_truthy (dropTimer g));
    [destruct (dropTimer g) |];
    intros H; injection H as <-; unfold Timed; cbn in *;
    rewrite Hleft; eexists; split; reflexivity.
Qed.

Lemma handle_Timed (fuel : nat) (e : event) (g g' : Game) :
  Timed g -> handle fuel e g = Ok (tt, g') -> Timed g'.
Proof.
  intros Htimed H.
  assert (Hfall : forall index : nat,
            isGameOver g = false ->
            fall fuel index g = Ok (tt, g') -> Timed g').
  { intros index Hrunning Hf.
    destruct (fall_inv _ _ _ _ Hf) as (res & _ & Hres).
    destruct res; [exact (placePiece_Timed _ _ _ _ Hrunning Htimed Hres) |].
    subst g'. exact Htimed. }
  destruct e as [index k|index|index]; cbn [handle] in H.
  - unfold keydown, bind at 1, get in H. destruct (isGameOver g) eqn:Hover.
    + unfold ret in H. injection H as <-. exact Htimed.
    + destruct k; try exact (Hfall index eq_refl H).
      * destruct (move_inv _ _ _ H) as (res & _ & ->).
        destruct res; exact Htimed.
      * destruct (move_inv _ _ _ H) as (res & _ & ->).
        destruct res; exact Htimed.
      * destruct (move_inv _ _ _ H) as (res & _ & ->).
        destruct res; exact Htimed.
      * destruct (move_inv _ _ _ H) as (res & _ & ->).
        destruct res; exact Htimed.
      * destruct (rotate_inv _ _ H) as [_ Hloop].
        destruct (rotate_loop_inv _ _ _ _ Hloop)
          as [[_ ->] | (? & ? & ? & _ & _ & _ & ->)]; exact Htimed.
      * destruct (rotate_inv _ _ H) as [_ Hloop].
        destruct (rotate_loop_inv _ _ _ _ Hloop)
          as [[_ ->] | (? & ? & ? & _ & _ & _ & ->)]; exact Htimed.
      * destruct (hardDrop_inv _ _ _ _ H) as (dy & _ & Hplace).
        exact (placePiece_Timed fuel index (lowered dy g) g' Hover
                 (Timed_set_currentPiece _ _ Htimed) Hplace).
      * unfold ret in H. injection H as <-. exact Htimed.
  - unfold drop, bind at 1, get in H. destruct (isGameOver g) eqn:Hover.
    + unfold ret in H. injection H as <-. exact Htimed.
    + exact (Hfall index eq_refl H).
  - exact (resetGame_Timed _ _ _ (or_introl Htimed) H).
Qed.

(** X11.  In every state of the page, while the game is not over exactly
    one interval timer runs, its handle is the one stored in [dropTimer]
    and its period is the current [dropInterval]; once the game is over no
    timer runs.  No timer is ever left behind by a speed-up or a restart. *)
Theorem X11_one_timer_while_running (g : Game) :
  session g ->
  (isGameOver g = false ->
   exists h : nat,
     dropTimer g = Some h /\ timers g = [(h, dropInterval g)]) /\
  (isGameOver g = true -> timers g = []).
Proof.
  intros Hs.
  assert (Htimed : Timed g).
  { induction Hs as [index g Hindex Hreset | fuel e g g' _ IH Hindex Hrun].
    - apply (resetGame_Timed index loaded g); [right; reflexivity | exact Hreset].
    - exact (handle_Timed _ _ _ _ IH Hrun). }
  unfold Timed in Htimed. split; intros Hover; rewrite Hover in Htimed.
  - destruct Htimed as (n & Hdt & Hts). exists (S n). auto.
  - exact Htimed.
Qed.

Lemma X11_witness :
  exists h : nat,
    dropTimer page_played = Some h /\
    timers page_played = [(h, dropInterval page_played)].
Proof.
  apply (X11_one_timer_while_running page_played session_page_played).
  vm_compute. reflexivity.
Defined.

(** ** Game over and restart *)

Lemma collides_congr (g g' : Game) (offsetX offsetY : Z) (rot : nat)
    (res : bool) :
  board g' = board g -> currentPiece g' = currentPiece g ->
  collides offsetX offsetY rot g = Ok (res, g) ->
  collides offsetX offsetY rot g' = Ok (res, g').
Proof.
  intros Hb Hp. unfold collides, bind, get, lift, throw. rewrite Hb, Hp.
  destruct (Piece.rotations (currentPiece g) !! rot); [| discriminate].
  destruct (collides_rows _ _ _ _ _ _); try discriminate.
  intros H. injection H as <-. reflexivity.
Qed.

(** A lock that ends the game leaves a piece that collides where it was
    spawned: at row [-1], in its first rotation state. *)
Lemma placePiece_over (fuel index : nat) (g g' : Game) :
  (index < length PIECES)%nat ->
  isGameOver g = false ->
  placePiece fuel index g = Ok (tt, g') ->
  isGameOver g' = true ->
  collides 0 0 (Piece.rotationIndex (currentPiece g')) g' = Ok (true, g') /\
  Piece.rotationIndex (currentPiece g') = 0%nat /\
  Piece.y (currentPiece g') = -1.
Proof.
  intros Hindex Hrunning H Hover.
  destruct (placePiece_inv _ _ _ _ H) as (g1 & g2 & H1 & H2 & H3).
  assert (Hover2 : isGameOver g2 = false).
  { destruct (lockCells_inv _ _ H1) as [b1 ->].
    destruct (clearLines_keeps _ _ _ H2) as (_ & -> & _). exact Hrunning. }
  destruct (spawn_inv _ _ _ H3) as (p & res & Hp & Hc & Hend).
  destruct (randomPiece_spec index g2 Hindex)
    as (p' & def & Hp' & _ & _ & _ & _ & Hri & Hy & _).
  rewrite Hp in Hp'. injection Hp' as <-.
  destruct res.
  - destruct (endGame_spec (set_currentPiece p g2))
      as (g'' & Hg'' & _ & Hb & Hpc & _).
    rewrite Hend in Hg''. injection Hg'' as <-.
    rewrite Hpc. cbn [currentPiece set_currentPiece].
    split; [| auto].
    apply (collides_congr (set_currentPiece p g2) g'); assumption.
  - subst g'. cbn in Hover. congruence.
Qed.

Lemma session_over_spawned (g : Game) :
  session g -> isGameOver g = true ->
  collides 0 0 (Piece.rotationIndex (currentPiece g)) g = Ok (true, g) /\
  Piece.rotationIndex (currentPiece g) = 0%nat /\
  Piece.y (currentPiece g) = -1.
Proof.
  intros Hs Hover.
  induction Hs as [index g Hindex Hreset | fuel e g g' Hs IH Hindex Hrun].
  - destruct (resetGame_spec index loaded Hindex)
      as (g1 & Hrun & _ & _ & _ & _ & _ & Hflag).
    rewrite Hreset in Hrun. injection Hrun as <-. congruence.
  - assert (Hfall : forall index : nat,
              (index < length PIECES)%nat ->
              isGameOver g = false ->
              fall fuel index g = Ok (tt, g') ->
              collides 0 0 (Piece.rotationIndex (currentPiece g')) g'
              = Ok (true, g') /\
              Piece.rotationIndex (currentPiece g') = 0%nat /\
              Piece.y (currentPiece g') = -1).
    { intros index Hi Hrunning Hf.
      destruct (fall_inv _ _ _ _ Hf) as (res & _ & Hres).
      destruct res; [exact (placePiece_over _ _ _ _ Hi Hrunning Hres Hover) |].
      subst g'. cbn in Hover. congruence. }
    destruct e as [index k|index|index]; cbn [handle event_index] in *.
    + unfold keydown, bind at 1, get in Hrun.
      destruct (isGameOver g) eqn:Hg.
      * unfold ret in Hrun. injection Hrun as <-. exact (IH eq_refl).
      * destruct k; try exact (Hfall index Hindex eq_refl Hrun);
          try (destruct (move_inv _ _ _ Hrun) as (res & _ & ->);
               destruct res; cbn in Hover; congruence);
          try (destruct (rotate_inv _ _ Hrun) as [_ Hloop];
               destruct (rotate_loop_inv _ _ _ _ Hloop)
                 as [[_ ->] | (? & ? & ? & _ & _ & _ & ->)];
               cbn in Hover; congruence).
        -- destruct (hardDrop_inv _ _ _ _ Hrun) as (dy & _ & Hplace).
           exact (placePiece_over fuel index (lowered dy g) g' Hindex Hg
                    Hplace Hover).
        -- unfold ret in Hrun. injection Hrun as <-. congruence.
    + unfold drop, bind at 1, get in Hrun. destruct (isGameOver g) eqn:Hg.
      * unfold ret in Hrun. injection Hrun as <-. exact (IH eq_refl).
      * exact (Hfall index Hindex eq_refl Hrun).
    + destruct (resetGame_spec index g Hindex)
        as (g1 & Hrun1 & _ & _ & _ & _ & _ & Hflag).
      rewrite Hrun in Hrun1. injection Hrun1 as <-. congruence.
Qed.

(** X12.  In a state of the page in which the game is over, the active
    piece is the piece spawned last, at row [-1] in its first rotation
    state, and it collides there; key presses and ticks change nothing. *)
Theorem X12_game_over_is_a_collision_at_spawn (g : Game) :
  session g -> isGameOver g = true ->
  collides 0 0 (Piece.rotationIndex (currentPiece g)) g = Ok (true, g) /\
  Piece.rotationIndex (currentPiece g) = 0%nat /\
  Piece.y (currentPiece g) = -1 /\
  (forall (fuel index : nat) (k : key), keydown fuel index k g = Ok (tt, g)) /\
  (forall fuel index : nat, drop fuel index g = Ok (tt, g)).
Proof.
  intros Hs Hover.
  assert (Hfrozen :
            (forall (fuel index : nat) (k : key),
               keydown fuel index k g = Ok (tt, g)) /\
            (forall fuel index : nat, drop fuel index g = Ok (tt, g))).
  { split; intros; unfold keydown, drop, bind, get; rewrite Hover; reflexivity. }
  pose proof (session_over_spawned g Hs Hover) as Hspawned. tauto.
Qed.

Lemma session_page_over : session page_over.
Proof.
  apply (session_run enough_fuel (replicate 10 (EvKey 3%nat Space)) (start 3)).
  - apply session_start. cbn. lia.
  - repeat constructor; cbn; lia.
  - vm_compute. reflexivity.
Qed.

Lemma X12_witness :
  collides 0 0 (Piece.rotationIndex (currentPiece page_over)) page_over
  = Ok (true, page_over).
Proof.
  apply (X12_game_over_is_a_collision_at_spawn page_over session_page_over).
  vm_compute. reflexivity.
Defined.

Lemma randomPiece_any_state (index : nat) (g g' : Game) (p : Piece.t) :
  randomPiece index g = Ok (p, g) -> randomPiece index g' = Ok (p, g').
Proof.
  unfold randomPiece, throw, ret.
  destruct (PIECES !! index) as [def|]; [| discriminate].
  destruct (Def.rotations def) as [|[|row0 rest0] rest]; try discriminate.
  intros H. injection H as <-. reflexivity.
Qed.

Lemma resetGame_fields (index : nat) (g0 g : Game) :
  resetGame index g0 = Ok (tt, g) ->
  randomPiece index g0 = Ok (currentPiece g, g0) /\
  board g = empty_board /\ score g = Int 0 /\ linesCleared g = 0 /\
  dropInterval g = 1000 /\ isGameOver g = false.
Proof.
  unfold resetGame, bind, modify, get. cbv beta iota.
  set (g1 := set_isGameOver false _).
  destruct (randomPiece index g1) as [[p g1']| |] eqn:Hp; try discriminate.
  pose proof (randomPiece_pure _ _ _ _ Hp) as ->. cbv beta iota.
  pose proof (randomPiece_any_state index g1 g0 p Hp) as Hp0.
  unfold clearInterval, setInterval, bind, get, modify, ret.
  destruct (timer_truthy (dropTimer (set_currentPiece p g1)));
    [destruct (dropTimer (set_currentPiece p g1)) |];
    intros H; injection H as <-; cbn; repeat split; exact Hp0.
Qed.

(** X13.  [resetGame] returns from every state, whatever happened before,
    and the session it starts is the one the page starts with when it is
    loaded: the same empty board, the same piece for the same random draw,
    score and line count 0, interval 1000, and the game not over. *)
Theorem X13_restart_is_a_new_session (index : nat) (g0 : Game) :
  (index < length PIECES)%nat ->
  exists g : Game,
    resetGame index g0 = Ok (tt, g) /\
    board g = board (start index) /\
    currentPiece g = currentPiece (start index) /\
    score g = score (start index) /\
    linesCleared g = linesCleared (start index) /\
    dropInterval g = dropInterval (start index) /\
    isGameOver g = isGameOver (start index) /\
    isGameOver g = false /\
    board g = replicate (Z.to_nat ROWS) (replicate (Z.to_nat COLS) None).
Proof.
  intros Hindex.
  destruct (resetGame_spec index g0 Hindex) as (g & Hrun & _).
  destruct (resetGame_spec index loaded Hindex) as (g1 & Hrun1 & _).
  assert (Hstart : start index = g1) by (unfold start; rewrite Hrun1; reflexivity).
  destruct (resetGame_fields _ _ _ Hrun) as (Hp & Hb & Hs & Hl & Hd & Ho).
  destruct (resetGame_fields _ _ _ Hrun1) as (Hp1 & Hb1 & Hs1 & Hl1 & Hd1 & Ho1).
  exists g. split; [exact Hrun |]. rewrite Hstart.
  rewrite Hb, Hb1, Hs, Hs1, Hl, Hl1, Hd, Hd1, Ho, Ho1.
  repeat split; try reflexivity.
  pose proof (randomPiece_any_state index g0 loaded _ Hp) as Hp'.
  rewrite Hp1 in Hp'. injection Hp' as Heq. symmetry. exact Heq.
Qed.

Lemma X13_witness :
  exists g : Game,
    resetGame 2 page_over = Ok (tt, g) /\ board g = board (start 2).
Proof.
  destruct (X13_restart_is_a_new_session 2 page_over) as (g & Hrun & Hb & _).
  - cbn. lia.
  - exists g. auto.
Defined.

(** ** Colour strings *)

Lemma hex_char_facts (v : Z) :
  0 <= v < 16 ->
  hex_digit_value (hex_char v) = Some v /\
  is_space (hex_char v) = false /\
  Ascii.eqb (hex_char v) "-" = false /\
  Ascii.eqb (hex_char v) "+" = false /\
  Ascii.eqb (hex_char v) "x" = false /\
  Ascii.eqb (hex_char v) "X" = false /\
  Ascii.eqb (hex_char v) "#" = false.
Proof.
  intros Hv.
  assert (Hcases : v = 0 \/ v = 1 \/ v = 2 \/ v = 3 \/ v = 4 \/ v = 5 \/ v = 6
                   \/ v = 7 \/ v = 8 \/ v = 9 \/ v = 10 \/ v = 11 \/ v = 12
                   \/ v = 13 \/ v = 14 \/ v = 15) by lia.
  repeat (destruct Hcases as [-> | Hcases]; [vm_compute; tauto |]).
  subst v. vm_compute. tauto.
Qed.

(** The channels of a six-digit value. *)
Lemma channels_of_value (r g b : Z) :
  0 <= r < 256 -> 0 <= g < 256 -> 0 <= b < 256 ->
  let n := ToInt32 (to_number (r * 65536 + g * 256 + b)) in
  Z.land (Z.shiftr n 16) 255 = r /\
  Z.land (Z.shiftr n 8) 255 = g /\
  Z.land n 255 = b.
Proof.
  intros Hr Hg Hb. cbv zeta.
  assert (Hn : 0 <= r * 65536 + g * 256 + b < 16777216) by lia.
  set (n := r * 65536 + g * 256 + b) in *.
  assert (Hnum : to_number n = Finite n).
  { unfold to_number. cbv zeta.
    destruct (Z.abs n <? 2 ^ 53) eqn:E; [reflexivity |].
    apply Z.ltb_ge in E. assert (2 ^ 53 = 9007199254740992) by reflexivity. lia. }
  rewrite Hnum. unfold ToInt32. cbv zeta.
  assert (H32 : 2 ^ 32 = 4294967296) by reflexivity.
  assert (H31 : 2 ^ 31 = 2147483648) by reflexivity.
  rewrite Z.mod_small by lia.
  destruct (2 ^ 31 <=? n) eqn:E; [apply Z.leb_le in E; lia |].
  change 255 with (Z.ones 8). rewrite !Z.land_ones by lia.
  rewrite !Z.shiftr_div_pow2 by lia.
  change (2 ^ 16) with 65536. change (2 ^ 8) with 256.
  subst n. repeat split.
  - assert (Hq : (r * 65536 + g * 256 + b) / 65536 = r).
    { symmetry. apply (Z.div_unique _ _ r (g * 256 + b)); lia. }
    rewrite Hq. apply Z.mod_small. lia.
  - assert (Hq : (r * 65536 + g * 256 + b) / 256 = r * 256 + g).
    { symmetry. apply (Z.div_unique _ _ (r * 256 + g) b); lia. }
    rewrite Hq. symmetry. apply (Z.mod_unique _ _ r g); lia.
  - symmetry. apply (Z.mod_unique _ _ (r * 256 + g) b); lia.
Qed.

(** [hexToRgb] on a string [#] and six digits of radix 16, given by the
    values of the digits. *)
Lemma hexToRgb_digits (c1 c2 c3 c4 c5 c6 : ascii) (v1 v2 v3 v4 v5 v6 : Z) :
  hex_digit_value c1 = Some v1 -> hex_digit_value c2 = Some v2 ->
  hex_digit_value c3 = Some v3 -> hex_digit_value c4 = Some v4 ->
  hex_digit_value c5 = Some v5 -> hex_digit_value c6 = Some v6 ->
  0 <= v1 < 16 -> 0 <= v2 < 16 -> 0 <= v3 < 16 ->
  0 <= v4 < 16 -> 0 <= v5 < 16 -> 0 <= v6 < 16 ->
  is_space c1 = false ->
  Ascii.eqb c1 "-" = false -> Ascii.eqb c1 "+" = false ->
  Ascii.eqb c2 "x" = false -> Ascii.eqb c2 "X" = false ->
  hexToRgb (String "#" (String c1 (String c2 (String c3 (String c4
              (String c5 (String c6 EmptyString)))))))
  = Rgb.mk (16 * v1 + v2) (16 * v3 + v4) (16 * v5 + v6).
Proof.
  intros H1 H2 H3 H4 H5 H6 B1 B2 B3 B4 B5 B6 Hsp Hm Hp Hx HX.
  unfold hexToRgb. cbv zeta.
  change (remove_first_hash (String "#" ?s)) with s.
  assert (Hparse :
    parseInt16 (String c1 (String c2 (String c3 (String c4
                  (String c5 (String c6 EmptyString))))))
    = to_number ((16 * v1 + v2) * 65536 + (16 * v3 + v4) * 256
                 + (16 * v5 + v6))).
  { unfold parseInt16. cbn [trim_start]. rewrite Hsp. cbv zeta.
    rewrite Hm, Hp. cbn [orb]. rewrite Hx, HX. cbn [orb].
    rewrite andb_false_r. cbn [starts_with_hex_digit]. rewrite H1.
    cbn [hex_prefix_value]. rewrite H1, H2, H3, H4, H5, H6.
    f_equal. lia. }
  cbn [remove_first_hash]. change (Ascii.eqb "#" "#") with true. cbv iota.
  rewrite Hparse.
  destruct (channels_of_value (16 * v1 + v2) (16 * v3 + v4) (16 * v5 + v6))
    as (Hr & Hg & Hb); try lia.
  cbv zeta in Hr, Hg, Hb. rewrite Hr, Hg, Hb. reflexivity.
Qed.

Lemma toHex_channel (c : Z) :
  0 <= c < 256 ->
  toHex c = String (hex_char (c / 16)) (String (hex_char (c mod 16)) EmptyString).
Proof.
  intros Hc.
  assert (Hall : forallb
            (fun n : nat =>
               String.eqb (toHex (Z.of_nat n))
                 (String (hex_char (Z.of_nat n / 16))
                    (String (hex_char (Z.of_nat n mod 16)) EmptyString)))
            (seq 0 256) = true) by (vm_compute; reflexivity).
  rewrite forallb_forall in Hall.
  specialize (Hall (Z.to_nat c)). rewrite Z2Nat.id in Hall by lia.
  apply String.eqb_eq. apply Hall. apply in_seq. lia.
Qed.

Lemma rgbToHex_read_back (r g b : Z) :
  0 <= r <= 255 -> 0 <= g <= 255 -> 0 <= b <= 255 ->
  hexToRgb (rgbToHex r g b) = Rgb.mk r g b /\
  well_formed_colour (rgbToHex r g b).
Proof.
  intros Hr Hg Hb.
  assert (Hdigit : forall c : Z, 0 <= c < 256 ->
            0 <= c / 16 < 16 /\ 0 <= c mod 16 < 16 /\
            16 * (c / 16) + c mod 16 = c).
  { intros c Hc. pose proof (Z.div_mod c 16 ltac:(lia)).
    pose proof (Z.mod_pos_bound c 16 ltac:(lia)).
    assert (0 <= c / 16 < 16); [| lia].
    split; [apply Z.div_pos; lia | apply Z.div_lt_upper_bound; lia]. }
  destruct (Hdigit r ltac:(lia)) as (R1 & R2 & R3).
  destruct (Hdigit g ltac:(lia)) as (G1 & G2 & G3).
  destruct (Hdigit b ltac:(lia)) as (B1 & B2 & B3).
  unfold rgbToHex.
  rewrite (toHex_channel r), (toHex_channel g), (toHex_channel b) by lia.
  cbv [String.append].
  destruct (hex_char_facts _ R1) as (Hr1 & Hs1 & Hm1 & Hp1 & _).
  destruct (hex_char_facts _ R2) as (Hr2 & _ & _ & _ & Hx2 & HX2 & _).
  destruct (hex_char_facts _ G1) as (Hg1 & _).
  destruct (hex_char_facts _ G2) as (Hg2 & _).
  destruct (hex_char_facts _ B1) as (Hb1 & _).
  destruct (hex_char_facts _ B2) as (Hb2 & _).
  split.
  - rewrite (hexToRgb_digits _ _ _ _ _ _ _ _ _ _ _ _
               Hr1 Hr2 Hg1 Hg2 Hb1 Hb2) by assumption.
    rewrite R3, G3, B3. reflexivity.
  - exists (hex_char (r / 16)), (hex_char (r mod 16)),
           (hex_char (g / 16)), (hex_char (g mod 16)),
           (hex_char (b / 16)), (hex_char (b mod 16)).
    unfold lower_hex. repeat split; eauto.
Qed.

(** X14.  For channels between 0 and 255, [hexToRgb] reads back what
    [rgbToHex] wrote, and what [rgbToHex] writes is a colour string
    [#rrggbb] in lower case. *)
Theorem X14_hexToRgb_after_rgbToHex (r g b : Z) :
  0 <= r <= 255 -> 0 <= g <= 255 -> 0 <= b <= 255 ->
  hexToRgb (rgbToHex r g b) = Rgb.mk r g b /\
  well_formed_colour (rgbToHex r g b).
Proof.
  exact (rgbToHex_read_back r g b).
Qed.

Lemma X14_witness : hexToRgb (rgbToHex 0 180 216) = Rgb.mk 0 180 216.
Proof.
  apply (X14_hexToRgb_after_rgbToHex 0 180 216); lia.
Defined.

(** X15.  On a colour string [#rrggbb] in lower case, [rgbToHex] writes
    back what [hexToRgb] read, and the channels read are between 0 and
    255.  The colours of the catalog are such strings. *)
Theorem X15_rgbToHex_after_hexToRgb (s : string) :
  well_formed_colour s ->
  rgbToHex (Rgb.r (hexToRgb s)) (Rgb.g (hexToRgb s)) (Rgb.b (hexToRgb s)) = s /\
  0 <= Rgb.r (hexToRgb s) <= 255 /\
  0 <= Rgb.g (hexToRgb s) <= 255 /\
  0 <= Rgb.b (hexToRgb s) <= 255.
Proof.
  intros (c1 & c2 & c3 & c4 & c5 & c6
          & (v1 & V1 & ->) & (v2 & V2 & ->) & (v3 & V3 & ->)
          & (v4 & V4 & ->) & (v5 & V5 & ->) & (v6 & V6 & ->) & ->).
  destruct (hex_char_facts _ V1) as (H1 & Hs1 & Hm1 & Hp1 & _).
  destruct (hex_char_facts _ V2) as (H2 & _ & _ & _ & Hx2 & HX2 & _).
  destruct (hex_char_facts _ V3) as (H3 & _).
  destruct (hex_char_facts _ V4) as (H4 & _).
  destruct (hex_char_facts _ V5) as (H5 & _).
  destruct (hex_char_facts _ V6) as (H6 & _).
  rewrite (hexToRgb_digits _ _ _ _ _ _ _ _ _ _ _ _ H1 H2 H3 H4 H5 H6)
    by assumption.
  cbn [Rgb.r Rgb.g Rgb.b].
  assert (Hpair : forall a b : Z, 0 <= a < 16 -> 0 <= b < 16 ->
            toHex (16 * a + b)
            = String (hex_char a) (String (hex_char b) EmptyString)).
  { intros a b Ha Hb. rewrite toHex_channel by lia.
    assert ((16 * a + b) / 16 = a) as ->
      by (symmetry; apply (Z.div_unique _ _ a b); lia).
    assert ((16 * a + b) mod 16 = b) as ->
      by (symmetry; apply (Z.mod_unique _ _ a b); lia).
    reflexivity. }
  split; [| lia].
  unfold rgbToHex. rewrite !Hpair by assumption. reflexivity.
Qed.

Lemma catalog_colours_well_formed :
  Forall (fun def => well_formed_colour (Def.colour def)) PIECES.
Proof.
  assert (Hchar : forall v : Z, 0 <= v < 16 -> lower_hex (hex_char v))
    by (intros v Hv; exists v; auto).
  unfold PIECES. repeat constructor; cbn [Def.colour].
  - exists (hex_char 0), (hex_char 0), (hex_char 11), (hex_char 4),
           (hex_char 13), (hex_char 8).
    repeat split; try (apply Hchar; lia).
  - exists (hex_char 4), (hex_char 5), (hex_char 7), (hex_char 11),
           (hex_char 9), (hex_char 13).
    repeat split; try (apply Hchar; lia).
  - exists (hex_char 15), (hex_char 4), (hex_char 10), (hex_char 2),
           (hex_char 6), (hex_char 1).
    repeat split; try (apply Hchar; lia).
  - exists (hex_char 14), (hex_char 9), (hex_char 12), (hex_char 4),
           (hex_char 6), (hex_char 10).
    repeat split; try (apply Hchar; lia).
  - exists (hex_char 2), (hex_char 10), (hex_char 9), (hex_char 13),
           (hex_char 8), (hex_char 15).
    repeat split; try (apply Hchar; lia).
  - exists (hex_char 10), (hex_char 2), (hex_char 9), (hex_char 11),
           (hex_char 15), (hex_char 14).
    repeat split; try (apply Hchar; lia).
  - exists (hex_char 14), (hex_char 6), (hex_char 3), (hex_char 9),
           (hex_char 4), (hex_char 6).
    repeat split; try (apply Hchar; lia).
Qed.

Lemma X15_witness :
  rgbToHex (Rgb.r (hexToRgb "#00b4d8")) (Rgb.g (hexToRgb "#00b4d8"))
           (Rgb.b (hexToRgb "#00b4d8")) = "#00b4d8"%string.
Proof.
  apply (X15_rgbToHex_after_hexToRgb "#00b4d8").
  pose proof catalog_colours_well_formed as H.
  rewrite Forall_lookup in H. exact (H 0%nat _ eq_refl).
Defined.

Lemma rgbToHex_well_formed (r g b : Z) :
  0 <= r <= 255 -> 0 <= g <= 255 -> 0 <= b <= 255 ->
  well_formed_colour (rgbToHex r g b).
Proof.
  intros Hr Hg Hb.
  assert (Hdigit : forall c : Z, 0 <= c < 256 ->
            lower_hex (hex_char (c / 16)) /\ lower_hex (hex_char (c mod 16))).
  { intros c Hc. pose proof (Z.mod_pos_bound c 16 ltac:(lia)).
    assert (0 <= c / 16 < 16)
      by (split; [apply Z.div_pos; lia | apply Z.div_lt_upper_bound; lia]).
    split; eexists; split; try reflexivity; lia. }
  unfold rgbToHex.
  rewrite (toHex_channel r), (toHex_channel g), (toHex_channel b) by lia.
  cbv [String.append].
  destruct (Hdigit r ltac:(lia)) as [R1 R2].
  destruct (Hdigit g ltac:(lia)) as [G1 G2].
  destruct (Hdigit b ltac:(lia)) as [B1 B2].
  exists (hex_char (r / 16)), (hex_char (r mod 16)),
         (hex_char (g / 16)), (hex_char (g mod 16)),
         (hex_char (b / 16)), (hex_char (b mod 16)).
  repeat split; assumption.
Qed.

Lemma land_255_bounds (n : Z) : 0 <= Z.land n 255 <= 255.
Proof.
  assert (Hland : Z.land n 255 = n mod 256).
  { change 255 with (Z.ones 8). change 256 with (2 ^ 8).
    apply Z.land_ones. lia. }
  rewrite Hland. pose proof (Z.mod_pos_bound n 256 ltac:(lia)) as H. lia.
Qed.

(** X16.  [hexToRgb] returns for every string, and its three channels are
    always between 0 and 255, so [rgbToHex] turns them into a colour
    string [#rrggbb] in lower case.  When the string holds no number (no
    digit of radix 16 where [parseInt] looks for one), the result is black. *)
Theorem X16_hexToRgb_of_any_string (s : string) :
  0 <= Rgb.r (hexToRgb s) <= 255 /\
  0 <= Rgb.g (hexToRgb s) <= 255 /\
  0 <= Rgb.b (hexToRgb s) <= 255 /\
  well_formed_colour
    (rgbToHex (Rgb.r (hexToRgb s)) (Rgb.g (hexToRgb s)) (Rgb.b (hexToRgb s))) /\
  (parseInt16 (remove_first_hash s) = NotANumber ->
   hexToRgb s = Rgb.mk 0 0 0).
Proof.
  assert (Hr : 0 <= Rgb.r (hexToRgb s) <= 255) by apply land_255_bounds.
  assert (Hg : 0 <= Rgb.g (hexToRgb s) <= 255) by apply land_255_bounds.
  assert (Hb : 0 <= Rgb.b (hexToRgb s) <= 255) by apply land_255_bounds.
  split; [exact Hr |]. split; [exact Hg |]. split; [exact Hb |]. split.
  - apply rgbToHex_well_formed; assumption.
  - intros Hnan. unfold hexToRgb. cbv zeta. rewrite Hnan. reflexivity.
Qed.

Lemma X16_witness : hexToRgb "tetris" = Rgb.mk 0 0 0.
Proof.
  apply (X16_hexToRgb_of_any_string "tetris"). vm_compute. reflexivity.
Defined.

(** ** A piece that cannot fall rests on something *)

(** X17.  When the active piece of a session does not collide where it is
    but collides one row further down (so that a tick, a soft drop or a
    hard drop locks it there), one of its cells stands on the floor or
    directly on a block: a piece is never locked in mid-air. *)
Theorem X17_locked_piece_rests_on_floor_or_block (g : Game) (shape : Shape) :
  Inv g ->
  Piece.rotations (currentPiece g) !! Piece.rotationIndex (currentPiece g)
  = Some shape ->
  collides 0 0 (Piece.rotationIndex (currentPiece g)) g = Ok (false, g) ->
  collides 0 1 (Piece.rotationIndex (currentPiece g)) g = Ok (true, g) ->
  exists r c : nat,
    occupied shape r c /\
    (Piece.y (currentPiece g) + Z.of_nat r = ROWS - 1 \/
     board_occupied (board g)
       (Piece.y (currentPiece g) + Z.of_nat r + 1)
       (Piece.x (currentPiece g) + Z.of_nat c)).
Proof.
  intros (Hwf & _ & Hin & _) Hshape Hfree Hblocked.
  destruct (collides_spec g 0 1 _ shape Hwf Hshape) as (res & Hres & Hiff).
  rewrite Hblocked in Hres. injection Hres as <-.
  destruct (proj1 Hiff eq_refl) as (r & c & Hocc & Hviol).
  destruct (Hin shape r c Hshape Hocc) as [Hx Hy].
  exists r, c. split; [exact Hocc |].
  rewrite Z.add_0_r in Hviol.
  destruct Hviol as [Hv | [Hv | [_ Hv]]]; [lia | left; lia | right; exact Hv].
Qed.

Lemma X17_witness :
  exists r c : nat,
    occupied [[1; 1]; [1; 1]] r c /\
    (Piece.y (currentPiece (lowered 19 (start 3))) + Z.of_nat r = ROWS - 1 \/
     board_occupied (board (lowered 19 (start 3)))
       (Piece.y (currentPiece (lowered 19 (start 3))) + Z.of_nat r + 1)
       (Piece.x (currentPiece (lowered 19 (start 3))) + Z.of_nat c)).
Proof.
  apply (X17_locked_piece_rests_on_floor_or_block (lowered 19 (start 3))).
  - apply (hardDrop_landing_Inv enough_fuel 19 (start 3)).
    + apply Inv_start. cbn. lia.
    + vm_compute. reflexivity.
  - reflexivity.
  - vm_compute. reflexivity.
  - vm_compute. reflexivity.
Defined.

(** ** What [draw] paints *)

Lemma draw_row_spec (cells : list (option string)) (r col row : Z) (colour : string) :
  In (col, row, colour) (draw_row cells r) <->
  row = r /\ 0 <= col < COLS /\
  index cells col = Some (Some colour) /\ colour <> EmptyString.
Proof.
  unfold draw_row. rewrite in_flat_map. split.
  - intros (c & Hc & Hin). apply in_seq in Hc.
    destruct (cells !! c) as [[s |] |] eqn:Hcell; simpl in Hin;
      try (destruct Hin; fail).
    destruct (String.eqb s EmptyString) eqn:Hs; simpl in Hin;
      [destruct Hin |].
    destruct Hin as [Heq | []]. injection Heq as <- <- <-.
    split; [reflexivity |]. split; [unfold COLS in *; lia |].
    rewrite index_of_nat. split; [exact Hcell |].
    intros ->. discriminate.
  - intros (-> & Hcol & Hcell & Hne).
    exists (Z.to_nat col). split; [apply in_seq; unfold COLS in *; lia |].
    unfold index in Hcell.
    destruct (col <? 0) eqn:E; [discriminate |].
    rewrite Hcell. simpl.
    destruct (String.eqb colour EmptyString) eqn:Hs.
    + apply String.eqb_eq in Hs. contradiction.
    + simpl. left. f_equal. f_equal. lia.
Qed.

Lemma draw_board_spec (b : Board) (rows : list nat) :
  (forall r : nat, In r rows -> (r < length b)%nat) ->
  exists calls : list (Z * Z * string),
    draw_board b rows = Ok calls /\
    forall t : Z * Z * string,
      In t calls <->
      exists (r : nat) (cells : list (option string)),
        In r rows /\ b !! r = Some cells /\ In t (draw_row cells (Z.of_nat r)).
Proof.
  induction rows as [| r rest IH]; intros Hlt.
  - exists []. split; [reflexivity |]. intros t. split; [intros [] |].
    intros (r & cells & [] & _).
  - destruct IH as (calls & Hcalls & Hiff).
    { intros r' Hr'. apply Hlt. right. exact Hr'. }
    destruct (lookup_lt_is_Some_2 b r (Hlt r (or_introl eq_refl))) as [cells Hcells].
    exists (draw_row cells (Z.of_nat r) ++ calls).
    cbn [draw_board]. rewrite Hcells, Hcalls. split; [reflexivity |].
    intros t. rewrite in_app_iff, Hiff. split.
    + intros [Hin | (r' & cells' & Hr' & Hb & Hin)].
      * exists r, cells. split; [left; reflexivity | auto].
      * exists r', cells'. split; [right; exact Hr' | auto].
    + intros (r' & cells' & [<- | Hr'] & Hb & Hin).
      * left. rewrite Hcells in Hb. injection Hb as <-. exact Hin.
      * right. exists r', cells'. auto.
Qed.

Lemma draw_piece_cols_spec (p : Piece.t) (r c0 : Z) (row : list Z)
    (x y : Z) (colour : string) :
  In (x, y, colour) (draw_piece_cols p r c0 row) <->
  colour = Piece.colour p /\ y = Piece.y p + r /\ 0 <= y /\
  exists (c : nat) (v : Z),
    row !! c = Some v /\ value_truthy v = true /\
    x = Piece.x p + (c0 + Z.of_nat c).
Proof.
  revert c0. induction row as [| v rest IH]; intros c0; cbn [draw_piece_cols].
  - split; [intros [] |]. intros (_ & _ & _ & c & v & Hc & _).
    rewrite lookup_nil in Hc. discriminate.
  - rewrite in_app_iff, IH. split.
    + intros [Hin | (Hcol & Hy & Hy0 & c & w & Hc & Hw & Hx)].
      * destruct (value_truthy v) eqn:Hv; cbn [andb] in Hin; [| contradiction].
        destruct (Piece.y p + r >=? 0) eqn:Hy; [| contradiction].
        destruct Hin as [Heq | []]. injection Heq as <- <- <-.
        apply Z.geb_le in Hy.
        split; [reflexivity |]. split; [reflexivity |]. split; [lia |].
        exists 0%nat, v. split; [reflexivity |]. split; [exact Hv |]. lia.
      * split; [exact Hcol |]. split; [exact Hy |]. split; [exact Hy0 |].
        exists (S c), w. split; [exact Hc |]. split; [exact Hw |]. lia.
    + intros (Hcol & Hy & Hy0 & c & w & Hc & Hw & Hx).
      destruct c as [| c].
      * left. cbn in Hc. injection Hc as ->. rewrite Hw. cbn [andb].
        assert (Hge : (Piece.y p + r >=? 0) = true) by (apply Z.geb_le; lia).
        rewrite Hge. left. subst. f_equal. f_equal. lia.
      * right. split; [exact Hcol |]. split; [exact Hy |]. split; [exact Hy0 |].
        exists c, w. split; [exact Hc |]. split; [exact Hw |]. lia.
Qed.

Lemma draw_piece_rows_spec (p : Piece.t) (r0 : Z) (shape : Shape)
    (x y : Z) (colour : string) :
  In (x, y, colour) (draw_piece_rows p r0 shape) <->
  colour = Piece.colour p /\ 0 <= y /\
  exists r c : nat,
    occupied shape r c /\
    y = Piece.y p + (r0 + Z.of_nat r) /\ x = Piece.x p + Z.of_nat c.
Proof.
  revert r0. induction shape as [| row rest IH]; intros r0; cbn [draw_piece_rows].
  - split; [intros [] |]. intros (_ & _ & r & c & (row & v & Hr & _) & _).
    rewrite lookup_nil in Hr. discriminate.
  - rewrite in_app_iff, IH, draw_piece_cols_spec. split.
    + intros [(Hcol & Hy & Hy0 & c & v & Hc & Hv & Hx)
             | (Hcol & Hy0 & r & c & (row' & v & Hr & Hc & Hv) & Hy & Hx)].
      * split; [exact Hcol |]. split; [exact Hy0 |].
        exists 0%nat, c. split; [exists row, v; auto |]. lia.
      * split; [exact Hcol |]. split; [exact Hy0 |].
        exists (S r), c. split; [exists row', v; auto |]. lia.
    + intros (Hcol & Hy0 & r & c & (row' & v & Hr & Hc & Hv) & Hy & Hx).
      destruct r as [| r].
      * left. cbn in Hr. injection Hr as ->.
        split; [exact Hcol |]. split; [lia |]. split; [exact Hy0 |].
        exists c, v. split; [exact Hc |]. split; [exact Hv |]. lia.
      * right. split; [exact Hcol |]. split; [exact Hy0 |].
        exists r, c. split; [exists row', v; auto |]. lia.
Qed.

(** [draw] on a board with its [ROWS] rows and a piece in one of its
    rotation states: the calls of [drawCell], for any state. *)
Lemma draw_spec (g : Game) (shape : Shape) :
  length (board g) = Z.to_nat ROWS ->
  Piece.rotations (currentPiece g) !! Piece.rotationIndex (currentPiece g)
  = Some shape ->
  exists calls : list (Z * Z * string),
    draw g = Ok (calls, g) /\
    forall (col row : Z) (colour : string),
      In (col, row, colour) calls <->
      (0 <= col < COLS /\ cell_at (board g) row col = Some colour /\
       colour <> EmptyString) \/
      (written (currentPiece g) shape row col /\
       colour = Piece.colour (currentPiece g)).
Proof.
  intros Hlen Hshape.
  destruct (draw_board_spec (board g) (seq 0 (Z.to_nat ROWS))) as (blocks & Hb & Hiff).
  { intros r Hr. apply in_seq in Hr. lia. }
  exists (blocks ++ draw_piece_rows (currentPiece g) 0 shape). split.
  - unfold draw, bind, get, lift, ret. rewrite Hb, Hshape. reflexivity.
  - intros col row colour.
    rewrite in_app_iff, Hiff, draw_piece_rows_spec. split.
    + intros [(r & cells & Hr & Hcells & Hin) | (Hcol & Hy0 & r & c & Hocc & Hy & Hx)].
      * left. apply draw_row_spec in Hin.
        destruct Hin as (-> & Hcol & Hcell & Hne).
        split; [exact Hcol |]. split; [| exact Hne].
        unfold cell_at. rewrite index_of_nat, Hcells, Hcell. reflexivity.
      * right. split; [| exact Hcol]. split; [exact Hy0 |].
        exists r, c. split; [exact Hocc |]. lia.
    + intros [(Hcol & Hcell & Hne) | ((Hy0 & r & c & Hocc & Hy & Hx) & Hcol)].
      * left. unfold cell_at in Hcell.
        destruct (index (board g) row) as [cells |] eqn:Hrow; [| discriminate].
        pose proof (index_lt _ _ _ Hrow) as Hrange.
        exists (Z.to_nat row), cells.
        split; [apply in_seq; lia |].
        split.
        { unfold index in Hrow. destruct (row <? 0); [discriminate | exact Hrow]. }
        apply draw_row_spec.
        split; [lia |]. split; [exact Hcol |]. split; [| exact Hne].
        destruct (index cells col) as [v |] eqn:Hv; simpl in Hcell;
          [rewrite Hcell; reflexivity | discriminate].
      * right. split; [exact Hcol |]. split; [exact Hy0 |].
        exists r, c. split; [exact Hocc |]. lia.
Qed.

Lemma reachable_cells (g : Game) :
  reachable g -> Forall (Forall catalog_cell) (board g).
Proof.
  intros (g1 & (g0 & index & Hindex & Hreset) & Hsteps).
  destruct (resetGame_spec index g0 Hindex) as (g1' & Hrun & Hinv1 & Hb & _).
  rewrite Hreset in Hrun. injection Hrun as <-.
  assert (H1 : Forall (Forall catalog_cell) (board g1)).
  { rewrite Hb. apply Forall_replicate. apply Forall_replicate.
    left. reflexivity. }
  clear Hreset Hb.
  induction Hsteps as [g | g g2 g3 H12 IH (fuel & o & Hok & Hexec)];
    [exact H1 |].
  exact (exec_cells _ _ _ _ (steps_Inv _ _ H12 Hinv1) Hexec (IH Hinv1 H1)).
Qed.

(** X18.  In every state of a session [draw] returns, and it calls
    [drawCell] for exactly the blocks of the board, each with the colour
    stored in its cell, and the cells of the active piece that are on the
    board (row [0] or below), with the colour of the piece.  The state is
    not changed. *)
Theorem X18_draw_paints_the_blocks_and_the_piece (g : Game) :
  session g ->
  exists (shape : Shape) (calls : list (Z * Z * string)),
    Piece.rotations (currentPiece g) !! Piece.rotationIndex (currentPiece g)
    = Some shape /\
    draw g = Ok (calls, g) /\
    forall (col row : Z) (colour : string),
      In (col, row, colour) calls <->
      (cell_at (board g) row col = Some colour \/
       (written (currentPiece g) shape row col /\
        colour = Piece.colour (currentPiece g))).
Proof.
  intros Hs. pose proof (session_reachable g Hs) as Hreach.
  pose proof (reachable_Inv g Hreach) as Hinv.
  pose proof (reachable_cells g Hreach) as Hcells.
  destruct Hinv as ([Hlen Hrows] & [_ Hrot] & _ & _).
  destruct (lookup_lt_is_Some_2 _ _ Hrot) as [shape Hshape].
  destruct (draw_spec g shape Hlen Hshape) as (calls & Hdraw & Hiff).
  exists shape, calls. split; [exact Hshape |]. split; [exact Hdraw |].
  intros col row colour. rewrite Hiff. split.
  - intros [(_ & Hcell & _) | Hp]; [left; exact Hcell | right; exact Hp].
  - intros [Hcell | Hp]; [left | right; exact Hp].
    unfold cell_at in Hcell.
    destruct (index (board g) row) as [cells |] eqn:Hrow; [| discriminate].
    destruct (index cells col) as [v |] eqn:Hv; simpl in Hcell;
      [| discriminate].
    subst v.
    assert (Hin : cells ∈ board g).
    { unfold index in Hrow. destruct (row <? 0); [discriminate |].
      apply list_elem_of_lookup. eauto. }
    rewrite Forall_forall in Hrows, Hcells.
    pose proof (index_lt _ _ _ Hv) as Hcol. rewrite (Hrows cells Hin) in Hcol.
    split; [unfold COLS in *; lia |].
    split; [unfold cell_at; rewrite Hrow, Hv; reflexivity |].
    assert (Hcat : catalog_cell (Some colour)).
    { specialize (Hcells cells Hin). rewrite Forall_forall in Hcells.
      apply Hcells. unfold index in Hv. destruct (col <? 0); [discriminate |].
      apply list_elem_of_lookup. eauto. }
    destruct Hcat as [Hnone | (def & Hdef & Heq)]; [discriminate |].
    injection Heq as ->.
    assert (Hcolours : forallb (fun d => negb (String.eqb (Def.colour d) EmptyString))
                               PIECES = true) by (vm_compute; reflexivity).
    rewrite forallb_forall in Hcolours.
    pose proof (Hcolours def (proj1 (list_elem_of_In _ _) Hdef)) as Hne.
    intros Hempty. rewrite Hempty in Hne. discriminate.
Qed.

Lemma X18_witness :
  exists (shape : Shape) (calls : list (Z * Z * string)),
    Piece.rotations (currentPiece page_played)
      !! Piece.rotationIndex (currentPiece page_played) = Some shape /\
    draw page_played = Ok (calls, page_played) /\
    forall (col row : Z) (colour : string),
      In (col, row, colour) calls <->
      (cell_at (board page_played) row col = Some colour \/
       (written (currentPiece page_played) shape row col /\
        colour = Piece.colour (currentPiece page_played))).
Proof.
  apply (X18_draw_paints_the_blocks_and_the_piece page_played).
  exact session_page_played.
Defined.

(** X19.  In every state of a session each call of [drawCell] made by
    [draw] is for a cell of the grid, column [0] to [COLS - 1] and row [0]
    to [ROWS - 1], and with the colour of a variant of the catalog: nothing
    is painted outside the canvas, and the part of the piece above the
    board is not painted. *)
Theorem X19_draw_stays_on_the_grid (g : Game) (calls : list (Z * Z * string))
    (col row : Z) (colour : string) :
  session g ->
  draw g = Ok (calls, g) ->
  In (col, row, colour) calls ->
  0 <= col < COLS /\ 0 <= row < ROWS /\
  exists def : Def.t, def ∈ PIECES /\ colour = Def.colour def.
Proof.
  intros Hs Hdraw Hin. pose proof (session_reachable g Hs) as Hreach.
  pose proof (reachable_Inv g Hreach) as Hinv.
  pose proof (reachable_cells g Hreach) as Hcells.
  destruct Hinv as ([Hlen Hrows] & Hok & Hbounds & _).
  pose proof Hok as [_ Hrot].
  destruct (lookup_lt_is_Some_2 _ _ Hrot) as [shape Hshape].
  destruct (draw_spec g shape Hlen Hshape) as (calls' & Hdraw' & Hiff).
  rewrite Hdraw in Hdraw'. injection Hdraw' as <-.
  apply Hiff in Hin.
  destruct Hin as [(Hcol & Hcell & Hne) | ((Hy0 & r & c & Hocc & Hy & Hx) & Hcol)].
  - split; [exact Hcol |].
    unfold cell_at in Hcell.
    destruct (index (board g) row) as [cells |] eqn:Hrow; [| discriminate].
    destruct (index cells col) as [v |] eqn:Hv; simpl in Hcell;
      [| discriminate].
    subst v. pose proof (index_lt _ _ _ Hrow) as Hr.
    split; [lia |].
    assert (Hin : cells ∈ board g).
    { unfold index in Hrow. destruct (row <? 0); [discriminate |].
      apply list_elem_of_lookup. eauto. }
    rewrite Forall_forall in Hcells. specialize (Hcells cells Hin).
    rewrite Forall_forall in Hcells.
    destruct (Hcells (Some colour)) as [Hnone | (def & Hdef & Heq)].
    + unfold index in Hv. destruct (col <? 0); [discriminate |].
      apply list_elem_of_lookup. eauto.
    + discriminate.
    + injection Heq as ->. exists def. auto.
  - destruct (Hbounds shape r c Hshape Hocc) as [Hx' Hy'].
    split; [lia |]. split; [lia |].
    destruct (piece_ok_colour _ Hok) as [Hnone | (def & Hdef & Heq)];
      [discriminate |].
    injection Heq as Heq. exists def. split; [exact Hdef | congruence].
Qed.

Lemma X19_witness :
  0 <= 3 < COLS /\ 0 <= 0 < ROWS /\
  exists def : Def.t, def ∈ PIECES /\ "#00b4d8"%string = Def.colour def.
Proof.
  assert (Hindex : (0 < length PIECES)%nat) by (cbn; lia).
  assert (Hdraw : draw (start 0)
                  = Ok ([(3, 0, "#00b4d8"%string); (4, 0, "#00b4d8"%string);
                         (5, 0, "#00b4d8"%string); (6, 0, "#00b4d8"%string)],
                        start 0)).
  { vm_compute. reflexivity. }
  apply (X19_draw_stays_on_the_grid (start 0) _ 3 0 "#00b4d8"
           (session_start 0 Hindex) Hdraw).
  left. reflexivity.
Defined.

(** ** No cell is painted twice while the game runs *)

Lemma NoDup_app_In {A : Type} (l k : list A) :
  NoDup l -> NoDup k -> (forall x : A, In x l -> In x k -> False) ->
  NoDup (l ++ k).
Proof.
  intros Hl Hk Hdisj. apply NoDup_app. split; [exact Hl |]. split; [| exact Hk].
  intros x Hx Hx'. apply list_elem_of_In in Hx. apply list_elem_of_In in Hx'.
  exact (Hdisj x Hx Hx').
Qed.

Lemma in_map_fst {A B : Type} (l : list (A * B)) (a : A) :
  In a (map fst l) <-> exists b : B, In (a, b) l.
Proof.
  rewrite in_map_iff. split.
  - intros ([a' b] & Heq & Hin). cbn in Heq. subst a'. exists b. exact Hin.
  - intros (b & Hin). exists (a, b). auto.
Qed.

Lemma draw_row_positions (cells : list (option string)) (r : Z) :
  map fst (draw_row cells r)
  = map (fun c : nat => (Z.of_nat c, r))
        (List.filter (fun c : nat => cell_truthy (default None (cells !! c)))
                     (seq 0 (Z.to_nat COLS))).
Proof.
  unfold draw_row.
  induction (seq 0 (Z.to_nat COLS)) as [| c l IH]; [reflexivity |].
  cbn [flat_map List.filter]. rewrite map_app, IH.
  destruct (cells !! c) as [[s |] |]; simpl; try reflexivity.
  destruct (String.eqb s EmptyString); reflexivity.
Qed.

Lemma NoDup_map_injective {A B : Type} (f : A -> B) (l : list A) :
  (forall x y : A, f x = f y -> x = y) -> NoDup l -> NoDup (map f l).
Proof.
  intros Hinj. induction l as [| a l IH]; intros Hnd; cbn [map].
  - constructor.
  - apply NoDup_cons in Hnd. destruct Hnd as [Hnotin Hnd].
    apply NoDup_cons. split; [| exact (IH Hnd)].
    intros Hin. apply list_elem_of_In in Hin. apply in_map_iff in Hin.
    destruct Hin as (x & Heq & Hx). apply Hinj in Heq. subst x.
    apply Hnotin. apply list_elem_of_In. exact Hx.
Qed.

Lemma NoDup_List_filter {A : Type} (f : A -> bool) (l : list A) :
  NoDup l -> NoDup (List.filter f l).
Proof.
  induction l as [| a l IH]; intros Hnd; cbn [List.filter].
  - constructor.
  - apply NoDup_cons in Hnd. destruct Hnd as [Hnotin Hnd].
    destruct (f a); [| exact (IH Hnd)].
    apply NoDup_cons. split; [| exact (IH Hnd)].
    intros Hin. apply list_elem_of_In in Hin. apply filter_In in Hin.
    apply Hnotin. apply list_elem_of_In. exact (proj1 Hin).
Qed.

Lemma draw_row_NoDup (cells : list (option string)) (r : Z) :
  NoDup (map fst (draw_row cells r)).
Proof.
  rewrite draw_row_positions. apply NoDup_map_injective.
  - intros c c' Heq. injection Heq as Heq. lia.
  - apply NoDup_List_filter. apply NoDup_seq.
Qed.

Lemma draw_board_NoDup (b : Board) (rows : list nat)
    (calls : list (Z * Z * string)) :
  NoDup rows ->
  draw_board b rows = Ok calls ->
  NoDup (map fst calls) /\
  forall (col row : Z) (colour : string),
    In (col, row, colour) calls -> exists r : nat, In r rows /\ row = Z.of_nat r.
Proof.
  revert calls. induction rows as [| r rest IH]; intros calls Hnd Hdraw.
  - injection Hdraw as <-. split; [constructor |]. intros ? ? ? [].
  - cbn [draw_board] in Hdraw.
    destruct (b !! r) as [cells |] eqn:Hcells; [| discriminate].
    destruct (draw_board b rest) as [calls' | |] eqn:Hrest; try discriminate.
    injection Hdraw as <-.
    apply NoDup_cons in Hnd. destruct Hnd as [Hnotin Hnd].
    destruct (IH calls' Hnd eq_refl) as [Hnd' Hrows].
    split.
    + rewrite map_app. apply NoDup_app_In; [apply draw_row_NoDup | exact Hnd' |].
      intros [col row] H1 H2.
      apply in_map_fst in H1. destruct H1 as [c1 H1].
      apply in_map_fst in H2. destruct H2 as [c2 H2].
      apply draw_row_spec in H1. destruct H1 as (Hrow & _).
      destruct (Hrows _ _ _ H2) as (r' & Hr' & Hrow').
      assert (r' = r) by lia. subst r'.
      apply Hnotin. apply list_elem_of_In. exact Hr'.
    + intros col row colour Hin. apply in_app_iff in Hin.
      destruct Hin as [Hin | Hin].
      * apply draw_row_spec in Hin. destruct Hin as (Hrow & _).
        exists r. split; [left; reflexivity | exact Hrow].
      * destruct (Hrows _ _ _ Hin) as (r' & Hr' & Hrow').
        exists r'. split; [right; exact Hr' | exact Hrow'].
Qed.

Lemma draw_piece_cols_NoDup (p : Piece.t) (r c0 : Z) (row : list Z) :
  NoDup (map fst (draw_piece_cols p r c0 row)).
Proof.
  revert c0. induction row as [| v rest IH]; intros c0; cbn [draw_piece_cols].
  - constructor.
  - rewrite map_app. apply NoDup_app_In; [| apply IH |].
    + destruct (value_truthy v && (Piece.y p + r >=? 0)); cbn [map].
      * apply NoDup_singleton.
      * constructor.
    + intros [x y] H1 H2.
      apply in_map_fst in H2. destruct H2 as [c2 H2].
      apply draw_piece_cols_spec in H2.
      destruct H2 as (_ & _ & _ & c & w & _ & _ & Hx).
      destruct (value_truthy v && (Piece.y p + r >=? 0)); cbn [map In] in H1;
        [| contradiction].
      destruct H1 as [Heq | []]. cbn [fst] in Heq. injection Heq as Hx' _. lia.
Qed.

Lemma draw_piece_rows_NoDup (p : Piece.t) (r0 : Z) (shape : Shape) :
  NoDup (map fst (draw_piece_rows p r0 shape)).
Proof.
  revert r0. induction shape as [| row rest IH]; intros r0; cbn [draw_piece_rows].
  - constructor.
  - rewrite map_app.
    apply NoDup_app_In; [apply draw_piece_cols_NoDup | apply IH |].
    intros [x y] H1 H2.
    apply in_map_fst in H1. destruct H1 as [c1 H1].
    apply in_map_fst in H2. destruct H2 as [c2 H2].
    apply draw_piece_cols_spec in H1. destruct H1 as (_ & Hy & _).
    apply draw_piece_rows_spec in H2. destruct H2 as (_ & _ & r & c & _ & Hy' & _).
    lia.
Qed.

(** What a run of [draw] is made of. *)
Lemma draw_inv (g g' : Game) (calls : list (Z * Z * string)) :
  draw g = Ok (calls, g') ->
  exists (blocks : list (Z * Z * string)) (shape : Shape),
    draw_board (board g) (seq 0 (Z.to_nat ROWS)) = Ok blocks /\
    Piece.rotations (currentPiece g) !! Piece.rotationIndex (currentPiece g)
    = Some shape /\
    calls = blocks ++ draw_piece_rows (currentPiece g) 0 shape /\
    g' = g.
Proof.
  unfold draw, bind, get, lift, ret, throw. intros H.
  destruct (draw_board (board g) (seq 0 (Z.to_nat ROWS))) as [blocks | |];
    try discriminate.
  destruct (Piece.rotations (currentPiece g) !! Piece.rotationIndex (currentPiece g))
    as [shape |]; [| discriminate].
  injection H as <- <-. exists blocks, shape. auto.
Qed.

(** X20.  In a state of a session, [draw] paints no cell twice exactly
    while the game runs: once the game is over, the piece that could not be
    spawned is painted over a block of the board. *)
Theorem X20_draw_paints_a_cell_twice_iff_game_over (g : Game)
    (calls : list (Z * Z * string)) :
  session g ->
  draw g = Ok (calls, g) ->
  NoDup (map fst calls) <-> isGameOver g = false.
Proof.
  intros Hs Hdraw. pose proof (session_reachable g Hs) as Hreach.
  pose proof (reachable_Inv g Hreach) as (Hwf & Hok & Hbounds & Hy).
  destruct (draw_inv _ _ _ Hdraw) as (blocks & shape & Hblocks & Hshape & -> & _).
  destruct (draw_board_spec (board g) (seq 0 (Z.to_nat ROWS)))
    as (blocks' & Hblocks' & Hiff).
  { intros r Hr. apply in_seq in Hr. destruct Hwf as [Hlen _]. lia. }
  rewrite Hblocks in Hblocks'. injection Hblocks' as <-.
  assert (Hboth :
            forall col row : Z,
              In (col, row) (map fst blocks) ->
              In (col, row) (map fst (draw_piece_rows (currentPiece g) 0 shape)) ->
              exists r c : nat,
                occupied shape r c /\
                cell_violates (board g)
                  (Piece.x (currentPiece g) + Z.of_nat c + 0)
                  (Piece.y (currentPiece g) + Z.of_nat r + 0)).
  { intros col row H1 H2.
    apply in_map_fst in H1. destruct H1 as [c1 H1].
    apply in_map_fst in H2. destruct H2 as [c2 H2].
    apply Hiff in H1. destruct H1 as (r' & cells & Hr' & Hcells & H1).
    apply draw_row_spec in H1. destruct H1 as (-> & Hcol & Hcell & Hne).
    apply draw_piece_rows_spec in H2.
    destruct H2 as (_ & Hy0 & r & c & Hocc & Hrow & Hx).
    exists r, c. split; [exact Hocc |]. right. right.
    replace (Piece.y (currentPiece g) + Z.of_nat r + 0) with (Z.of_nat r') by lia.
    replace (Piece.x (currentPiece g) + Z.of_nat c + 0) with col by lia.
    split; [lia |].
    exists cells, (Some c1). split; [rewrite index_of_nat; exact Hcells |].
    split; [exact Hcell |]. cbn [cell_truthy].
    destruct (String.eqb c1 EmptyString) eqn:E; [| reflexivity].
    apply String.eqb_eq in E. contradiction. }
  split.
  - intros Hnd. destruct (isGameOver g) eqn:Hover; [| reflexivity].
    exfalso.
    destruct (session_over_spawned g Hs Hover) as (Hcoll & _ & _).
    destruct (collides_spec g 0 0 _ shape Hwf Hshape) as (res & Hres & Hres').
    rewrite Hcoll in Hres. injection Hres as <-.
    destruct (proj1 Hres' eq_refl) as (r & c & Hocc & Hviol).
    destruct (Hbounds shape r c Hshape Hocc) as [Hx Hyr].
    rewrite !Z.add_0_r in Hviol.
    destruct Hviol as [Hv | [Hv | [Hy0 (cells & v & Hcells & Hv & Htruthy)]]];
      [lia | lia |].
    rewrite map_app in Hnd. apply NoDup_app in Hnd.
    destruct Hnd as (_ & Hdisj & _).
    apply (Hdisj (Piece.x (currentPiece g) + Z.of_nat c,
                  Piece.y (currentPiece g) + Z.of_nat r)).
    + apply list_elem_of_In. destruct v as [colour |]; [| discriminate].
      apply in_map_fst. exists colour. apply Hiff.
      pose proof (index_lt _ _ _ Hcells) as Hrange.
      exists (Z.to_nat (Piece.y (currentPiece g) + Z.of_nat r)), cells.
      split; [apply in_seq; destruct Hwf as [Hlen _]; lia |].
      split.
      { unfold index in Hcells.
        destruct (Piece.y (currentPiece g) + Z.of_nat r <? 0);
          [discriminate | exact Hcells]. }
      apply draw_row_spec. split; [lia |]. split; [exact Hx |].
      split; [exact Hv |]. intros ->. discriminate.
    + apply list_elem_of_In. apply in_map_fst.
      exists (Piece.colour (currentPiece g)). apply draw_piece_rows_spec.
      split; [reflexivity |]. split; [exact Hy0 |].
      exists r, c. split; [exact Hocc |]. lia.
  - intros Hrunning. rewrite map_app.
    destruct (draw_board_NoDup (board g) _ blocks (NoDup_seq _ _) Hblocks)
      as [Hnd _].
    apply NoDup_app_In; [exact Hnd | apply draw_piece_rows_NoDup |].
    intros [col row] H1 H2.
    destruct (Hboth col row H1 H2) as (r & c & Hocc & Hviol).
    exact (collides_false_elim g 0 0 _ shape r c Hwf Hshape
             (session_Safe g Hs Hrunning) Hocc Hviol).
Qed.

Lemma X20_witness :
  NoDup (map fst [(3, 0, "#00b4d8"%string); (4, 0, "#00b4d8"%string);
                  (5, 0, "#00b4d8"%string); (6, 0, "#00b4d8"%string)])
  <-> isGameOver (start 0) = false.
Proof.
  assert (Hindex : (0 < length PIECES)%nat) by (cbn; lia).
  assert (Hdraw : draw (start 0)
                  = Ok ([(3, 0, "#00b4d8"%string); (4, 0, "#00b4d8"%string);
                         (5, 0, "#00b4d8"%string); (6, 0, "#00b4d8"%string)],
                        start 0)).
  { vm_compute. reflexivity. }
  exact (X20_draw_paints_a_cell_twice_iff_game_over (start 0) _
           (session_start 0 Hindex) Hdraw).
Defined.

(** ** The shades that [drawCell] paints with *)

Lemma number_eqb_eq (a b : jsnumber) : number_eqb a b = true -> a = b.
Proof.
  destruct a as [x | | s], b as [y | | t]; cbn [number_eqb]; try discriminate.
  - intros H. apply Z.eqb_eq in H. congruence.
  - reflexivity.
  - intros H. apply Bool.eqb_prop in H. congruence.
Qed.

Lemma shades_ordered_spec (v : Z) (light dark border : jsnumber) :
  shades_ordered v light dark border = true ->
  exists l d b : Z,
    light = Finite l /\ dark = Finite d /\ border = Finite b /\
    0 <= b <= d /\ d <= v <= l /\ l <= 255.
Proof.
  destruct light as [l | |], dark as [d | |], border as [b | |];
    cbn [shades_ordered]; try discriminate.
  intros H. exists l, d, b.
  repeat (apply andb_prop in H; destruct H as [H ?]).
  repeat split; try reflexivity; lia.
Qed.

(** A property of the numbers 0 to 255 that is checked on each of them. *)
Lemma channel_table (P : Z -> bool) (c : Z) :
  forallb (fun n : nat => P (Z.of_nat n)) (seq 0 256) = true ->
  0 <= c <= 255 -> P c = true.
Proof.
  intros Hall Hc. rewrite forallb_forall in Hall.
  specialize (Hall (Z.to_nat c)). rewrite Z2Nat.id in Hall by lia.
  apply Hall. apply in_seq. lia.
Qed.

Lemma hexToRgb_channels (s : string) :
  0 <= Rgb.r (hexToRgb s) <= 255 /\
  0 <= Rgb.g (hexToRgb s) <= 255 /\
  0 <= Rgb.b (hexToRgb s) <= 255.
Proof.
  unfold hexToRgb. cbn [Rgb.r Rgb.g Rgb.b].
  split; [apply land_255_bounds |]. split; apply land_255_bounds.
Qed.

Lemma number_rgbToHex_Finite (r g b : Z) :
  number_rgbToHex (Finite r) (Finite g) (Finite b) = rgbToHex r g b.
Proof. reflexivity. Qed.

(** The result of the two functions from the rounded channels. *)
Lemma lightenColor_channels (color : string) (percent : float) (r g b : jsnumber) :
  Math_round (channel_number (Rgb.r (hexToRgb color))
              + (255 - channel_number (Rgb.r (hexToRgb color))) * percent)%float = r ->
  Math_round (channel_number (Rgb.g (hexToRgb color))
              + (255 - channel_number (Rgb.g (hexToRgb color))) * percent)%float = g ->
  Math_round (channel_number (Rgb.b (hexToRgb color))
              + (255 - channel_number (Rgb.b (hexToRgb color))) * percent)%float = b ->
  lightenColor color percent = number_rgbToHex r g b.
Proof. intros <- <- <-. reflexivity. Qed.

Lemma darkenColor_channels (color : string) (percent : float) (r g b : jsnumber) :
  Math_round (channel_number (Rgb.r (hexToRgb color)) * (1 - percent))%float = r ->
  Math_round (channel_number (Rgb.g (hexToRgb color)) * (1 - percent))%float = g ->
  Math_round (channel_number (Rgb.b (hexToRgb color)) * (1 - percent))%float = b ->
  darkenColor color percent = number_rgbToHex r g b.
Proof. intros <- <- <-. reflexivity. Qed.

Lemma shades_of_channel (v : Z) :
  0 <= v <= 255 ->
  exists light dark border : Z,
    Math_round (channel_number v + (255 - channel_number v) * gradient_percent)%float
    = Finite light /\
    Math_round (channel_number v * (1 - gradient_percent))%float = Finite dark /\
    Math_round (channel_number v * (1 - border_percent))%float = Finite border /\
    0 <= border <= dark /\ dark <= v <= light /\ light <= 255.
Proof.
  intros Hv.
  assert (Hall : forallb
            (fun n : nat =>
               (fun c : Z =>
                  shades_ordered c
                    (Math_round (channel_number c
                                 + (255 - channel_number c) * gradient_percent)%float)
                    (Math_round (channel_number c * (1 - gradient_percent))%float)
                    (Math_round (channel_number c * (1 - border_percent))%float))
                 (Z.of_nat n))
            (seq 0 256) = true) by (vm_compute; reflexivity).
  exact (shades_ordered_spec v _ _ _ (channel_table _ v Hall Hv)).
Qed.

(** X21.  For every colour string, the three shades that [drawCell]
    derives from it (the light end of the gradient, the dark end and the
    border) are colour strings [#rrggbb], and channel by channel the border
    is no lighter than the dark end, the dark end no lighter than the
    colour, and the colour no lighter than the light end. *)
Theorem X21_drawCell_shades_are_ordered_colours (colour : string) :
  well_formed_colour (lightenColor colour gradient_percent) /\
  well_formed_colour (darkenColor colour gradient_percent) /\
  well_formed_colour (darkenColor colour border_percent) /\
  no_lighter (hexToRgb (darkenColor colour border_percent))
             (hexToRgb (darkenColor colour gradient_percent)) /\
  no_lighter (hexToRgb (darkenColor colour gradient_percent)) (hexToRgb colour) /\
  no_lighter (hexToRgb colour) (hexToRgb (lightenColor colour gradient_percent)).
Proof.
  destruct (hexToRgb_channels colour) as (Hr & Hg & Hb).
  destruct (shades_of_channel _ Hr)
    as (lr & dr & br & Hlr & Hdr & Hbr & R1 & R2 & R3).
  destruct (shades_of_channel _ Hg)
    as (lg & dg & bg & Hlg & Hdg & Hbg & G1 & G2 & G3).
  destruct (shades_of_channel _ Hb)
    as (lb & db & bb & Hlb & Hdb & Hbb & B1 & B2 & B3).
  rewrite (lightenColor_channels colour gradient_percent _ _ _ Hlr Hlg Hlb).
  rewrite (darkenColor_channels colour gradient_percent _ _ _ Hdr Hdg Hdb).
  rewrite (darkenColor_channels colour border_percent _ _ _ Hbr Hbg Hbb).
  rewrite !number_rgbToHex_Finite.
  destruct (rgbToHex_read_back lr lg lb) as [-> Hwl]; try lia.
  destruct (rgbToHex_read_back dr dg db) as [-> Hwd]; try lia.
  destruct (rgbToHex_read_back br bg bb) as [-> Hwb]; try lia.
  unfold no_lighter. cbn [Rgb.r Rgb.g Rgb.b].
  repeat split; try assumption; lia.
Qed.

(** X22.  Mixing in nothing or everything: with the percentage [0] both
    functions return the colour as [rgbToHex] writes it, with [1]
    [lightenColor] returns white and [darkenColor] black, for every
    string. *)
Theorem X22_shades_at_0_and_1 (color : string) :
  lightenColor color 0 = rgbToHex (Rgb.r (hexToRgb color)) (Rgb.g (hexToRgb color))
                                  (Rgb.b (hexToRgb color)) /\
  darkenColor color 0 = rgbToHex (Rgb.r (hexToRgb color)) (Rgb.g (hexToRgb color))
                                 (Rgb.b (hexToRgb color)) /\
  lightenColor color 1 = "#ffffff"%string /\
  darkenColor color 1 = "#000000"%string.
Proof.
  assert (Hall : forall v : Z, 0 <= v <= 255 ->
            Math_round (channel_number v + (255 - channel_number v) * 0)%float
            = Finite v /\
            Math_round (channel_number v * (1 - 0))%float = Finite v /\
            Math_round (channel_number v + (255 - channel_number v) * 1)%float
            = Finite 255 /\
            Math_round (channel_number v * (1 - 1))%float = Finite 0).
  { intros v Hv.
    assert (Htable : forallb
              (fun n : nat =>
                 (fun c : Z =>
                    number_eqb
                      (Math_round (channel_number c
                                   + (255 - channel_number c) * 0)%float)
                      (Finite c)
                    && number_eqb
                         (Math_round (channel_number c * (1 - 0))%float) (Finite c)
                    && number_eqb
                         (Math_round (channel_number c
                                      + (255 - channel_number c) * 1)%float)
                         (Finite 255)
                    && number_eqb
                         (Math_round (channel_number c * (1 - 1))%float) (Finite 0))
                   (Z.of_nat n))
              (seq 0 256) = true) by (vm_compute; reflexivity).
    pose proof (channel_table _ v Htable Hv) as H. cbv beta in H.
    apply andb_prop in H. destruct H as [H H4].
    apply andb_prop in H. destruct H as [H H3].
    apply andb_prop in H. destruct H as [H1 H2].
    split; [exact (number_eqb_eq _ _ H1) |].
    split; [exact (number_eqb_eq _ _ H2) |].
    split; [exact (number_eqb_eq _ _ H3) | exact (number_eqb_eq _ _ H4)]. }
  destruct (hexToRgb_channels color) as (Hr & Hg & Hb).
  destruct (Hall _ Hr) as (R1 & R2 & R3 & R4).
  destruct (Hall _ Hg) as (G1 & G2 & G3 & G4).
  destruct (Hall _ Hb) as (B1 & B2 & B3 & B4).
  split; [exact (lightenColor_channels color 0 _ _ _ R1 G1 B1) |].
  split; [exact (darkenColor_channels color 0 _ _ _ R2 G2 B2) |].
  split; [exact (lightenColor_channels color 1 _ _ _ R3 G3 B3) |].
  exact (darkenColor_channels color 1 _ _ _ R4 G4 B4).
Qed.

(** X23.  Neither function checks its percentage: when it is [NaN], the
    result is the string [#NaNNaNNaN] for every colour, which is no colour
    string [#rrggbb]. *)
Theorem X23_shades_of_a_percentage_that_is_NaN (color : string) :
  lightenColor color nan = "#NaNNaNNaN"%string /\
  darkenColor color nan = "#NaNNaNNaN"%string /\
  ~ well_formed_colour "#NaNNaNNaN".
Proof.
  assert (Hall : forall v : Z, 0 <= v <= 255 ->
            Math_round (channel_number v + (255 - channel_number v) * nan)%float
            = NotANumber /\
            Math_round (channel_number v * (1 - nan))%float = NotANumber).
  { intros v Hv.
    assert (Htable : forallb
              (fun n : nat =>
                 (fun c : Z =>
                    number_eqb
                      (Math_round (channel_number c
                                   + (255 - channel_number c) * nan)%float)
                      NotANumber
                    && number_eqb
                         (Math_round (channel_number c * (1 - nan))%float)
                         NotANumber)
                   (Z.of_nat n))
              (seq 0 256) = true) by (vm_compute; reflexivity).
    pose proof (channel_table _ v Htable Hv) as H. cbv beta in H.
    apply andb_prop in H. destruct H as [H1 H2].
    split; [exact (number_eqb_eq _ _ H1) | exact (number_eqb_eq _ _ H2)]. }
  destruct (hexToRgb_channels color) as (Hr & Hg & Hb).
  destruct (Hall _ Hr) as (R1 & R2).
  destruct (Hall _ Hg) as (G1 & G2).
  destruct (Hall _ Hb) as (B1 & B2).
  split; [exact (lightenColor_channels color nan _ _ _ R1 G1 B1) |].
  split; [exact (darkenColor_channels color nan _ _ _ R2 G2 B2) |].
  intros (c1 & c2 & c3 & c4 & c5 & c6 & _ & _ & _ & _ & _ & _ & Heq).
  discriminate Heq.
Qed.
